(** * cppitertools: the mixed product generator (mixed_product.hpp)

    A shallow embedding of [iter::impl::MixedProductor] and of its
    [Iterator], followed by the properties of the padding schedule, of the
    composite cursor and of a whole traversal.

    Conventions of the embedding:
    - [bigint_t] is [size_t]: a value of [N] below [2^64]; every [++] and
      every product on it is reduced with [wrap];
    - a container is the list of its elements; a raw cursor into it is a
      position, [std::begin] being [0] and [std::end] the length;
    - the variadic nesting [MixedProductor<Container, Rest...>] is an
      inductive chain closed by the [MixedProductor<>] base, and so is the
      iterator; the [owner] pointer of an iterator is made explicit by
      passing the generator next to the cursor and returning its new
      value;
    - loops carry fuel and answer [None] when it runs out. *)

From Stdlib Require Import NArith ZArith Arith Bool List Lia Permutation.
From Stdlib Require Import Znumtheory.
Import ListNotations.

Local Open Scope N_scope.

(** ** Machine integers *)

Definition modulus : N := 18446744073709551616.

Definition wrap (x : N) : N := x mod modulus.

(** ** [MixedProductor::gcd] and the coprime search of [set_size] *)

(** [gcd(a, b) = !b ? a : gcd(b, a % b)]; one unit of fuel per call. *)
Fixpoint gcd_loop (fuel : nat) (a b : N) : option N :=
  match fuel with
  | O => None
  | S k => if b =? 0 then Some a else gcd_loop k b (a mod b)
  end.

(** The second argument strictly decreases, so [b + 1] calls are enough
    (lemma [gcd_loop_enough]). *)
Definition gcd (a b : N) : N :=
  match gcd_loop (S (N.to_nat b)) a b with
  | Some g => g
  | None => 0
  end.

(** [while (gcd(fakesize_, total) != 1) ++fakesize_;] one unit of fuel per
    evaluation of the loop condition. *)
Fixpoint search_loop (fuel : nat) (fakesize total : N) : option N :=
  match fuel with
  | O => None
  | S k =>
      if negb (gcd fakesize total =? 1)
      then search_loop k (wrap (fakesize + 1)) total
      else Some fakesize
  end.

(** Among [total] consecutive values one is congruent to 1, and a wrap
    passes through 1: [total + 2] evaluations are enough (lemma
    [coprime_search_spec]). *)
Definition coprime_search (fakesize total : N) : N :=
  match search_loop (S (S (N.to_nat total))) fakesize total with
  | Some f => f
  | None => fakesize
  end.

Section MixedProduct.

Variable A : Type.

(** ** The generator *)

Inductive MixedProductor : Type :=
| ProdBase (total_fakesize_ : N)
| ProdNode (container : list A) (size_ fakesize_ : N)
           (rest_products : MixedProductor).

(** [total_fakesize(fsz)]: forwarded down to the base, which stores [fsz]
    when it is not zero and answers the stored value. *)
Fixpoint total_fakesize (fsz : N) (p : MixedProductor) : MixedProductor * N :=
  match p with
  | ProdBase t =>
      let t' := if negb (fsz =? 0) then fsz else t in (ProdBase t', t')
  | ProdNode c s f r =>
      let '(r', v) := total_fakesize fsz r in (ProdNode c s f r', v)
  end.

(** The call [total_fakesize()] with the default argument. *)
Definition read_total (p : MixedProductor) : N := snd (total_fakesize 0 p).

(** The call [total_fakesize(v)] used as a store. *)
Definition write_total (v : N) (p : MixedProductor) : MixedProductor :=
  fst (total_fakesize v p).

Definition set_size (size : N) (p : MixedProductor) : MixedProductor :=
  match p with
  | ProdBase _ => p
  | ProdNode c s f r =>
      if size =? 0 then p
      else
        if negb (read_total r =? 0)
        then
          let f' := coprime_search size (read_total r) in
          ProdNode c size f' (write_total (wrap (f' * read_total r)) r)
        else ProdNode c size size (write_total size r)
  end.

(** ** The iterator *)

Inductive Iterator : Type :=
| IterBase (counter : N)
| IterNode (iter begin_ end_ : nat) (rest_iter : Iterator) (counter : N).

Definition is_fake (size_ fakesize_ counter : N) : bool :=
  if (counter <? size_) || (fakesize_ =? 0) then false
  else if counter <? fakesize_ then true else false.

Fixpoint global_counter (it : Iterator) : N :=
  match it with
  | IterBase c => c
  | IterNode _ _ _ r _ => global_counter r
  end.

Definition owner_size (p : MixedProductor) : N :=
  match p with ProdNode _ s _ _ => s | ProdBase _ => 0 end.

Definition owner_fakesize (p : MixedProductor) : N :=
  match p with ProdNode _ _ f _ => f | ProdBase _ => 0 end.

Definition owner_rest (p : MixedProductor) : MixedProductor :=
  match p with ProdNode _ _ _ r => r | ProdBase _ => p end.

Definition with_rest (p r : MixedProductor) : MixedProductor :=
  match p with ProdNode c s f _ => ProdNode c s f r | ProdBase _ => p end.

(** [do_increment]: the result is the generator after the call, the
    cursor after the call and the returned flag. *)
Fixpoint do_increment (p : MixedProductor) (it : Iterator)
  : MixedProductor * Iterator * bool :=
  match it with
  | IterBase c => (p, IterBase (wrap (c + 1)), false)
  | IterNode i b e rit c =>
      let i1 := if negb (is_fake (owner_size p) (owner_fakesize p) c)
                then S i else i in
      let c1 := wrap (c + 1) in
      if Nat.eqb i1 e then
        let p1 := if (0 <? c1) && (owner_fakesize p =? 0)
                  then set_size c1 p else p in
        if negb (is_fake (owner_size p1) (owner_fakesize p1) c1) then
          let '(r2, rit2, flag) := do_increment (owner_rest p1) rit in
          (with_rest p1 r2, IterNode b b e rit2 0, flag)
        else
          let '(r2, rit2, _) := do_increment (owner_rest p1) rit in
          (with_rest p1 r2, IterNode i1 b e rit2 c1, true)
      else
        let '(r2, rit2, flag) := do_increment (owner_rest p) rit in
        (with_rest p r2, IterNode i1 b e rit2 c1, flag)
  end.

Fixpoint all_sizes_discovered (p : MixedProductor) (it : Iterator) : bool :=
  match it with
  | IterBase _ => true
  | IterNode _ _ _ rit _ =>
      negb (owner_fakesize p =? 0) && all_sizes_discovered (owner_rest p) rit
  end.

(** [begin()] and [end()] *)
Fixpoint begin (p : MixedProductor) : Iterator :=
  match p with
  | ProdBase _ => IterBase 0
  | ProdNode c _ _ r => IterNode 0 0 (length c) (begin r) 0
  end.

Fixpoint end_ (p : MixedProductor) : Iterator :=
  match p with
  | ProdBase _ => IterBase 0
  | ProdNode c _ _ r => IterNode (length c) (length c) (length c) (end_ r) 0
  end.

(** [RestIter::is_base_iter] *)
Definition is_base_iter (it : Iterator) : bool :=
  match it with IterBase _ => true | IterNode _ _ _ _ _ => false end.

(** [operator!=]: on a node, the raw cursors differ and (the rest is the
    base or the rests differ); on the base, [false]. *)
Fixpoint iter_neq (x y : Iterator) : bool :=
  match x, y with
  | IterNode i _ _ rx _, IterNode j _ _ ry _ =>
      negb (Nat.eqb i j) && (is_base_iter rx || iter_neq rx ry)
  | _, _ => false
  end.

Definition iter_eq (x y : Iterator) : bool := negb (iter_neq x y).

(** [operator++]: the do-while loop around [do_increment]; one unit of
    fuel per turn of the loop. *)
Fixpoint operator_incr (fuel : nat) (p : MixedProductor) (it : Iterator)
  : option (MixedProductor * Iterator) :=
  match fuel with
  | O => None
  | S k =>
      let '(p1, it1, fake) := do_increment p it in
      if all_sizes_discovered p1 it1
         && (global_counter it1 =? read_total p1)
      then Some (p1, end_ p1)
      else if fake then operator_incr k p1 it1 else Some (p1, it1)
  end.

(** [operator*]: the tuple of the elements under the raw cursors, outer to
    inner; [None] when a raw cursor is not on an element. *)
Fixpoint deref (p : MixedProductor) (it : Iterator) : option (list A) :=
  match p, it with
  | ProdNode c _ _ r, IterNode i _ _ rit _ =>
      match nth_error c i, deref r rit with
      | Some x, Some t => Some (x :: t)
      | _, _ => None
      end
  | _, _ => Some []
  end.

(** The raw cursor positions of a composite cursor, outer to inner. *)
Fixpoint cursors (it : Iterator) : list nat :=
  match it with
  | IterBase _ => []
  | IterNode i _ _ rit _ => i :: cursors rit
  end.

(** A traversal, as the range constructor of a vector or a range-for
    performs it: [for (; it != end; ++it) emit(it)].  The result is the
    list of the cursors the body of the loop saw, with the generator at
    the end.  The fuel bounds the turns of this loop and is handed to each
    [operator++]. *)
Fixpoint traverse (fuel : nat) (p : MixedProductor) (it : Iterator)
  : option (list Iterator * MixedProductor) :=
  match fuel with
  | O => None
  | S k =>
      if iter_neq it (end_ p) then
        match operator_incr fuel p it with
        | Some (p', it') =>
            match traverse k p' it' with
            | Some (l, q) => Some (it :: l, q)
            | None => None
            end
        | None => None
        end
      else Some ([], p)
  end.

(** [mixed_product(containers...)], the factory template, called with one
    or more containers: every node starts undiscovered, and [ProdBase]
    closes the chain as the innermost [rest_products].  A call without
    argument does not reach this template: it resolves to the overload
    that returns an array holding one empty tuple. *)
Fixpoint mixed_product (cs : list (list A)) : MixedProductor :=
  match cs with
  | [] => ProdBase 0
  | c :: rest => ProdNode c 0 0 (mixed_product rest)
  end.

(** The tuples a traversal from [begin()] emits. *)
Definition emitted (fuel : nat) (cs : list (list A))
  : option (list (option (list A))) :=
  let p := mixed_product cs in
  match traverse fuel p (begin p) with
  | Some (l, _) => Some (map (deref p) l)
  | None => None
  end.

End MixedProduct.

Arguments ProdBase {A}.
Arguments ProdNode {A}.
Arguments total_fakesize {A}.
Arguments read_total {A}.
Arguments write_total {A}.
Arguments set_size {A}.
Arguments owner_size {A}.
Arguments owner_fakesize {A}.
Arguments owner_rest {A}.
Arguments with_rest {A}.
Arguments do_increment {A}.
Arguments all_sizes_discovered {A}.
Arguments begin {A}.
Arguments end_ {A}.
Arguments operator_incr {A}.
Arguments deref {A}.
Arguments traverse {A}.
Arguments mixed_product {A}.
Arguments emitted {A}.

(** * Properties *)

(** ** Machine integers *)

Lemma modulus_pos : 0 < modulus.
Proof. reflexivity. Qed.

Lemma wrap_lt (x : N) : wrap x < modulus.
Proof. apply N.mod_lt. discriminate. Qed.

Lemma wrap_small (x : N) : x < modulus -> wrap x = x.
Proof. apply N.mod_small. Qed.

(** ** The Euclidean algorithm *)

Lemma gcd_loop_enough (fuel : nat) :
  forall a b, (N.to_nat b < fuel)%nat -> gcd_loop fuel a b = Some (N.gcd a b).
Proof.
  induction fuel as [|k IH]; intros a b Hb; [lia|].
  cbn [gcd_loop]. destruct (N.eqb_spec b 0) as [->|Hnz].
  - now rewrite N.gcd_0_r.
  - rewrite IH.
    + now rewrite N.gcd_comm, N.Lcm0.gcd_mod, N.gcd_comm.
    + pose proof (N.mod_lt a b Hnz). lia.
Qed.

Lemma gcd_spec (a b : N) : gcd a b = N.gcd a b.
Proof. unfold gcd. rewrite gcd_loop_enough by lia. reflexivity. Qed.

Lemma gcd_zero_r (a : N) : gcd a 0 = a.
Proof. rewrite gcd_spec. apply N.gcd_0_r. Qed.

Lemma gcd_unfold (a b : N) :
  gcd a b = if b =? 0 then a else gcd b (a mod b).
Proof.
  destruct (N.eqb_spec b 0) as [->|Hnz]; [apply gcd_zero_r|].
  rewrite !gcd_spec.
  now rewrite (N.gcd_comm b), N.Lcm0.gcd_mod, N.gcd_comm.
Qed.

Lemma Ngcd_1_r (t : N) : N.gcd t 1 = 1.
Proof.
  pose proof (N.gcd_divide_r t 1) as H.
  now apply N.divide_1_r in H.
Qed.

Lemma Ngcd_1_l (t : N) : N.gcd 1 t = 1.
Proof. rewrite N.gcd_comm. apply Ngcd_1_r. Qed.

Lemma Ngcd_factor (g a b : N) : N.gcd g (a * b) = 1 -> N.gcd g a = 1.
Proof.
  intros H. apply N.divide_1_r. rewrite <- H. apply N.gcd_greatest.
  - apply N.gcd_divide_l.
  - apply N.divide_mul_l, N.gcd_divide_r.
Qed.

Lemma Ngcd_mul (g a b : N) :
  N.gcd g a = 1 -> N.gcd g b = 1 -> N.gcd g (a * b) = 1.
Proof.
  intros Ha Hb. apply N.divide_1_r. rewrite <- Hb.
  set (d := N.gcd g (a * b)).
  assert (Hdg : (d | g)) by apply N.gcd_divide_l.
  assert (Hdab : (d | a * b)) by apply N.gcd_divide_r.
  apply N.gcd_greatest; [assumption|].
  apply (N.gauss d a b Hdab).
  apply N.divide_1_r. rewrite <- Ha. apply N.gcd_greatest.
  - apply N.divide_trans with d; [apply N.gcd_divide_l|assumption].
  - apply N.gcd_divide_r.
Qed.

Lemma gcd_one_mod (x t : N) : t <> 0 -> x mod t = 1 mod t -> gcd x t = 1.
Proof.
  intros Ht Hx. rewrite gcd_spec.
  rewrite N.gcd_comm, <- N.Lcm0.gcd_mod, Hx, N.Lcm0.gcd_mod.
  apply Ngcd_1_r.
Qed.

(** ** The coprime search *)

Lemma wrap_add_succ (f : N) (i : nat) :
  wrap (wrap (f + 1) + N.of_nat i) = wrap (f + N.of_nat (S i)).
Proof.
  unfold wrap. rewrite N.Div0.add_mod_idemp_l. f_equal. lia.
Qed.

Lemma search_loop_first (t : N) (j : nat) :
  forall (fuel : nat) (f : N),
    (j < fuel)%nat -> f < modulus ->
    (forall i, (i < j)%nat -> gcd (wrap (f + N.of_nat i)) t <> 1) ->
    gcd (wrap (f + N.of_nat j)) t = 1 ->
    search_loop fuel f t = Some (wrap (f + N.of_nat j)).
Proof.
  induction j as [|j IH]; intros fuel f Hfuel Hf Hbefore Hhit;
    (destruct fuel as [|k]; [lia|]); cbn [search_loop].
  - assert (E : wrap (f + N.of_nat 0) = f)
      by (cbn [N.of_nat]; rewrite N.add_0_r; now apply wrap_small).
    rewrite E in *. rewrite Hhit. reflexivity.
  - specialize (Hbefore 0%nat ltac:(lia)) as H0.
    cbn [N.of_nat] in H0. rewrite N.add_0_r, wrap_small in H0 by assumption.
    apply N.eqb_neq in H0. rewrite H0. cbn [negb].
    rewrite <- wrap_add_succ. apply IH.
    + lia.
    + apply wrap_lt.
    + intros i Hi. rewrite wrap_add_succ. apply Hbefore. lia.
    + rewrite wrap_add_succ. exact Hhit.
Qed.

(** A value congruent to 1 modulo [t] lies among [t] consecutive
    integers; if the increments pass [modulus] first, they reach 1. *)
Lemma search_hit_exists (f t : N) :
  t <> 0 -> f < modulus ->
  exists j : nat, (j <= S (N.to_nat t))%nat /\ gcd (wrap (f + N.of_nat j)) t = 1.
Proof.
  intros Ht Hf.
  set (j0 := (t - (f + (t - 1)) mod t)).
  assert (Hr : (f + (t - 1)) mod t < t) by (apply N.mod_lt; assumption).
  assert (Hj0 : j0 <= t) by apply N.le_sub_l.
  assert (Hcong : (f + j0) mod t = 1 mod t).
  { pose proof (N.Div0.div_mod (f + (t - 1)) t) as E.
    replace (f + j0) with (1 + (f + (t - 1)) / t * t).
    - apply N.Div0.mod_add.
    - unfold j0. rewrite (N.mul_comm _ t). clear Hj0. clear j0. revert E Hr.
      generalize ((f + (t - 1)) / t) ((f + (t - 1)) mod t).
      intros q r E Hr. lia. }
  destruct (N.ltb_spec (f + j0) modulus) as [Hlt|Hge].
  - exists (N.to_nat j0). split; [lia|].
    rewrite N2Nat.id, wrap_small by assumption.
    now apply gcd_one_mod.
  - exists (N.to_nat (modulus + 1 - f)). split; [lia|].
    rewrite N2Nat.id.
    replace (f + (modulus + 1 - f)) with (1 + 1 * modulus) by lia.
    unfold wrap. rewrite N.Div0.mod_add.
    replace (1 mod modulus) with 1 by reflexivity.
    now apply gcd_one_mod.
Qed.

Lemma least_below (P : nat -> Prop) (dec : forall i, {P i} + {~ P i}) :
  forall n, P n -> exists j, (j <= n)%nat /\ P j /\ forall i, (i < j)%nat -> ~ P i.
Proof.
  induction n as [n IH] using lt_wf_ind. intros Hn.
  destruct (Exists_dec P (seq 0 n) dec) as [Hex|Hno].
  - apply Exists_exists in Hex. destruct Hex as (m & Hin & Hm).
    apply in_seq in Hin.
    destruct (IH m ltac:(lia) Hm) as (j & Hj & Pj & Hleast).
    exists j. repeat split; [lia|assumption|assumption].
  - exists n. repeat split; [lia|assumption|].
    intros i Hi Pi. apply Hno. apply Exists_exists.
    exists i. split; [apply in_seq; lia|assumption].
Qed.

Lemma coprime_search_spec (f t : N) :
  t <> 0 -> f < modulus ->
  exists j : nat,
    (j <= S (N.to_nat t))%nat /\
    coprime_search f t = wrap (f + N.of_nat j) /\
    gcd (wrap (f + N.of_nat j)) t = 1 /\
    (forall i, (i < j)%nat -> gcd (wrap (f + N.of_nat i)) t <> 1).
Proof.
  intros Ht Hf.
  destruct (search_hit_exists f t Ht Hf) as (j0 & Hj0 & Hhit0).
  destruct (least_below (fun i => gcd (wrap (f + N.of_nat i)) t = 1)
              (fun i => N.eq_dec _ _) j0 Hhit0) as (j & Hj & Hhit & Hleast).
  exists j. repeat split; try assumption; [lia|].
  unfold coprime_search.
  rewrite (search_loop_first t j) by (assumption || lia). reflexivity.
Qed.

Lemma coprime_search_coprime (f t : N) :
  t <> 0 -> f < modulus -> gcd (coprime_search f t) t = 1.
Proof.
  intros Ht Hf. destruct (coprime_search_spec f t Ht Hf) as (j & _ & -> & H & _).
  exact H.
Qed.

Lemma coprime_search_lt (f t : N) :
  t <> 0 -> f < modulus -> coprime_search f t < modulus.
Proof.
  intros Ht Hf. destruct (coprime_search_spec f t Ht Hf) as (j & _ & -> & _).
  apply wrap_lt.
Qed.

(** Without a wrap the search stops on the smallest coprime value. *)
Lemma coprime_search_least (f t q : N) :
  t <> 0 -> f <= q -> q < modulus -> gcd q t = 1 ->
  (forall q', f <= q' < q -> gcd q' t <> 1) ->
  coprime_search f t = q.
Proof.
  intros Ht Hfq Hq Hhit Hleast.
  destruct (coprime_search_spec f t Ht ltac:(lia)) as (j & _ & -> & Hj & Hjl).
  destruct (lt_eq_lt_dec j (N.to_nat (q - f))) as [[Hlt|Heq]|Hgt].
  - exfalso. apply (Hleast (f + N.of_nat j)); [lia|].
    rewrite wrap_small in Hj by lia. exact Hj.
  - subst j. rewrite N2Nat.id. rewrite wrap_small by lia. lia.
  - exfalso. apply (Hjl (N.to_nat (q - f)) Hgt).
    rewrite N2Nat.id, wrap_small by lia.
    replace (f + (q - f)) with q by lia. exact Hhit.
Qed.

Lemma coprime_search_hit (f t : N) :
  t <> 0 -> f < modulus -> gcd f t = 1 -> coprime_search f t = f.
Proof.
  intros Ht Hf Hhit. apply coprime_search_least; try assumption; lia.
Qed.

Lemma coprime_search_nonzero (f t : N) :
  t <> 0 -> f <> 0 -> f < modulus -> coprime_search f t <> 0.
Proof.
  intros Ht Hf0 Hf E.
  pose proof (coprime_search_coprime f t Ht Hf) as Hc.
  rewrite E, gcd_spec, N.gcd_0_l in Hc. subst t.
  rewrite coprime_search_hit in E.
  - contradiction.
  - assumption.
  - assumption.
  - rewrite gcd_spec. apply Ngcd_1_r.
Qed.

(** When no value from [n] to [2^64 - 1] is coprime with the running
    total, the increments wrap to 0, which is not coprime with it either,
    and the search stops on 1. *)
Lemma coprime_search_wrapped (n t : N) :
  t <> 0 -> 0 < n < modulus ->
  (forall q, n <= q < modulus -> gcd q t <> 1) ->
  coprime_search n t = 1.
Proof.
  intros Ht Hn Hnone.
  destruct (coprime_search_spec n t Ht ltac:(lia)) as (j & _ & -> & Hj & Hjl).
  assert (Ht1 : t <> 1).
  { intros ->. apply (Hnone n); [lia|]. rewrite gcd_spec. apply Ngcd_1_r. }
  assert (H1 : wrap (n + N.of_nat (N.to_nat (modulus + 1 - n))) = 1).
  { rewrite N2Nat.id. replace (n + (modulus + 1 - n)) with (1 + 1 * modulus) by lia.
    unfold wrap. rewrite N.Div0.mod_add. reflexivity. }
  assert (H0 : wrap (n + N.of_nat (N.to_nat (modulus - n))) = 0).
  { rewrite N2Nat.id. replace (n + (modulus - n)) with (0 + 1 * modulus) by lia.
    unfold wrap. rewrite N.Div0.mod_add. reflexivity. }
  destruct (lt_eq_lt_dec j (N.to_nat (modulus + 1 - n))) as [[Hlt|Heq]|Hgt].
  - exfalso. destruct (Nat.eq_dec j (N.to_nat (modulus - n))) as [E|E].
    + subst j. rewrite H0, gcd_spec, N.gcd_0_l in Hj. contradiction.
    + apply (Hnone (n + N.of_nat j)); [lia|].
      rewrite wrap_small in Hj by lia. exact Hj.
  - subst j. exact H1.
  - exfalso. apply (Hjl _ Hgt). rewrite H1, gcd_spec. apply Ngcd_1_l.
Qed.

(** The search either stops on a value that is at least the length, or
    it wrapped and stopped on 1. *)
Lemma coprime_search_ge_or_one (n t : N) :
  t <> 0 -> 0 < n < modulus ->
  n <= coprime_search n t \/ coprime_search n t = 1.
Proof.
  intros Ht Hn.
  destruct (coprime_search_spec n t Ht ltac:(lia)) as (j & _ & E & Hj & Hjl).
  destruct (N.ltb_spec (n + N.of_nat j) modulus) as [Hlt|Hge].
  - left. rewrite E, wrap_small by assumption. lia.
  - right. apply coprime_search_wrapped; [assumption|assumption|].
    intros q Hq Hco. apply (Hjl (N.to_nat (q - n))); [lia|].
    rewrite N2Nat.id, wrap_small by lia.
    replace (n + (q - n)) with q by lia. exact Hco.
Qed.

(** ** Products of coprime values of [size_t] *)

Lemma Ngcd_two (q : N) : q mod 2 <> 0 -> N.gcd 2 q = 1.
Proof.
  intros Hodd.
  pose proof (N.gcd_divide_l 2 q) as H2. pose proof (N.gcd_divide_r 2 q) as Hq.
  assert (Hle : N.gcd 2 q <= 2) by (apply N.divide_pos_le; [lia|assumption]).
  assert (Hnz : N.gcd 2 q <> 0).
  { intros E. rewrite E in H2. apply N.divide_0_l in H2. discriminate. }
  destruct (N.eq_dec (N.gcd 2 q) 2) as [E|E]; [|lia].
  exfalso. apply Hodd. apply N.Lcm0.mod_divide. now rewrite <- E.
Qed.

Lemma Ngcd_pow2 (k : nat) (q : N) :
  q mod 2 <> 0 -> N.gcd q (2 ^ N.of_nat k) = 1.
Proof.
  intros Hodd. induction k as [|k IH].
  - cbn. apply Ngcd_1_r.
  - rewrite Nat2N.inj_succ, N.pow_succ_r'. apply Ngcd_mul; [|exact IH].
    rewrite N.gcd_comm. now apply Ngcd_two.
Qed.

Lemma Ngcd_modulus (q : N) : q mod 2 <> 0 -> N.gcd modulus q = 1.
Proof.
  intros Hodd. rewrite N.gcd_comm.
  change modulus with (2 ^ N.of_nat 64). now apply Ngcd_pow2.
Qed.

(** The product of two coprime nonzero values of [size_t] is not a
    multiple of [2^64]: reduced, it is not 0, and [total_fakesize] stores
    it. *)
Lemma coprime_product_wrap_nonzero (q t : N) :
  0 < q < modulus -> 0 < t < modulus -> N.gcd q t = 1 -> wrap (q * t) <> 0.
Proof.
  intros Hq Ht Hco E. unfold wrap in E. apply N.Lcm0.mod_divide in E.
  destruct (N.eq_dec (q mod 2) 0) as [Eq|Oq].
  - destruct (N.eq_dec (t mod 2) 0) as [Et|Ot].
    + apply N.Lcm0.mod_divide in Eq, Et.
      pose proof (N.gcd_greatest q t 2 Eq Et) as H. rewrite Hco in H.
      apply N.divide_1_r in H. discriminate.
    + rewrite N.mul_comm in E.
      pose proof (N.gauss modulus t q E (Ngcd_modulus t Ot)) as H.
      apply N.divide_pos_le in H; lia.
  - pose proof (N.gauss modulus q t E (Ngcd_modulus q Oq)) as H.
    apply N.divide_pos_le in H; lia.
Qed.

(** ** [is_fake] *)

Lemma is_fake_true_iff (size_ fakesize_ counter : N) :
  is_fake size_ fakesize_ counter = true <->
  fakesize_ <> 0 /\ size_ <= counter < fakesize_.
Proof.
  unfold is_fake.
  destruct (N.ltb_spec counter size_), (N.eqb_spec fakesize_ 0),
    (N.ltb_spec counter fakesize_); cbn; split;
    solve [discriminate | reflexivity | lia | intros [? ?]; lia].
Qed.

Lemma is_fake_false_iff (size_ fakesize_ counter : N) :
  is_fake size_ fakesize_ counter = false <->
  fakesize_ = 0 \/ counter < size_ \/ fakesize_ <= counter.
Proof.
  rewrite <- not_true_iff_false, is_fake_true_iff. lia.
Qed.

(** C7. [is_fake()] answers true exactly when the length of the node has
    been discovered ([fakesize_ <> 0]) and the lap counter lies in the
    padding region [[size_, fakesize_)]. *)
Theorem is_fake_iff_padding_region (size_ fakesize_ counter : N) :
  is_fake size_ fakesize_ counter = true <->
  fakesize_ <> 0 /\ size_ <= counter < fakesize_.
Proof. exact (is_fake_true_iff size_ fakesize_ counter). Qed.

(** Below [fakesize_], the region is entered as soon as the counter
    reaches [size_]. *)
Lemma is_fake_below_fakesize (size_ fakesize_ counter : N) :
  counter < fakesize_ ->
  is_fake size_ fakesize_ counter = true <-> size_ <= counter.
Proof.
  intros Hlt. rewrite is_fake_true_iff. lia.
Qed.

(** ** Comparison of composite cursors *)

Lemma cursors_nil_base (x : Iterator) :
  cursors x = [] <-> is_base_iter x = true.
Proof. destruct x; cbn; split; congruence. Qed.

(** [operator!=] holds when the chain has a node and every pair of raw
    cursors differs. *)
Lemma iter_neq_spec (x : Iterator) :
  forall y, length (cursors x) = length (cursors y) ->
    iter_neq x y = true <->
    cursors x <> [] /\ Forall2 (fun i j : nat => i <> j) (cursors x) (cursors y).
Proof.
  induction x as [c|i b e rx IH c]; intros y Hlen.
  - cbn. split; [discriminate|]. intros [H _]. congruence.
  - destruct y as [c'|j b' e' ry c']; [discriminate|].
    cbn in Hlen. injection Hlen as Hlen. cbn [iter_neq cursors].
    rewrite andb_true_iff, orb_true_iff, negb_true_iff, Nat.eqb_neq.
    rewrite (IH ry Hlen), <- cursors_nil_base.
    split.
    + intros [Hij Hrest]. split; [discriminate|]. constructor; [assumption|].
      destruct Hrest as [Hnil|[_ Hall]]; [|assumption].
      rewrite Hnil in *. destruct (cursors ry); [constructor|discriminate].
    + intros [_ Hall]. inversion Hall; subst. split; [assumption|].
      destruct (cursors rx); [now left|right]. split; [discriminate|assumption].
Qed.

Lemma Forall2_differ_not_exists (l l' : list nat) :
  length l = length l' ->
  ~ Forall2 (fun i j : nat => i <> j) l l' <->
  exists k i, nth_error l k = Some i /\ nth_error l' k = Some i.
Proof.
  revert l'. induction l as [|a l IH]; intros [|a' l'] Hlen; try discriminate.
  - split; [intros H; exfalso; apply H; constructor|].
    intros (k & i & H & _). destruct k; discriminate.
  - injection Hlen as Hlen. split.
    + intros Hn. destruct (Nat.eq_dec a a') as [->|Hne].
      * exists 0%nat, a'. now split.
      * destruct (proj1 (IH l' Hlen)) as (k & i & H1 & H2).
        { intros Hall. apply Hn. now constructor. }
        exists (S k), i. now split.
    + intros (k & i & H1 & H2) Hall. inversion Hall; subst.
      destruct k as [|k]; cbn in H1, H2; [congruence|].
      apply (proj2 (IH l' Hlen)); [|assumption]. now exists k, i.
Qed.

(** C6, as the code has it. Two composite cursors of one generator compare
    equal exactly when the chain has no node (the terminal cursor, always
    equal) or the raw cursors of at least one node are equal. *)
Theorem iter_eq_iff_some_node_equal (x y : Iterator) :
  length (cursors x) = length (cursors y) ->
  iter_eq x y = true <->
  cursors x = [] \/
  exists k i, nth_error (cursors x) k = Some i /\ nth_error (cursors y) k = Some i.
Proof.
  intros Hlen. unfold iter_eq.
  rewrite negb_true_iff, <- not_true_iff_false, (iter_neq_spec x y Hlen).
  rewrite <- (Forall2_differ_not_exists _ _ Hlen).
  split.
  - intros Hn. destruct (cursors x) eqn:E; [now left|right].
    intros Hall. apply Hn. split; [discriminate|assumption].
  - intros [Hnil|Hn] [Hne Hall]; [now apply Hne|now apply Hn].
Qed.

Lemma iter_eq_iff_some_node_equal_witness :
  iter_eq (IterNode 0 0 2 (IterNode 1 0 3 (IterBase 1) 1) 0)
          (IterNode 2 2 2 (IterNode 1 3 3 (IterBase 0) 0) 0) = true <->
  cursors (IterNode 0 0 2 (IterNode 1 0 3 (IterBase 1) 1) 0) = [] \/
  exists k i,
    nth_error (cursors (IterNode 0 0 2 (IterNode 1 0 3 (IterBase 1) 1) 0)) k
      = Some i /\
    nth_error (cursors (IterNode 2 2 2 (IterNode 1 3 3 (IterBase 0) 0) 0)) k
      = Some i.
Proof.
  apply (iter_eq_iff_some_node_equal
           (IterNode 0 0 2 (IterNode 1 0 3 (IterBase 1) 1) 0)
           (IterNode 2 2 2 (IterNode 1 3 3 (IterBase 0) 0) 0)).
  reflexivity.
Defined.

(** C6, as the specification states it, fails: over the containers
    [{0,1}] and [{10,11,12}] the cursor after two [operator++] stands on
    [(0, 2)]; it compares equal to [begin()], which stands on [(0, 0)],
    although the raw cursors of the second node differ. *)
Lemma iter_eq_not_pairwise :
  let p := mixed_product [[0; 1]; [10; 11; 12]]%nat in
  exists p1 it1 p2 it2,
    operator_incr 1 p (begin p) = Some (p1, it1) /\
    operator_incr 1 p1 it1 = Some (p2, it2) /\
    cursors (begin p) = [0; 0]%nat /\
    cursors it2 = [0; 2]%nat /\
    iter_eq (begin p) it2 = true /\
    ~ Forall2 eq (cursors (begin p)) (cursors it2).
Proof.
  cbv zeta. do 4 eexists.
  split; [vm_compute; reflexivity|].
  split; [vm_compute; reflexivity|].
  split; [reflexivity|]. split; [reflexivity|]. split; [reflexivity|].
  cbn. intros H. inversion H as [|? ? ? ? _ H']; subst.
  inversion H' as [|? ? ? ? E _]; subst. discriminate.
Qed.

(** ** An empty container *)

Lemma begin_neq_end_of_empty {A : Type} (cs : list (list A)) :
  In [] cs ->
  iter_neq (begin (mixed_product cs)) (end_ (mixed_product cs)) = false.
Proof.
  induction cs as [|c rest IH]; intros Hin; [destruct Hin|].
  cbn [mixed_product begin end_ iter_neq].
  destruct Hin as [->|Hin]; [reflexivity|].
  rewrite (IH Hin), orb_false_r.
  destruct rest; [destruct Hin|]. cbn. apply andb_false_r.
Qed.

(** C5. When at least one of the containers is empty, whatever its
    position, [begin() == end()] holds at once, and a traversal emits
    nothing. *)
Theorem begin_eq_end_of_empty {A : Type} (cs : list (list A)) :
  In [] cs ->
  iter_eq (begin (mixed_product cs)) (end_ (mixed_product cs)) = true /\
  forall fuel, emitted (S fuel) cs = Some [].
Proof.
  intros Hin. pose proof (begin_neq_end_of_empty cs Hin) as Hneq.
  split.
  - unfold iter_eq. now rewrite Hneq.
  - intros fuel. unfold emitted. cbn [traverse]. now rewrite Hneq.
Qed.

Lemma begin_eq_end_of_empty_witness :
  In [] [[0; 1]; []; [0; 1; 2]]%nat /\
  iter_eq (begin (mixed_product [[0; 1]; []; [0; 1; 2]]%nat))
          (end_ (mixed_product [[0; 1]; []; [0; 1; 2]]%nat)) = true /\
  forall fuel, emitted (S fuel) [[0; 1]; []; [0; 1; 2]]%nat = Some [].
Proof.
  assert (H : In [] [[0; 1]; []; [0; 1; 2]]%nat) by (cbn; tauto).
  split; [exact H|].
  exact (begin_eq_end_of_empty [[0; 1]; []; [0; 1; 2]]%nat H).
Defined.

(** ** The running total and [set_size] *)

Lemma read_total_base {A : Type} (t : N) : read_total (@ProdBase A t) = t.
Proof. reflexivity. Qed.

Lemma read_total_node {A : Type} (c : list A) (s f : N) (r : MixedProductor A) :
  read_total (ProdNode c s f r) = read_total r.
Proof.
  unfold read_total. cbn [total_fakesize].
  destruct (total_fakesize 0 r). reflexivity.
Qed.

Lemma write_total_node {A : Type} (v : N) (c : list A) (s f : N)
      (r : MixedProductor A) :
  write_total v (ProdNode c s f r) = ProdNode c s f (write_total v r).
Proof.
  unfold write_total. cbn [total_fakesize].
  destruct (total_fakesize v r). reflexivity.
Qed.

Lemma read_write_total {A : Type} (v : N) (p : MixedProductor A) :
  read_total (write_total v p) = if v =? 0 then read_total p else v.
Proof.
  induction p as [t|c s f r IH].
  - unfold read_total, write_total. cbn. now destruct (v =? 0).
  - now rewrite write_total_node, !read_total_node.
Qed.

Lemma write_total_zero {A : Type} (p : MixedProductor A) : write_total 0 p = p.
Proof.
  induction p as [t|c s f r IH]; [reflexivity|].
  now rewrite write_total_node, IH.
Qed.

(** C2, as the code has it.  On an observed length [n > 0] with the
    running total [t] (both values of [size_t]): if [t] is 0, [set_size]
    stores [n] as padded length and as running total.  If [t] is not 0 and
    some value from [n] to [2^64 - 1] is coprime with [t], it stores as
    padded length the smallest such [q] (the smallest [q >= n] with
    [gcd(q, t) = 1]) and as running total [q * t] reduced modulo [2^64],
    which is [q * t] itself when [q * t] is below [2^64].  If [t] is not 0
    and no value from [n] to [2^64 - 1] is coprime with [t], the increment
    wraps through 0, the padded length is 1 and the running total stays
    [t].  [gcd] is the Euclidean algorithm, with [gcd(x, 0) = x]. *)
Theorem set_size_discovery {A : Type} (c : list A) (s0 f0 : N)
        (r : MixedProductor A) (n : N) :
  0 < n < modulus ->
  read_total r < modulus ->
  let t := read_total r in
  let p' := set_size n (ProdNode c s0 f0 r) in
  ((forall x, gcd x 0 = x) /\
   (forall a b, b <> 0 -> gcd a b = gcd b (a mod b))) /\
  owner_size p' = n /\
  (t = 0 -> owner_fakesize p' = n /\ read_total p' = n) /\
  (t <> 0 ->
   (forall q, n <= q < modulus -> gcd q t = 1 ->
              (forall q', n <= q' < q -> gcd q' t <> 1) ->
              owner_fakesize p' = q /\
              read_total p' = (q * t) mod modulus /\
              (q * t < modulus -> read_total p' = q * t)) /\
   ((forall q, n <= q < modulus -> gcd q t <> 1) ->
    owner_fakesize p' = 1 /\ read_total p' = t)).
Proof.
  intros Hn HT t p'. split; [split|].
  - apply gcd_zero_r.
  - intros a b Hb. rewrite (gcd_unfold a b).
    apply N.eqb_neq in Hb. now rewrite Hb.
  - subst p'. unfold set_size. fold t.
    destruct (N.eqb_spec n 0) as [E|_]; [lia|].
    destruct (N.eqb_spec t 0) as [Et|Et]; cbn [negb].
    + split; [reflexivity|]. split; [|congruence].
      intros _. split; [reflexivity|].
      rewrite read_total_node, read_write_total.
      destruct (N.eqb_spec n 0); [lia|reflexivity].
    + split; [reflexivity|]. split; [congruence|].
      intros _. split.
      * intros q Hq Hco Hleast.
        rewrite (coprime_search_least n t q) by (assumption || lia).
        cbn [owner_fakesize].
        rewrite read_total_node, read_write_total. fold t.
        assert (Hnz : wrap (q * t) <> 0).
        { apply coprime_product_wrap_nonzero; [lia|fold t in HT; lia|].
          now rewrite <- gcd_spec. }
        apply N.eqb_neq in Hnz. rewrite Hnz.
        split; [reflexivity|]. split; [reflexivity|].
        intros Hsmall. now apply wrap_small.
      * intros Hnone.
        rewrite (coprime_search_wrapped n t) by assumption.
        cbn [owner_fakesize].
        rewrite read_total_node, read_write_total. fold t.
        rewrite N.mul_1_l, wrap_small by exact HT.
        apply N.eqb_neq in Et. rewrite Et. split; reflexivity.
Qed.

Lemma set_size_discovery_witness :
  0 < 4 < modulus /\ read_total (@ProdBase nat 2) < modulus /\
  owner_size (set_size 4 (ProdNode [0; 1; 2; 3]%nat 0 0 (ProdBase 2))) = 4 /\
  owner_fakesize (set_size 4 (ProdNode [0; 1; 2; 3]%nat 0 0 (ProdBase 2))) = 5 /\
  read_total (set_size 4 (ProdNode [0; 1; 2; 3]%nat 0 0 (ProdBase 2))) = 10.
Proof.
  assert (Hn : 0 < 4 < modulus) by (split; reflexivity).
  assert (HT : read_total (@ProdBase nat 2) < modulus) by reflexivity.
  split; [exact Hn|]. split; [exact HT|].
  destruct (set_size_discovery [0; 1; 2; 3]%nat 0 0 (ProdBase 2) 4 Hn HT)
    as (_ & Hsize & _ & Hpad).
  split; [exact Hsize|].
  destruct (Hpad ltac:(discriminate)) as [Hleast _].
  destruct (Hleast 5) as (Hf & _ & Ht).
  - split; [discriminate|reflexivity].
  - reflexivity.
  - intros q' [Hlo Hhi]. assert (E : q' = 4) by lia. subst q'. discriminate.
  - split; [exact Hf|]. apply Ht. reflexivity.
Defined.

(** C2, as the specification states it, fails when the product leaves
    [size_t]: on the observed length [2^32 + 1] with the running total
    [2^32], the padded length is [2^32 + 1] (already coprime), and the
    stored running total is [2^32], not the product [2^64 + 2^32]. *)
Lemma set_size_product_wraps :
  let p' := set_size 4294967297 (ProdNode (@nil nat) 0 0 (ProdBase 4294967296)) in
  gcd 4294967297 4294967296 = 1 /\
  owner_fakesize p' = 4294967297 /\
  read_total p' = 4294967296 /\
  read_total p' <> owner_fakesize p' * 4294967296.
Proof.
  assert (Hg : gcd 4294967297 4294967296 = 1) by (rewrite gcd_spec; reflexivity).
  cbv zeta. unfold set_size. rewrite read_total_base.
  change (4294967297 =? 0) with false. change (4294967296 =? 0) with false.
  cbn [negb]. rewrite coprime_search_hit; [|discriminate|reflexivity|exact Hg].
  split; [exact Hg|]. split; [reflexivity|].
  rewrite read_total_node, read_write_total.
  split; [reflexivity|]. cbn [owner_fakesize]. discriminate.
Qed.

(** ** Fuel *)

Lemma operator_incr_fuel_mono {A : Type} (fuel : nat) :
  forall (p : MixedProductor A) it r fuel',
    operator_incr fuel p it = Some r -> (fuel <= fuel')%nat ->
    operator_incr fuel' p it = Some r.
Proof.
  induction fuel as [|k IH]; intros p it r fuel' Hrun Hle; [discriminate|].
  destruct fuel' as [|k']; [lia|].
  cbn [operator_incr] in *.
  destruct (do_increment p it) as [[p1 it1] fake].
  destruct (all_sizes_discovered p1 it1 && (global_counter it1 =? read_total p1));
    [assumption|].
  destruct fake; [|assumption].
  apply (IH _ _ _ k' Hrun). lia.
Qed.

Lemma traverse_fuel_mono {A : Type} (fuel : nat) :
  forall (p : MixedProductor A) it r fuel',
    traverse fuel p it = Some r -> (fuel <= fuel')%nat ->
    traverse fuel' p it = Some r.
Proof.
  induction fuel as [|k IH]; intros p it r fuel' Hrun Hle; [discriminate|].
  destruct fuel' as [|k']; [lia|].
  cbn [traverse] in *.
  destruct (iter_neq it (end_ p)); [|assumption].
  destruct (operator_incr (S k) p it) as [[p1 it1]|] eqn:Hincr; [|discriminate].
  rewrite (operator_incr_fuel_mono _ _ _ _ (S k') Hincr) by lia.
  destruct (traverse k p1 it1) as [[l q]|] eqn:Hrest; [|discriminate].
  rewrite (IH _ _ _ k' Hrest) by lia. assumption.
Qed.

Lemma emitted_fuel_mono {A : Type} (fuel fuel' : nat) (cs : list (list A)) r :
  emitted fuel cs = Some r -> (fuel <= fuel')%nat -> emitted fuel' cs = Some r.
Proof.
  unfold emitted. intros Hrun Hle.
  destruct (traverse fuel _ _) as [[l q]|] eqn:Ht; [|discriminate].
  now rewrite (traverse_fuel_mono _ _ _ _ fuel' Ht Hle).
Qed.

(** ** The worked example: lengths 2 and 4 *)

(** C4. Over [{0,1}] and [{0,1,2,3}] a traversal emits exactly the 8
    tuples [(0,0),(1,1),(0,2),(1,3),(1,0),(0,1),(1,2),(0,3)], in this
    order, 8 being the product of the lengths 2 and 4.  The raw cursors of
    every emitted combination stand on elements; the two padding
    combinations, reached after 4 and after 9 raw steps, are passed over. *)
Theorem emitted_two_four (k : nat) :
  let p := mixed_product [[0; 1]; [0; 1; 2; 3]]%nat in
  let expected := [[0; 0]; [1; 1]; [0; 2]; [1; 3];
                   [1; 0]; [0; 1]; [1; 2]; [0; 3]]%nat in
  exists l q,
    traverse (9 + k) p (begin p) = Some (l, q) /\
    map (deref p) l = map Some expected /\
    map cursors l = expected /\
    map global_counter l = [0; 1; 2; 3; 5; 6; 7; 8] /\
    length l = (length [0; 1] * length [0; 1; 2; 3])%nat.
Proof.
  cbv zeta.
  destruct (traverse 9 (mixed_product [[0; 1]; [0; 1; 2; 3]]%nat)
              (begin (mixed_product [[0; 1]; [0; 1; 2; 3]]%nat)))
    as [[l q]|] eqn:Hrun; [|vm_compute in Hrun; discriminate].
  exists l, q. split.
  - apply (traverse_fuel_mono 9); [exact Hrun|lia].
  - vm_compute in Hrun. injection Hrun as <- _.
    repeat split; reflexivity.
Qed.

(** ** Raw steps *)

(** [n] successive calls of [do_increment]. *)
Fixpoint run {A : Type} (n : nat) (p : MixedProductor A) (it : Iterator)
  : MixedProductor A * Iterator :=
  match n with
  | O => (p, it)
  | S k => let '(p1, it1, _) := do_increment p it in run k p1 it1
  end.

Lemma global_counter_do_increment {A : Type} (it : Iterator) :
  forall p : MixedProductor A,
    global_counter (snd (fst (do_increment p it))) = wrap (global_counter it + 1).
Proof.
  induction it as [c|i b e rit IH c]; intros p; [reflexivity|].
  cbn [do_increment global_counter].
  repeat match goal with
         | |- context [if ?b then _ else _] => destruct b
         | |- context [do_increment ?q rit] =>
             specialize (IH q); destruct (do_increment q rit) as [[? ?] ?]
         end; cbn in *; assumption.
Qed.

Lemma global_counter_run {A : Type} (n : nat) :
  forall (p : MixedProductor A) it,
    global_counter (snd (run n p it)) = wrap (global_counter it + N.of_nat n) \/
    (n = 0%nat).
Proof.
  induction n as [|k IH]; intros p it; [now right|left].
  cbn [run]. pose proof (global_counter_do_increment it p) as Hstep.
  destruct (do_increment p it) as [[p1 it1] fake]. cbn in Hstep.
  destruct (IH p1 it1) as [E | ->].
  - rewrite E, Hstep. unfold wrap. rewrite N.Div0.add_mod_idemp_l. f_equal. lia.
  - cbn [run snd]. rewrite Hstep. f_equal.
Qed.

Lemma global_counter_begin {A : Type} (p : MixedProductor A) :
  global_counter (begin p) = 0.
Proof. induction p; cbn; auto. Qed.

(** C10, as the code has it. Each call of [do_increment] on a composite
    cursor adds one to the counter of the terminal iterator, in [size_t]
    arithmetic, on the carry path and on the other paths alike; after [n]
    calls from [begin()], [global_counter()] is [n] modulo [2^64], hence
    [n] itself as long as [n < 2^64]. *)
Theorem global_counter_counts_steps {A : Type} (p : MixedProductor A) :
  (forall (q : MixedProductor A) it,
      global_counter (snd (fst (do_increment q it)))
      = wrap (global_counter it + 1)) /\
  (forall n, global_counter (snd (run n p (begin p))) = wrap (N.of_nat n)) /\
  (forall n, N.of_nat n < modulus ->
             global_counter (snd (run n p (begin p))) = N.of_nat n).
Proof.
  assert (Hrun : forall n,
             global_counter (snd (run n p (begin p))) = wrap (N.of_nat n)).
  { intros n. destruct (global_counter_run n p (begin p)) as [E| ->].
    - now rewrite E, global_counter_begin.
    - cbn. apply global_counter_begin. }
  split; [intros q it; apply global_counter_do_increment|].
  split; [exact Hrun|].
  intros n Hn. rewrite Hrun. now apply wrap_small.
Qed.

(** C10, as the specification states it, fails once the counter wraps:
    after [2^64] calls of [do_increment] from [begin()], [global_counter()]
    is 0. *)
Lemma global_counter_wraps :
  let p := mixed_product [[tt]] in
  N.of_nat (N.to_nat modulus) = modulus /\
  global_counter (snd (run (N.to_nat modulus) p (begin p))) = 0 /\
  global_counter (snd (run (N.to_nat modulus) p (begin p)))
  <> N.of_nat (N.to_nat modulus).
Proof.
  cbv zeta.
  assert (E : global_counter
                (snd (run (N.to_nat modulus) (mixed_product [[tt]])
                          (begin (mixed_product [[tt]])))) = 0).
  { destruct (global_counter_run (N.to_nat modulus) (mixed_product [[tt]])
                (begin (mixed_product [[tt]]))) as [E|E].
    - rewrite E, N2Nat.id. reflexivity.
    - exfalso. apply (f_equal N.of_nat) in E. rewrite N2Nat.id in E.
      discriminate. }
  rewrite E, N2Nat.id. repeat split. discriminate.
Qed.

(** ** The state after [n] raw steps *)

(** The owner side of one raw step, written without the cursor: at step
    [t] every node whose length is still unknown and whose container has
    [t] elements runs [set_size(t)], outer nodes first.  [node_discover]
    gives the new [size_], the new [fakesize_] and the value handed to
    [total_fakesize] (0 when nothing is stored); in [discover], [T] is the
    running total handed from node to node, stored in the base at the
    end. *)
Definition node_discover (t s sz fsz T : N) : N * N * N :=
  if (fsz =? 0) && (s =? t) then
    if negb (T =? 0)
    then (t, coprime_search t T, wrap (coprime_search t T * T))
    else (t, t, t)
  else (sz, fsz, 0).

Fixpoint discover {A : Type} (t T : N) (p : MixedProductor A)
  : MixedProductor A * N :=
  match p with
  | ProdBase _ => (ProdBase T, T)
  | ProdNode c sz fsz r =>
      let '(sz', fsz', v) := node_discover t (N.of_nat (length c)) sz fsz T in
      let '(r', Tf) := discover t (if v =? 0 then T else v) r in
      (ProdNode c sz' fsz' r', Tf)
  end.

(** The part of [do_increment] that concerns one node: new [size_],
    [fakesize_], value handed to [total_fakesize], raw cursor, counter, and
    whether this node makes the call answer [true]. *)
Definition node_incr (sz fsz T : N) (i b e : nat) (cnt : N)
  : N * N * N * nat * N * bool :=
  let i1 := if negb (is_fake sz fsz cnt) then S i else i in
  let c1 := wrap (cnt + 1) in
  if Nat.eqb i1 e then
    let '(sz1, fsz1, v) :=
      if (0 <? c1) && (fsz =? 0) then
        if c1 =? 0 then (sz, fsz, 0)
        else if negb (T =? 0)
             then (c1, coprime_search c1 T, wrap (coprime_search c1 T * T))
             else (c1, c1, c1)
      else (sz, fsz, 0) in
    if negb (is_fake sz1 fsz1 c1)
    then (sz1, fsz1, v, b, 0, false)
    else (sz1, fsz1, v, i1, c1, true)
  else (sz, fsz, 0, i1, c1, false).

(** A node after [n] raw steps: before its length [s] is known, cursor and
    counter are [n]; afterwards the counter is [n] modulo the period
    [max s fsz] and the cursor stays on [end] while the counter is at
    least [s]. *)
Definition node_at (n s sz fsz : N) (i : nat) (cnt : N) : Prop :=
  (fsz = 0 /\ sz = 0 /\ n < s /\ cnt = n /\ i = N.to_nat n) \/
  (fsz <> 0 /\ fsz < modulus /\ sz = s /\ s <= n /\
   cnt = n mod (N.max s fsz) /\ i = N.to_nat (N.min cnt s)).

Fixpoint At {A : Type} (n : N) (p : MixedProductor A) (it : Iterator) : Prop :=
  match p, it with
  | ProdBase T, IterBase g => g = wrap n /\ T < modulus
  | ProdNode c sz fsz r, IterNode i b e rit cnt =>
      b = 0%nat /\ e = length c /\
      0 < N.of_nat (length c) < modulus /\
      node_at n (N.of_nat (length c)) sz fsz i cnt /\
      At n r rit
  | _, _ => False
  end.

(** Some raw cursor stands on its [end]. *)
Fixpoint at_end (it : Iterator) : bool :=
  match it with
  | IterBase _ => false
  | IterNode i _ e rit _ => Nat.eqb i e || at_end rit
  end.

Lemma At_write_total {A : Type} (n v : N) (it : Iterator) :
  v < modulus ->
  forall p : MixedProductor A, At n p it -> At n (write_total v p) it.
Proof.
  intros Hv.
  induction it as [g|i b e rit IH cnt]; intros [T|c sz fsz r] H;
    try (cbn in H; contradiction).
  - cbn in *. destruct (v =? 0); cbn; tauto.
  - rewrite write_total_node. cbn [At] in *.
    destruct H as (Hb & He & Hs & Hnode & Hrest). auto 6.
Qed.

Lemma discover_write_total {A : Type} (t v : N) (p : MixedProductor A) :
  forall T, discover t T (write_total v p) = discover t T p.
Proof.
  induction p as [T0|c sz fsz r IH]; intros T; [reflexivity|].
  rewrite write_total_node. cbn [discover].
  destruct (node_discover t (N.of_nat (length c)) sz fsz T) as [[sz' fsz'] w].
  now rewrite IH.
Qed.

Lemma node_step_undiscovered (n s : N) :
  0 < s < modulus -> n < s ->
  is_fake 0 0 n = false /\ wrap (n + 1) = n + 1 /\
  (0 <? n + 1) = true /\
  (Nat.eqb (S (N.to_nat n)) (N.to_nat s) = (n + 1 =? s)).
Proof.
  intros Hs Hn. repeat split.
  - unfold is_fake. now rewrite orb_true_r.
  - apply wrap_small. lia.
  - apply N.ltb_lt. lia.
  - destruct (N.eqb_spec (n + 1) s), (Nat.eqb_spec (S (N.to_nat n)) (N.to_nat s));
      try reflexivity; lia.
Qed.

Lemma do_increment_node {A : Type} (c : list A) (sz fsz : N)
      (r : MixedProductor A) (i b e : nat) (rit : Iterator) (cnt : N) :
  do_increment (ProdNode c sz fsz r) (IterNode i b e rit cnt) =
  let '(sz', fsz', v, i', cnt', fl) := node_incr sz fsz (read_total r) i b e cnt in
  let '(r2, rit2, flag) := do_increment (write_total v r) rit in
  (ProdNode c sz' fsz' r2, IterNode i' b e rit2 cnt', fl || flag).
Proof.
  cbn [do_increment owner_size owner_fakesize owner_rest]. unfold node_incr.
  destruct (Nat.eqb _ e);
    [destruct ((0 <? wrap (cnt + 1)) && (fsz =? 0));
     [unfold set_size; destruct (wrap (cnt + 1) =? 0);
      [|destruct (negb (read_total r =? 0))]|]|];
    cbn [owner_size owner_fakesize owner_rest with_rest];
    try match goal with
      | |- context [negb (is_fake ?a ?b ?c)] => destruct (negb (is_fake a b c))
      end;
    cbv beta iota; rewrite ?write_total_zero;
    match goal with
    | |- context [do_increment ?q rit] =>
        destruct (do_increment q rit) as [[? ?] ?]
    end; reflexivity.
Qed.

Lemma mod_succ_lt (n q : N) : n mod q + 1 < q -> (n + 1) mod q = n mod q + 1.
Proof.
  intros H. rewrite <- N.Div0.add_mod_idemp_l. now apply N.mod_small.
Qed.

Lemma mod_succ_eq (n q : N) : n mod q + 1 = q -> (n + 1) mod q = 0.
Proof.
  intros H. rewrite <- N.Div0.add_mod_idemp_l, H. apply N.Div0.mod_same.
Qed.

Ltac fake_cases :=
  repeat match goal with
    | |- context [is_fake ?a ?b ?c] =>
        let E := fresh "Ef" in
        destruct (is_fake a b c) eqn:E;
        [apply is_fake_true_iff in E | apply is_fake_false_iff in E]
    end.

Ltac node_done :=
  do 6 eexists; split; [reflexivity|]; split; [reflexivity|];
  split; [first [apply wrap_lt | lia | reflexivity]|]; split;
  [|symmetry; first [apply Nat.eqb_eq; lia | apply Nat.eqb_neq; lia]].

Lemma node_incr_at (n s sz fsz T : N) (i : nat) (cnt : N) :
  0 < s < modulus -> node_at n s sz fsz i cnt ->
  exists sz' fsz' v i' cnt' fl,
    node_incr sz fsz T i 0 (N.to_nat s) cnt = (sz', fsz', v, i', cnt', fl) /\
    node_discover (n + 1) s sz fsz T = (sz', fsz', v) /\
    v < modulus /\
    node_at (n + 1) s sz' fsz' i' cnt' /\
    fl = Nat.eqb i' (N.to_nat s).
Proof.
  intros Hs [(Hf & Hz & Hn & Hc & Hi) | (Hf & Hfm & Hz & Hn & Hc & Hi)].
  - subst fsz sz cnt i. unfold node_incr, node_discover.
    destruct (node_step_undiscovered n s Hs Hn) as (E1 & E2 & E3 & E4).
    rewrite E1. cbn [negb]. cbv iota. rewrite E2, E3, E4.
    rewrite N.eqb_refl, (N.eqb_sym s). cbn [andb].
    destruct (N.eqb_spec (n + 1) s) as [Es|Es].
    + rewrite Es. destruct (N.eqb_spec s 0); [lia|].
      destruct (N.eqb_spec T 0) as [ET|ET]; cbn [negb]; cbv iota beta.
      * fake_cases; cbn [negb]; cbv iota; [lia|]. node_done.
        right. rewrite N.max_id, N.Div0.mod_same. repeat split; lia.
      * pose proof (coprime_search_nonzero s T ET ltac:(lia) ltac:(lia)).
        pose proof (coprime_search_lt s T ET ltac:(lia)).
        fake_cases; cbn [negb]; cbv iota; node_done; right.
        -- rewrite N.max_r, N.mod_small by lia. repeat split; lia.
        -- rewrite N.max_l, N.Div0.mod_same by lia. repeat split; lia.
    + node_done. left. repeat split; lia.
  - subst sz. unfold node_incr, node_discover.
    apply N.eqb_neq in Hf as Hf'. rewrite Hf', andb_false_r. cbn [andb].
    assert (Hq : N.max s fsz <> 0) by lia.
    assert (Hqm : N.max s fsz < modulus) by lia.
    pose proof (N.mod_lt n _ Hq) as Hlt. rewrite <- Hc in Hlt.
    assert (Hw : wrap (cnt + 1) = cnt + 1) by (apply wrap_small; lia).
    rewrite Hw.
    destruct (is_fake s fsz cnt) eqn:Ef;
      [apply is_fake_true_iff in Ef | apply is_fake_false_iff in Ef];
      cbn [negb]; cbv iota.
    + assert (Ei : Nat.eqb i (N.to_nat s) = true) by (apply Nat.eqb_eq; lia).
      rewrite Ei.
      fake_cases; cbn [negb]; cbv iota; node_done; right.
      * rewrite N.max_r in * by lia.
        rewrite mod_succ_lt by lia. repeat split; lia.
      * rewrite N.max_r in * by lia.
        rewrite mod_succ_eq by lia. repeat split; lia.
    + assert (Hcs : cnt < s) by lia.
      destruct (Nat.eqb_spec (S i) (N.to_nat s)) as [Ei|Ei].
      * fake_cases; cbn [negb]; cbv iota; node_done; right.
        -- rewrite N.max_r in * by lia.
           rewrite mod_succ_lt by lia. repeat split; lia.
        -- rewrite N.max_l in * by lia.
           rewrite mod_succ_eq by lia. repeat split; lia.
      * node_done. right. rewrite mod_succ_lt by lia. repeat split; lia.
Qed.

(** One raw step: the owner moves by [discover], the cursor stays in
    step with the clock, and the flag tells whether some raw cursor is left
    on its [end]. *)
Lemma do_increment_at {A : Type} (it : Iterator) :
  forall (p : MixedProductor A) (n : N),
    At n p it ->
    exists p' it' flag,
      do_increment p it = (p', it', flag) /\
      discover (n + 1) (read_total p) p = (p', read_total p') /\
      At (n + 1) p' it' /\
      flag = at_end it'.
Proof.
  induction it as [g|i b e rit IH cnt]; intros [T|c sz fsz r] n H;
    try (cbn in H; contradiction).
  - cbn in H. destruct H as [-> HT].
    exists (ProdBase T), (IterBase (wrap (wrap n + 1))), false.
    repeat split; [|exact HT].
    cbn. unfold wrap. now rewrite N.Div0.add_mod_idemp_l.
  - cbn [At] in H. destruct H as (-> & -> & Hs & Hnode & Hrest).
    destruct (node_incr_at n _ sz fsz (read_total r) i cnt Hs Hnode)
      as (sz' & fsz' & v & i' & cnt' & fl & Hincr & Hdisc & Hv & Hnode' & Hfl).
    rewrite Nat2N.id in Hincr, Hfl.
    destruct (IH (write_total v r) n (At_write_total n v rit Hv r Hrest))
      as (r2 & rit2 & flag & Hrec & Hdrec & Hrest' & Hflag).
    rewrite read_write_total, discover_write_total in Hdrec.
    exists (ProdNode c sz' fsz' r2), (IterNode i' 0 (length c) rit2 cnt'), (fl || flag).
    split; [|split; [|split]].
    + rewrite do_increment_node, Hincr, Hrec. reflexivity.
    + rewrite !read_total_node. cbn [discover]. rewrite Hdisc, Hdrec. reflexivity.
    + cbn [At]. auto 6.
    + cbn [at_end]. now rewrite Hfl, Hflag.
Qed.

(** Every length is known. *)
Fixpoint Known {A : Type} (p : MixedProductor A) : Prop :=
  match p with
  | ProdBase _ => True
  | ProdNode _ _ fsz r => fsz <> 0 /\ Known r
  end.

(** The largest container length. *)
Fixpoint smax {A : Type} (p : MixedProductor A) : N :=
  match p with
  | ProdBase _ => 0
  | ProdNode c _ _ r => N.max (N.of_nat (length c)) (smax r)
  end.

(** The test of [operator++] that ends a traversal. *)
Definition finished {A : Type} (p : MixedProductor A) (it : Iterator) : bool :=
  all_sizes_discovered p it && (global_counter it =? read_total p).

Lemma At_global_counter {A : Type} (n : N) (it : Iterator) :
  forall p : MixedProductor A, At n p it -> global_counter it = wrap n.
Proof.
  induction it as [g|i b e rit IH cnt]; intros [T|c sz fsz r] H;
    try (cbn in H; contradiction); cbn in *; [tauto|].
  apply (IH r). tauto.
Qed.

Lemma At_read_total {A : Type} (n : N) (it : Iterator) :
  forall p : MixedProductor A, At n p it -> read_total p < modulus.
Proof.
  induction it as [g|i b e rit IH cnt]; intros [T|c sz fsz r] H;
    try (cbn in H; contradiction).
  - cbn in *. tauto.
  - rewrite read_total_node. apply IH. cbn in H. tauto.
Qed.

Lemma At_known {A : Type} (n : N) (it : Iterator) :
  forall p : MixedProductor A, At n p it -> smax p <= n -> Known p.
Proof.
  induction it as [g|i b e rit IH cnt]; intros [T|c sz fsz r] H Hmax;
    try (cbn in H; contradiction); [exact I|].
  cbn in *. destruct H as (_ & _ & _ & Hnode & Hrest). split.
  - destruct Hnode as [(_ & _ & Hlt & _)|(Hf & _)]; [lia|assumption].
  - apply IH; [assumption|lia].
Qed.

Lemma all_sizes_discovered_known {A : Type} (n : N) (it : Iterator) :
  forall p : MixedProductor A,
    At n p it -> (all_sizes_discovered p it = true <-> Known p).
Proof.
  induction it as [g|i b e rit IH cnt]; intros [T|c sz fsz r] H;
    try (cbn in H; contradiction).
  - cbn. tauto.
  - cbn in *. rewrite andb_true_iff, negb_true_iff, N.eqb_neq.
    rewrite (IH r) by tauto. tauto.
Qed.

Lemma discover_known {A : Type} (t : N) (p : MixedProductor A) :
  Known p -> discover t (read_total p) p = (p, read_total p).
Proof.
  induction p as [T|c sz fsz r IH]; intros H; [reflexivity|].
  destruct H as [Hf Hr]. rewrite read_total_node. cbn [discover].
  unfold node_discover. apply N.eqb_neq in Hf. rewrite Hf. cbn [andb N.eqb].
  now rewrite (IH Hr).
Qed.

Lemma run_add {A : Type} (a b : nat) :
  forall (p : MixedProductor A) it,
    run (a + b) p it = run b (fst (run a p it)) (snd (run a p it)).
Proof.
  induction a as [|a IH]; intros p it; [reflexivity|].
  cbn [run Nat.add]. destruct (do_increment p it) as [[p1 it1] fl]. apply IH.
Qed.

Lemma run_at {A : Type} (k : nat) :
  forall (p : MixedProductor A) it n,
    At n p it -> At (n + N.of_nat k) (fst (run k p it)) (snd (run k p it)).
Proof.
  induction k as [|k IH]; intros p it n H.
  - cbn. now rewrite N.add_0_r.
  - cbn [run]. destruct (do_increment_at it p n H) as (p' & it' & fl & E & _ & H' & _).
    rewrite E. replace (n + N.of_nat (S k)) with (n + 1 + N.of_nat k) by lia.
    now apply IH.
Qed.

Lemma run_known {A : Type} (k : nat) :
  forall (p : MixedProductor A) it n,
    At n p it -> Known p -> fst (run k p it) = p.
Proof.
  induction k as [|k IH]; intros p it n H HK; [reflexivity|].
  cbn [run]. destruct (do_increment_at it p n H) as (p' & it' & fl & E & D & H' & _).
  rewrite E. rewrite (discover_known _ p HK) in D. injection D as <- _.
  now apply (IH p it' (n + 1)).
Qed.

Fixpoint containers {A : Type} (p : MixedProductor A) : list (list A) :=
  match p with
  | ProdBase _ => []
  | ProdNode c _ _ r => c :: containers r
  end.

Lemma smax_containers {A : Type} (p : MixedProductor A) :
  forall q, containers p = containers q -> smax p = smax q.
Proof.
  induction p as [T|c sz fsz r IH]; intros [T'|c' sz' fsz' r'] E;
    try discriminate; [reflexivity|].
  cbn in *. injection E as -> E. now rewrite (IH r' E).
Qed.

Lemma discover_containers {A : Type} (t : N) (p : MixedProductor A) :
  forall T, containers (fst (discover t T p)) = containers p.
Proof.
  induction p as [T0|c sz fsz r IH]; intros T; [reflexivity|].
  cbn [discover].
  destruct (node_discover t (N.of_nat (length c)) sz fsz T) as [[sz' fsz'] v].
  specialize (IH (if v =? 0 then T else v)).
  destruct (discover t (if v =? 0 then T else v) r). cbn in *. now rewrite IH.
Qed.

Lemma run_containers {A : Type} (k : nat) :
  forall (p : MixedProductor A) it n,
    At n p it -> containers (fst (run k p it)) = containers p.
Proof.
  induction k as [|k IH]; intros p it n H; [reflexivity|].
  cbn [run]. destruct (do_increment_at it p n H) as (p' & it' & fl & E & D & H' & _).
  rewrite E. rewrite (IH p' it' (n + 1) H').
  pose proof (discover_containers (n + 1) p (read_total p)) as Hc.
  now rewrite D in Hc.
Qed.

Lemma wrap_reach (n0 T : N) :
  T < modulus -> wrap (n0 + (T + modulus - n0 mod modulus)) = T.
Proof.
  intros HT. pose proof (N.mod_lt n0 modulus ltac:(discriminate)) as Hr.
  pose proof (N.Div0.div_mod n0 modulus) as E.
  replace (n0 + (T + modulus - n0 mod modulus))
    with (T + (n0 / modulus + 1) * modulus).
  - unfold wrap. rewrite N.Div0.mod_add. now apply N.mod_small.
  - revert E Hr. generalize (n0 / modulus) (n0 mod modulus). intros q r E Hr.
    lia.
Qed.

(** From every state the test that ends the traversal holds after some
    positive number of raw steps: once every length is known the running
    total is fixed, and the terminal counter passes through every value
    of [size_t]. *)
Lemma finished_eventually {A : Type} (p : MixedProductor A) it n :
  At n p it ->
  exists d, finished (fst (run (S d) p it)) (snd (run (S d) p it)) = true.
Proof.
  intros H.
  set (k0 := N.to_nat (smax p - n)).
  pose proof (run_at k0 p it n H) as H0.
  set (p0 := fst (run k0 p it)) in *. set (it0 := snd (run k0 p it)) in *.
  set (n0 := n + N.of_nat k0) in *.
  assert (Hsame : smax p0 = smax p)
    by (apply smax_containers, (run_containers k0 p it n H)).
  assert (HK : Known p0) by (apply (At_known n0 it0); [assumption|unfold n0, k0; lia]).
  pose proof (At_read_total _ _ _ H0) as HT.
  set (j := N.to_nat (read_total p0 + modulus - n0 mod modulus)).
  assert (Hj : (1 <= j)%nat).
  { pose proof (N.mod_lt n0 modulus ltac:(discriminate)). unfold j. lia. }
  exists (k0 + j - 1)%nat.
  replace (S (k0 + j - 1)) with (k0 + j)%nat by lia.
  rewrite run_add. fold p0 it0.
  pose proof (run_at j p0 it0 n0 H0) as Hj'.
  rewrite (run_known j p0 it0 n0 H0 HK) in *.
  unfold finished.
  rewrite (proj2 (all_sizes_discovered_known _ _ _ Hj') HK).
  rewrite (At_global_counter _ _ _ Hj'). cbn [andb]. apply N.eqb_eq.
  unfold j. rewrite N2Nat.id. now apply wrap_reach.
Qed.

(** ** [operator++] and traversals in terms of raw steps *)

Lemma run_succ {A : Type} (k : nat) (p : MixedProductor A) it :
  run (S k) p it
  = run k (fst (fst (do_increment p it))) (snd (fst (do_increment p it))).
Proof. cbn [run]. now destruct (do_increment p it) as [[p1 it1] fl]. Qed.

(** [operator++] stops on the first raw step at which the traversal is
    finished or no raw cursor is left on its [end]. *)
Lemma operator_incr_run {A : Type} (j : nat) :
  forall (p : MixedProductor A) it n fuel,
    At n p it -> (j < fuel)%nat ->
    (forall k, (1 <= k <= j)%nat ->
               finished (fst (run k p it)) (snd (run k p it)) = false /\
               at_end (snd (run k p it)) = true) ->
    let p' := fst (run (S j) p it) in
    let it' := snd (run (S j) p it) in
    (finished p' it' = true ->
     operator_incr fuel p it = Some (p', end_ p')) /\
    (finished p' it' = false -> at_end it' = false ->
     operator_incr fuel p it = Some (p', it')).
Proof.
  induction j as [|j IH]; intros p it n fuel H Hfuel Hskip;
    (destruct fuel as [|fuel]; [lia|]); cbv zeta; cbn [operator_incr];
    destruct (do_increment_at it p n H) as (p1 & it1 & fl & E & _ & H1 & Hfl).
  - cbn [run]. rewrite E. cbn [fst snd]. fold (finished p1 it1).
    split; [intros ->; reflexivity|].
    intros -> Hend. now rewrite Hfl, Hend.
  - rewrite !run_succ with (k := S j). rewrite E. cbn [fst snd].
    fold (finished p1 it1).
    destruct (Hskip 1%nat ltac:(lia)) as [Hfin Hend].
    cbn [run] in Hfin, Hend. rewrite E in Hfin, Hend. cbn [fst snd] in Hfin, Hend.
    rewrite Hfin, Hfl, Hend.
    apply (IH p1 it1 (n + 1) fuel H1); [lia|].
    intros k Hk. specialize (Hskip (S k) ltac:(lia)).
    rewrite run_succ, E in Hskip. exact Hskip.
Qed.

(** The cursors found free of [end] among the first [d] raw steps. *)
Definition visited {A : Type} (p : MixedProductor A) (it : Iterator) (d : nat)
  : list Iterator :=
  map (fun k => snd (run k p it))
      (filter (fun k => negb (at_end (snd (run k p it)))) (seq 0 d)).

Lemma visited_shift {A : Type} (p : MixedProductor A) it (j d : nat) :
  forall a,
    map (fun k => snd (run k p it))
        (filter (fun k => negb (at_end (snd (run k p it)))) (seq (j + a) d))
    = map (fun k => snd (run k (fst (run j p it)) (snd (run j p it))))
          (filter (fun k => negb (at_end (snd (run k (fst (run j p it))
                                                     (snd (run j p it))))))
                  (seq a d)).
Proof.
  induction d as [|d IH]; intros a; [reflexivity|].
  cbn [seq filter]. rewrite <- run_add.
  replace (S (j + a)) with (j + S a)%nat by lia.
  destruct (negb (at_end (snd (run (j + a) p it)))); cbn [map];
    now rewrite IH, <- ?run_add.
Qed.

Lemma visited_app {A : Type} (p : MixedProductor A) it (j d : nat) :
  visited p it (j + d)
  = visited p it j ++ visited (fst (run j p it)) (snd (run j p it)) d.
Proof.
  unfold visited. rewrite seq_app, filter_app, map_app. f_equal.
  cbn [Nat.add]. replace (seq j d) with (seq (j + 0) d) by now rewrite Nat.add_0_r.
  apply visited_shift.
Qed.

Lemma filter_none {X : Type} (f : X -> bool) (l : list X) :
  (forall x, In x l -> f x = false) -> filter f l = [].
Proof.
  induction l as [|x l IH]; intros H; [reflexivity|].
  cbn. rewrite (H x (or_introl eq_refl)). apply IH.
  intros y Hy. apply H. now right.
Qed.

Lemma visited_one {A : Type} (p : MixedProductor A) it (j : nat) :
  at_end it = false ->
  (forall k, (1 <= k <= j)%nat -> at_end (snd (run k p it)) = true) ->
  visited p it (S j) = [it].
Proof.
  intros H0 Hskip. unfold visited. cbn [seq filter run snd]. rewrite H0.
  cbn [negb map]. f_equal.
  rewrite filter_none; [reflexivity|].
  intros k Hk. apply in_seq in Hk. rewrite Hskip by lia. reflexivity.
Qed.

Lemma iter_neq_end_at {A : Type} (n : N) (it : Iterator) :
  forall p : MixedProductor A,
    At n p it ->
    iter_neq it (end_ p) = negb (is_base_iter it) && negb (at_end it).
Proof.
  induction it as [g|i b e rit IH cnt]; intros [T|c sz fsz r] H;
    try (cbn in H; contradiction); [reflexivity|].
  cbn [At] in H. destruct H as (-> & -> & _ & _ & Hrest).
  cbn [end_ iter_neq is_base_iter at_end negb andb].
  rewrite (IH r Hrest), negb_orb.
  destruct rit; cbn; [|reflexivity].
  destruct (Nat.eqb i (length c)); reflexivity.
Qed.

Lemma iter_neq_end_end {A : Type} (p : MixedProductor A) :
  iter_neq (end_ p) (end_ p) = false.
Proof. destruct p; cbn; [reflexivity|]. now rewrite Nat.eqb_refl. Qed.

Lemma do_increment_is_base {A : Type} (p : MixedProductor A) it :
  is_base_iter (snd (fst (do_increment p it))) = is_base_iter it.
Proof.
  destruct it as [g|i b e rit cnt]; [reflexivity|].
  cbn [do_increment].
  repeat match goal with
         | |- context [if ?b then _ else _] => destruct b
         | |- context [do_increment ?q rit] =>
             destruct (do_increment q rit) as [[? ?] ?]
         end; reflexivity.
Qed.

Lemma run_is_base {A : Type} (k : nat) :
  forall (p : MixedProductor A) it,
    is_base_iter (snd (run k p it)) = is_base_iter it.
Proof.
  induction k as [|k IH]; intros p it; [reflexivity|].
  rewrite run_succ, IH. apply do_increment_is_base.
Qed.

Lemma traverse_succ {A : Type} (k : nat) (p : MixedProductor A) it :
  traverse (S k) p it =
  if iter_neq it (end_ p) then
    match operator_incr (S k) p it with
    | Some (p', it') =>
        match traverse k p' it' with
        | Some (l, q) => Some (it :: l, q)
        | None => None
        end
    | None => None
    end
  else Some ([], p).
Proof. reflexivity. Qed.

(** A traversal started on a cursor free of [end] emits the cursors free
    of [end] found on the way, up to the first raw step at which
    [operator++] finds the traversal finished. *)
Lemma traverse_run {A : Type} (d : nat) :
  forall (p : MixedProductor A) it n,
    At n p it -> is_base_iter it = false -> at_end it = false ->
    (forall k, (1 <= k <= d)%nat ->
               finished (fst (run k p it)) (snd (run k p it)) = false) ->
    finished (fst (run (S d) p it)) (snd (run (S d) p it)) = true ->
    traverse (S (S d)) p it
    = Some (visited p it (S d), fst (run (S d) p it)).
Proof.
  induction d as [d IH] using lt_wf_ind. intros p it n H Hnode Hfree Hnot Hfin.
  rewrite traverse_succ, (iter_neq_end_at n it p H), Hnode, Hfree.
  cbn [negb andb].
  destruct (Exists_dec (fun k => at_end (snd (run (S k) p it)) = false) (seq 0 d)
              (fun k => bool_dec _ _)) as [Hex|Hno].
  - apply Exists_exists in Hex. destruct Hex as (m & Hm & Pm). apply in_seq in Hm.
    destruct (least_below (fun k => at_end (snd (run (S k) p it)) = false)
                (fun k => bool_dec _ _) m Pm) as (j & Hj & Pj & Hleast).
    assert (Hskip : forall k, (1 <= k <= j)%nat ->
                finished (fst (run k p it)) (snd (run k p it)) = false /\
                at_end (snd (run k p it)) = true).
    { intros k Hk. split; [apply Hnot; lia|].
      destruct k as [|k]; [lia|]. apply not_false_is_true, Hleast. lia. }
    destruct (operator_incr_run j p it n (S (S d)) H ltac:(lia) Hskip) as [_ Hgo].
    rewrite (Hgo (Hnot (S j) ltac:(lia)) Pj).
    set (p' := fst (run (S j) p it)). set (it' := snd (run (S j) p it)).
    assert (Hrun : forall k, run k p' it' = run (S j + k) p it)
      by (intros k; now rewrite run_add).
    assert (Hrest : traverse (S (S (d - S j))) p' it'
                    = Some (visited p' it' (S (d - S j)),
                            fst (run (S (d - S j)) p' it'))).
    { apply (IH (d - S j)%nat ltac:(lia) p' it' (n + N.of_nat (S j))).
      - apply run_at, H.
      - unfold it'. now rewrite run_is_base.
      - exact Pj.
      - intros k Hk. rewrite Hrun. apply Hnot. lia.
      - rewrite Hrun. replace (S j + S (d - S j))%nat with (S d) by lia.
        exact Hfin. }
    rewrite (traverse_fuel_mono _ _ _ _ (S d) Hrest) by lia.
    replace (S d) with (S j + S (d - S j))%nat at 1 2 by lia.
    rewrite visited_app. fold p' it'.
    rewrite (visited_one p it j Hfree) by (intros k Hk; apply Hskip; lia).
    now rewrite Hrun.
  - assert (Hskip : forall k, (1 <= k <= d)%nat ->
                finished (fst (run k p it)) (snd (run k p it)) = false /\
                at_end (snd (run k p it)) = true).
    { intros k Hk. split; [apply Hnot; lia|].
      destruct k as [|k]; [lia|]. apply not_false_is_true. intros Hk'.
      apply Hno, Exists_exists. exists k. split; [apply in_seq; lia|exact Hk']. }
    destruct (operator_incr_run d p it n (S (S d)) H ltac:(lia) Hskip) as [Hstop _].
    rewrite (Hstop Hfin), traverse_succ, iter_neq_end_end.
    rewrite (visited_one p it d Hfree) by (intros k Hk; apply Hskip; lia).
    reflexivity.
Qed.

(** ** Counting the raw steps *)

(** [operator++] together with the number of calls of [do_increment] it
    made. *)
Fixpoint operator_incr_count {A : Type} (fuel : nat) (p : MixedProductor A)
         (it : Iterator) : option (MixedProductor A * Iterator * nat) :=
  match fuel with
  | O => None
  | S k =>
      let '(p1, it1, fake) := do_increment p it in
      if all_sizes_discovered p1 it1
         && (global_counter it1 =? read_total p1)
      then Some (p1, end_ p1, 1%nat)
      else if fake then
             match operator_incr_count k p1 it1 with
             | Some (p', it', n) => Some (p', it', S n)
             | None => None
             end
           else Some (p1, it1, 1%nat)
  end.

(** A traversal together with the number of calls of [do_increment] made
    by all its [operator++]. *)
Fixpoint traverse_count {A : Type} (fuel : nat) (p : MixedProductor A)
         (it : Iterator) : option (list Iterator * MixedProductor A * nat) :=
  match fuel with
  | O => None
  | S k =>
      if iter_neq it (end_ p) then
        match operator_incr_count fuel p it with
        | Some (p', it', n) =>
            match traverse_count k p' it' with
            | Some (l, q, m) => Some (it :: l, q, (n + m)%nat)
            | None => None
            end
        | None => None
        end
      else Some ([], p, 0%nat)
  end.

(** Counting changes nothing else. *)
Lemma operator_incr_count_erase {A : Type} (fuel : nat) :
  forall (p : MixedProductor A) it,
    option_map fst (operator_incr_count fuel p it) = operator_incr fuel p it.
Proof.
  induction fuel as [|fuel IH]; intros p it; [reflexivity|].
  cbn [operator_incr_count operator_incr].
  destruct (do_increment p it) as [[p1 it1] fl].
  destruct (all_sizes_discovered p1 it1 && (global_counter it1 =? read_total p1));
    [reflexivity|].
  destruct fl; [|reflexivity].
  rewrite <- IH. now destruct (operator_incr_count fuel p1 it1) as [[[? ?] ?]|].
Qed.

Lemma traverse_count_erase {A : Type} (fuel : nat) :
  forall (p : MixedProductor A) it,
    option_map fst (traverse_count fuel p it) = traverse fuel p it.
Proof.
  induction fuel as [|fuel IH]; intros p it; [reflexivity|].
  cbn [traverse_count traverse].
  destruct (iter_neq it (end_ p)); [|reflexivity].
  rewrite <- (operator_incr_count_erase (S fuel)).
  destruct (operator_incr_count (S fuel) p it) as [[[p' it'] n]|];
    [|reflexivity].
  cbn [option_map fst]. rewrite <- IH.
  now destruct (traverse_count fuel p' it') as [[[? ?] ?]|].
Qed.

Lemma operator_incr_count_fuel_mono {A : Type} (fuel : nat) :
  forall (p : MixedProductor A) it r fuel',
    operator_incr_count fuel p it = Some r -> (fuel <= fuel')%nat ->
    operator_incr_count fuel' p it = Some r.
Proof.
  induction fuel as [|k IH]; intros p it r fuel' Hrun Hle; [discriminate|].
  destruct fuel' as [|k']; [lia|].
  cbn [operator_incr_count] in *.
  destruct (do_increment p it) as [[p1 it1] fake].
  destruct (all_sizes_discovered p1 it1 && (global_counter it1 =? read_total p1));
    [assumption|].
  destruct fake; [|assumption].
  destruct (operator_incr_count k p1 it1) as [r1|] eqn:Hrec; [|discriminate].
  now rewrite (IH _ _ _ k' Hrec) by lia.
Qed.

Lemma traverse_count_fuel_mono {A : Type} (fuel : nat) :
  forall (p : MixedProductor A) it r fuel',
    traverse_count fuel p it = Some r -> (fuel <= fuel')%nat ->
    traverse_count fuel' p it = Some r.
Proof.
  induction fuel as [|k IH]; intros p it r fuel' Hrun Hle; [discriminate|].
  destruct fuel' as [|k']; [lia|].
  cbn [traverse_count] in *.
  destruct (iter_neq it (end_ p)); [|assumption].
  destruct (operator_incr_count (S k) p it) as [[[p1 it1] n1]|] eqn:Hincr;
    [|discriminate].
  rewrite (operator_incr_count_fuel_mono _ _ _ _ (S k') Hincr) by lia.
  destruct (traverse_count k p1 it1) as [[[l q] m]|] eqn:Hrest; [|discriminate].
  rewrite (IH _ _ _ k' Hrest) by lia. assumption.
Qed.

(** [operator++] makes as many calls of [do_increment] as there are raw
    steps up to the first one at which the traversal is finished or no
    raw cursor is left on its [end]. *)
Lemma operator_incr_count_run {A : Type} (j : nat) :
  forall (p : MixedProductor A) it n fuel,
    At n p it -> (j < fuel)%nat ->
    (forall k, (1 <= k <= j)%nat ->
               finished (fst (run k p it)) (snd (run k p it)) = false /\
               at_end (snd (run k p it)) = true) ->
    let p' := fst (run (S j) p it) in
    let it' := snd (run (S j) p it) in
    (finished p' it' = true ->
     operator_incr_count fuel p it = Some (p', end_ p', S j)) /\
    (finished p' it' = false -> at_end it' = false ->
     operator_incr_count fuel p it = Some (p', it', S j)).
Proof.
  induction j as [|j IH]; intros p it n fuel H Hfuel Hskip;
    (destruct fuel as [|fuel]; [lia|]); cbv zeta; cbn [operator_incr_count];
    destruct (do_increment_at it p n H) as (p1 & it1 & fl & E & _ & H1 & Hfl).
  - cbn [run]. rewrite E. cbn [fst snd]. fold (finished p1 it1).
    split; [intros ->; reflexivity|].
    intros -> Hend. now rewrite Hfl, Hend.
  - rewrite !run_succ with (k := S j). rewrite E. cbn [fst snd].
    fold (finished p1 it1).
    destruct (Hskip 1%nat ltac:(lia)) as [Hfin Hend].
    cbn [run] in Hfin, Hend. rewrite E in Hfin, Hend. cbn [fst snd] in Hfin, Hend.
    rewrite Hfin, Hfl, Hend.
    destruct (IH p1 it1 (n + 1) fuel H1 ltac:(lia)) as [Hstop Hgo].
    + intros k Hk. specialize (Hskip (S k) ltac:(lia)).
      rewrite run_succ, E in Hskip. exact Hskip.
    + split.
      * intros Hf. now rewrite (Hstop Hf).
      * intros Hf He. now rewrite (Hgo Hf He).
Qed.

(** A traversal makes as many calls of [do_increment] as there are raw
    steps up to the first one at which [operator++] finds it finished. *)
Lemma traverse_count_succ {A : Type} (k : nat) (p : MixedProductor A) it :
  traverse_count (S k) p it =
  if iter_neq it (end_ p) then
    match operator_incr_count (S k) p it with
    | Some (p', it', n) =>
        match traverse_count k p' it' with
        | Some (l, q, m) => Some (it :: l, q, (n + m)%nat)
        | None => None
        end
    | None => None
    end
  else Some ([], p, 0%nat).
Proof. reflexivity. Qed.

Lemma traverse_count_run {A : Type} (d : nat) :
  forall (p : MixedProductor A) it n,
    At n p it -> is_base_iter it = false -> at_end it = false ->
    (forall k, (1 <= k <= d)%nat ->
               finished (fst (run k p it)) (snd (run k p it)) = false) ->
    finished (fst (run (S d) p it)) (snd (run (S d) p it)) = true ->
    traverse_count (S (S d)) p it
    = Some (visited p it (S d), fst (run (S d) p it), S d).
Proof.
  induction d as [d IH] using lt_wf_ind. intros p it n H Hnode Hfree Hnot Hfin.
  rewrite traverse_count_succ, (iter_neq_end_at n it p H), Hnode, Hfree.
  cbn [negb andb].
  destruct (Exists_dec (fun k => at_end (snd (run (S k) p it)) = false) (seq 0 d)
              (fun k => bool_dec _ _)) as [Hex|Hno].
  - apply Exists_exists in Hex. destruct Hex as (m & Hm & Pm). apply in_seq in Hm.
    destruct (least_below (fun k => at_end (snd (run (S k) p it)) = false)
                (fun k => bool_dec _ _) m Pm) as (j & Hj & Pj & Hleast).
    assert (Hskip : forall k, (1 <= k <= j)%nat ->
                finished (fst (run k p it)) (snd (run k p it)) = false /\
                at_end (snd (run k p it)) = true).
    { intros k Hk. split; [apply Hnot; lia|].
      destruct k as [|k]; [lia|]. apply not_false_is_true, Hleast. lia. }
    destruct (operator_incr_count_run j p it n (S (S d)) H ltac:(lia) Hskip)
      as [_ Hgo].
    rewrite (Hgo (Hnot (S j) ltac:(lia)) Pj).
    set (p' := fst (run (S j) p it)). set (it' := snd (run (S j) p it)).
    assert (Hrun : forall k, run k p' it' = run (S j + k) p it)
      by (intros k; now rewrite run_add).
    assert (Hrest : traverse_count (S (S (d - S j))) p' it'
                    = Some (visited p' it' (S (d - S j)),
                            fst (run (S (d - S j)) p' it'), S (d - S j))).
    { apply (IH (d - S j)%nat ltac:(lia) p' it' (n + N.of_nat (S j))).
      - apply run_at, H.
      - unfold it'. now rewrite run_is_base.
      - exact Pj.
      - intros k Hk. rewrite Hrun. apply Hnot. lia.
      - rewrite Hrun. replace (S j + S (d - S j))%nat with (S d) by lia.
        exact Hfin. }
    rewrite (traverse_count_fuel_mono _ _ _ _ (S d) Hrest) by lia.
    replace (S d) with (S j + S (d - S j))%nat at 1 2 3 by lia.
    rewrite visited_app. fold p' it'.
    rewrite (visited_one p it j Hfree) by (intros k Hk; apply Hskip; lia).
    now rewrite Hrun.
  - assert (Hskip : forall k, (1 <= k <= d)%nat ->
                finished (fst (run k p it)) (snd (run k p it)) = false /\
                at_end (snd (run k p it)) = true).
    { intros k Hk. split; [apply Hnot; lia|].
      destruct k as [|k]; [lia|]. apply not_false_is_true. intros Hk'.
      apply Hno, Exists_exists. exists k. split; [apply in_seq; lia|exact Hk']. }
    destruct (operator_incr_count_run d p it n (S (S d)) H ltac:(lia) Hskip)
      as [Hstop _].
    rewrite (Hstop Hfin), traverse_count_succ, iter_neq_end_end.
    rewrite (visited_one p it d Hfree) by (intros k Hk; apply Hskip; lia).
    now rewrite Nat.add_0_r.
Qed.

(** ** Well-formed inputs and reachable cursors *)

(** Containers a traversal can walk: none is empty, and each length is a
    value of [size_t]. *)
Definition walkable {A : Type} (cs : list (list A)) : Prop :=
  Forall (fun c => 0 < N.of_nat (length c) < modulus) cs.

Lemma At_begin {A : Type} (cs : list (list A)) :
  walkable cs -> At 0 (mixed_product cs) (begin (mixed_product cs)).
Proof.
  induction 1 as [|c cs Hc Hcs IH]; cbn; [split; reflexivity|].
  repeat split; try tauto. left. repeat split; lia.
Qed.

Lemma operator_incr_result {A : Type} (fuel : nat) :
  forall (p : MixedProductor A) it n p' it',
    At n p it -> operator_incr fuel p it = Some (p', it') ->
    it' = end_ p' \/ exists m, At m p' it'.
Proof.
  induction fuel as [|fuel IH]; intros p it n p' it' H Hrun; [discriminate|].
  cbn [operator_incr] in Hrun.
  destruct (do_increment_at it p n H) as (p1 & it1 & fl & E & _ & H1 & _).
  rewrite E in Hrun.
  destruct (all_sizes_discovered p1 it1 && (global_counter it1 =? read_total p1)).
  - injection Hrun as <- <-. now left.
  - destruct fl; [now apply (IH p1 it1 (n + 1))|].
    injection Hrun as <- <-. right. now exists (n + 1).
Qed.

Lemma operator_incr_terminates {A : Type} (d : nat) :
  forall (p : MixedProductor A) it n,
    At n p it ->
    finished (fst (run (S d) p it)) (snd (run (S d) p it)) = true ->
    exists r, operator_incr (S d) p it = Some r.
Proof.
  induction d as [|d IH]; intros p it n H Hfin; cbn [operator_incr];
    destruct (do_increment_at it p n H) as (p1 & it1 & fl & E & _ & H1 & _);
    rewrite run_succ, E in Hfin; cbn [fst snd] in Hfin; rewrite E;
    fold (finished p1 it1).
  - cbn [run fst snd] in Hfin. rewrite Hfin. eauto.
  - destruct (finished p1 it1); [eauto|]. destruct fl; [|eauto].
    now apply (IH p1 it1 (n + 1)).
Qed.

(** The cursors a range-for can hold: [begin()], and what [operator++]
    answers on a cursor that differs from [end()]. *)
Inductive Reachable {A : Type} (cs : list (list A))
  : MixedProductor A -> Iterator -> Prop :=
| reach_begin :
    Reachable cs (mixed_product cs) (begin (mixed_product cs))
| reach_incr p it fuel p' it' :
    Reachable cs p it ->
    iter_neq it (end_ p) = true ->
    operator_incr fuel p it = Some (p', it') ->
    Reachable cs p' it'.

Lemma neq_end_nonempty {A : Type} (cs : list (list A)) :
  iter_neq (begin (mixed_product cs)) (end_ (mixed_product cs)) = true ->
  Forall (fun c => 0 < N.of_nat (length c)) cs.
Proof.
  intros Hneq. apply Forall_forall. intros c Hc.
  destruct c as [|x c]; [|cbn; lia].
  rewrite (begin_neq_end_of_empty cs Hc) in Hneq. discriminate.
Qed.

Lemma reachable_at {A : Type} (cs : list (list A)) p it :
  Forall (fun c => N.of_nat (length c) < modulus) cs ->
  Reachable cs p it -> iter_neq it (end_ p) = true -> exists n, At n p it.
Proof.
  intros Hlen Hreach. induction Hreach as [|p it fuel p' it' _ IH Hneq Hrun];
    intros Hneq'.
  - exists 0. apply At_begin. unfold walkable.
    pose proof (neq_end_nonempty cs Hneq') as Hpos.
    rewrite Forall_forall in *. intros c Hc. split; auto.
  - destruct (IH Hneq) as [n H].
    destruct (operator_incr_result fuel p it n p' it' H Hrun) as [->|Hm];
      [|assumption].
    rewrite iter_neq_end_end in Hneq'. discriminate.
Qed.

(** C9. Every operation returns.  On every cursor a traversal can hold
    and that differs from [end()], [operator++], with its loop over the
    padding combinations, answers with enough fuel; the coprime search of
    [set_size] stops for every positive length and positive running
    total; [gcd] returns for all arguments. *)
Theorem every_operation_terminates {A : Type} (cs : list (list A)) :
  (forall p it,
      Forall (fun c => N.of_nat (length c) < modulus) cs ->
      Reachable cs p it -> iter_neq it (end_ p) = true ->
      exists fuel r, operator_incr fuel p it = Some r) /\
  (forall n t, 0 < n < modulus -> 0 < t ->
               exists fuel r, search_loop fuel n t = Some r) /\
  (forall a b, exists fuel g, gcd_loop fuel a b = Some g).
Proof.
  split; [|split].
  - intros p it Hlen Hreach Hneq.
    destruct (reachable_at cs p it Hlen Hreach Hneq) as [n H].
    destruct (finished_eventually p it n H) as [d Hd].
    exists (S d). now apply (operator_incr_terminates d p it n).
  - intros n t Hn Ht.
    destruct (search_hit_exists n t ltac:(lia) ltac:(lia)) as (j0 & _ & Hhit0).
    destruct (least_below (fun i => gcd (wrap (n + N.of_nat i)) t = 1)
                (fun i => N.eq_dec _ _) j0 Hhit0) as (j & _ & Hhit & Hleast).
    exists (S j), (wrap (n + N.of_nat j)).
    apply search_loop_first; [lia|lia|assumption|assumption].
  - intros a b. exists (S (N.to_nat b)), (N.gcd a b).
    apply gcd_loop_enough. lia.
Qed.

(** ** A single container *)

Lemma nth_error_seq {X : Type} (c : list X) :
  map (nth_error c) (seq 0 (length c)) = map Some c.
Proof.
  induction c as [|x c IH]; [reflexivity|].
  cbn [length seq map nth_error]. f_equal.
  rewrite <- seq_shift, map_map. exact IH.
Qed.

Lemma map_filter_all {X Y : Type} (f : X -> bool) (g : X -> Y) (l : list X) :
  (forall x, In x l -> f x = true) -> map g (filter f l) = map g l.
Proof.
  induction l as [|x l IH]; intros H; [reflexivity|].
  cbn. rewrite (H x (or_introl eq_refl)). cbn. f_equal. apply IH.
  intros y Hy. apply H. now right.
Qed.

Section Single.

Variable A : Type.
Variable c : list A.
Variable L : nat.
Hypothesis L_length : L = length c.
Hypothesis L_fits : N.of_nat L < modulus.

Definition single_state (k : nat) : Iterator :=
  IterNode k 0 L (IterBase (N.of_nat k)) (N.of_nat k).

Definition single_done : MixedProductor A :=
  ProdNode c (N.of_nat L) (N.of_nat L) (ProdBase (N.of_nat L)).

Lemma single_step (k : nat) :
  (S k < L)%nat ->
  do_increment (mixed_product [c]) (single_state k)
  = (mixed_product [c], single_state (S k), false).
Proof.
  intros Hk. unfold single_state. cbn [mixed_product].
  rewrite do_increment_node, read_total_base. unfold node_incr.
  destruct (node_step_undiscovered (N.of_nat k) (N.of_nat L)
              ltac:(lia) ltac:(lia)) as (E1 & E2 & _ & _).
  rewrite E1, E2. cbn [negb].
  destruct (Nat.eqb_spec (S k) L) as [E|_]; [lia|].
  rewrite write_total_zero. cbn [do_increment].
  replace (N.of_nat k + 1) with (N.of_nat (S k)) by lia.
  rewrite wrap_small by lia. reflexivity.
Qed.

Lemma single_run (k : nat) :
  (k < L)%nat ->
  run k (mixed_product [c]) (single_state 0) = (mixed_product [c], single_state k).
Proof.
  induction k as [|k IH]; intros Hk; [reflexivity|].
  replace (S k) with (k + 1)%nat by lia.
  rewrite run_add, IH by lia. cbn [fst snd run].
  rewrite single_step by lia. now replace (k + 1)%nat with (S k) by lia.
Qed.

Lemma single_last (k : nat) :
  S k = L ->
  do_increment (mixed_product [c]) (single_state k)
  = (single_done, IterNode 0 0 L (IterBase (N.of_nat L)) 0, false).
Proof.
  intros Hk. unfold single_state, single_done. cbn [mixed_product].
  rewrite do_increment_node, read_total_base. unfold node_incr.
  destruct (node_step_undiscovered (N.of_nat k) (N.of_nat L)
              ltac:(lia) ltac:(lia)) as (E1 & E2 & E3 & _).
  rewrite E1, E2, E3. cbn [negb].
  destruct (Nat.eqb_spec (S k) L) as [_|E]; [|lia].
  replace (N.of_nat k + 1) with (N.of_nat L) by lia.
  cbn [N.eqb andb negb].
  destruct (N.eqb_spec (N.of_nat L) 0) as [E|_]; [lia|].
  assert (Ef : is_fake (N.of_nat L) (N.of_nat L) (N.of_nat L) = false)
    by (apply is_fake_false_iff; lia).
  rewrite Ef. cbn [negb].
  unfold write_total. cbn [total_fakesize fst do_increment].
  destruct (N.eqb_spec (N.of_nat L) 0) as [E|_]; [lia|]. cbn [negb].
  replace (N.of_nat k + 1) with (N.of_nat L) by lia.
  rewrite wrap_small by lia. reflexivity.
Qed.

Lemma single_traverse :
  exists q,
    traverse (S L) (mixed_product [c]) (begin (mixed_product [c]))
    = Some (map single_state (seq 0 L), q).
Proof.
  cbn [mixed_product begin]. rewrite <- L_length.
  change (IterNode 0 0 L (IterBase 0) 0) with (single_state 0).
  destruct (Nat.eq_dec L 0) as [E0|Hpos].
  - eexists. rewrite traverse_succ. cbn [end_ iter_neq]. rewrite <- L_length.
    rewrite E0. reflexivity.
  - assert (EL : L = S (L - 1)) by lia.
    assert (Hat : At 0 (ProdNode c 0 0 (ProdBase 0)) (single_state 0)).
    { pose proof (At_begin [c]) as Hb. cbn [mixed_product begin] in Hb.
      rewrite <- L_length in Hb. apply Hb.
      constructor; [|constructor]. rewrite <- L_length. lia. }
    assert (Hlast : run (S (L - 1)) (mixed_product [c]) (single_state 0)
                    = (single_done, IterNode 0 0 L (IterBase (N.of_nat L)) 0)).
    { replace (S (L - 1)) with (L - 1 + 1)%nat by lia.
      rewrite run_add, single_run by lia. cbn [fst snd run].
      rewrite single_last by lia. reflexivity. }
    cbn [mixed_product] in Hlast.
    exists single_done. replace (S L) with (S (S (L - 1))) by lia.
    rewrite (traverse_run (L - 1) _ (single_state 0) 0 Hat); try reflexivity.
    + rewrite Hlast. cbn [fst]. f_equal. f_equal.
      unfold visited. rewrite <- EL.
      assert (Hr : forall k, In k (seq 0 L) ->
                 run k (ProdNode c 0 0 (ProdBase 0)) (single_state 0)
                 = (ProdNode c 0 0 (ProdBase 0), single_state k)).
      { intros k Hk. apply in_seq in Hk. apply (single_run k). lia. }
      rewrite map_filter_all.
      * apply map_ext_in. intros k Hk. now rewrite (Hr k Hk).
      * intros k Hk. rewrite (Hr k Hk). apply in_seq in Hk. cbn.
        destruct (Nat.eqb_spec k L); [lia|reflexivity].
    + unfold single_state. cbn [at_end].
      destruct (Nat.eqb_spec 0 L); [lia|reflexivity].
    + intros k Hk. pose proof (single_run k ltac:(lia)) as Hr.
      cbn [mixed_product] in Hr. rewrite Hr. reflexivity.
    + rewrite Hlast. unfold finished, single_done. cbn.
      rewrite N.eqb_refl. destruct (N.eqb_spec (N.of_nat L) 0); [lia|reflexivity].
Qed.

End Single.

(** C8. Over exactly one container of length [L] a traversal emits the
    elements of the container, each as a 1-tuple, in their order: [L]
    tuples; the tuple of rank [k] is reached after exactly [k] raw steps,
    so no step is passed over as a padding combination. *)
Theorem single_container_passes_through {A : Type} (c : list A) :
  N.of_nat (length c) < modulus ->
  exists l q,
    traverse (S (length c)) (mixed_product [c]) (begin (mixed_product [c]))
    = Some (l, q) /\
    map (deref (mixed_product [c])) l = map (fun x => Some [x]) c /\
    map global_counter l = map N.of_nat (seq 0 (length c)) /\
    length l = length c /\
    emitted (S (length c)) [c] = Some (map (fun x => Some [x]) c).
Proof.
  intros Hfits.
  destruct (single_traverse A c (length c) eq_refl Hfits) as [q Hq].
  assert (Hderef : map (deref (mixed_product [c]))
                       (map (single_state (length c)) (seq 0 (length c)))
                   = map (fun x => Some [x]) c).
  { rewrite map_map.
    transitivity (map (fun o : option A =>
                         match o with Some x => Some [x] | None => None end)
                      (map (nth_error c) (seq 0 (length c)))).
    - rewrite map_map. apply map_ext. intros k. cbn.
      now destruct (nth_error c k).
    - rewrite nth_error_seq, map_map. reflexivity. }
  exists (map (single_state (length c)) (seq 0 (length c))), q.
  split; [exact Hq|]. split; [exact Hderef|].
  split; [now rewrite map_map|].
  split; [now rewrite length_map, length_seq|].
  unfold emitted. rewrite Hq. now rewrite Hderef.
Qed.

Lemma single_container_passes_through_witness :
  N.of_nat (length [7; 8; 9]%nat) < modulus /\
  emitted (S (length [7; 8; 9]%nat)) [[7; 8; 9]%nat]
  = Some (map (fun x => Some [x]) [7; 8; 9]%nat).
Proof.
  assert (H : N.of_nat (length [7; 8; 9]%nat) < modulus) by reflexivity.
  split; [exact H|].
  destruct (single_container_passes_through [7; 8; 9]%nat H)
    as (l & q & _ & _ & _ & _ & E).
  exact E.
Defined.

(** ** Index tuples *)

(** Every choice of one position per container, for the given lengths. *)
Fixpoint box (ls : list nat) : list (list nat) :=
  match ls with
  | [] => [[]]
  | n :: r => flat_map (fun i => map (cons i) (box r)) (seq 0 n)
  end.

Lemma in_box (ls : list nat) :
  forall x, In x (box ls) <-> Forall2 lt x ls.
Proof.
  induction ls as [|n r IH]; intros x; cbn [box].
  - split.
    + intros [<-|[]]. constructor.
    + intros H. inversion H. now left.
  - rewrite in_flat_map. split.
    + intros (i & Hi & Hx). apply in_map_iff in Hx. destruct Hx as (y & <- & Hy).
      apply in_seq in Hi. constructor; [lia|now apply IH].
    + intros H. inversion H as [|i n' y r' Hlt Hrest]; subst.
      exists i. split; [apply in_seq; lia|].
      apply in_map. now apply IH.
Qed.

Lemma length_box (ls : list nat) :
  length (box ls) = fold_right Nat.mul 1%nat ls.
Proof.
  induction ls as [|n r IH]; [reflexivity|].
  cbn [box fold_right].
  rewrite (flat_map_constant_length (c := length (box r))).
  - now rewrite length_seq, IH.
  - intros i _. apply length_map.
Qed.

Lemma NoDup_box (ls : list nat) : NoDup (box ls).
Proof.
  induction ls as [|n r IH]; cbn [box].
  - constructor; [intros []|constructor].
  - generalize 0%nat. induction n as [|n IHn]; intros a; cbn [seq flat_map].
    + constructor.
    + apply NoDup_app.
      * apply Finite.Injective_map_NoDup; [|exact IH].
        intros x y E. now injection E.
      * apply IHn.
      * intros x Hx Hx'. apply in_map_iff in Hx. destruct Hx as (y & <- & _).
        apply in_flat_map in Hx'. destruct Hx' as (i & Hi & Hy).
        apply in_seq in Hi. apply in_map_iff in Hy. destruct Hy as (z & E & _).
        injection E as E _. lia.
Qed.

(** ** Pairwise coprime periods *)

Fixpoint pairwise_coprime (l : list N) : Prop :=
  match l with
  | [] => True
  | x :: r => Forall (fun y => N.gcd x y = 1) r /\ pairwise_coprime r
  end.

Definition prodN (l : list N) : N := fold_right N.mul 1 l.

Lemma coprime_prodN (f : N) (r : list N) :
  Forall (fun y => N.gcd f y = 1) r -> N.gcd f (prodN r) = 1.
Proof.
  induction 1 as [|y r Hy _ IH]; cbn [prodN fold_right].
  - apply Ngcd_1_r.
  - now apply Ngcd_mul.
Qed.

Lemma prodN_nonzero (l : list N) : Forall (fun f => f <> 0) l -> prodN l <> 0.
Proof.
  induction 1 as [|f r Hf _ IH]; cbn [prodN fold_right]; [discriminate|].
  fold (prodN r). lia.
Qed.

Lemma mod_eq_divide (a b m : N) :
  a <= b -> a mod m = b mod m -> (m | b - a).
Proof.
  intros Hle E.
  pose proof (N.Div0.div_mod a m) as Ea. pose proof (N.Div0.div_mod b m) as Eb.
  exists (b / m - a / m). rewrite E in Ea.
  assert (a / m <= b / m) by now apply N.Div0.div_le_mono.
  revert Ea Eb H. generalize (a / m) (b / m) (b mod m). intros qa qb r Ea Eb H.
  nia.
Qed.

Lemma crt_divide (fs : list N) :
  pairwise_coprime fs ->
  forall a b, a <= b ->
    map (fun f => a mod f) fs = map (fun f => b mod f) fs ->
    (prodN fs | b - a).
Proof.
  induction fs as [|f r IH]; intros Hco a b Hle E; cbn [prodN fold_right].
  - apply N.divide_1_l.
  - destruct Hco as [Hf Hr]. cbn [map] in E. injection E as Ef Er.
    fold (prodN r).
    destruct (mod_eq_divide a b f Hle Ef) as [q Hq].
    assert (Hrq : (prodN r | q)).
    { apply (N.gauss (prodN r) f q).
      - rewrite N.mul_comm, <- Hq. now apply IH.
      - rewrite N.gcd_comm. now apply coprime_prodN. }
    destruct Hrq as [q' ->]. exists q'. rewrite Hq. lia.
Qed.

Lemma crt_injective (fs : list N) :
  pairwise_coprime fs ->
  forall a b, a < prodN fs -> b < prodN fs ->
    map (fun f => a mod f) fs = map (fun f => b mod f) fs -> a = b.
Proof.
  intros Hco.
  assert (Hle : forall a b, a <= b -> b < prodN fs ->
                  map (fun f => a mod f) fs = map (fun f => b mod f) fs -> a = b).
  { intros a b Hab Hb E. destruct (crt_divide fs Hco a b Hab E) as [q Hq].
    destruct q as [|q]; [lia|]. nia. }
  intros a b Ha Hb E. destruct (N.le_ge_cases a b).
  - now apply Hle.
  - symmetry. now apply Hle.
Qed.

(** The raw positions of the clock [k] in cycles of lengths [fs]. *)
Definition phases (fs : list N) (k : nat) : list nat :=
  map (fun f => N.to_nat (N.of_nat k mod f)) fs.

Lemma to_nat_prodN (fs : list N) :
  fold_right Nat.mul 1%nat (map N.to_nat fs) = N.to_nat (prodN fs).
Proof.
  induction fs as [|f r IH]; [reflexivity|].
  cbn [map fold_right prodN]. fold (prodN r). rewrite IH. lia.
Qed.

Lemma phases_in_box (fs : list N) (k : nat) :
  Forall (fun f => f <> 0) fs -> In (phases fs k) (box (map N.to_nat fs)).
Proof.
  intros Hpos. apply in_box. unfold phases.
  induction Hpos as [|f r Hf _ IH]; cbn [map]; constructor; [|exact IH].
  pose proof (N.mod_lt (N.of_nat k) f Hf). lia.
Qed.

(** Over one full cycle the clock visits every combination of phases
    exactly once. *)
Lemma phases_permutation (fs : list N) :
  pairwise_coprime fs -> Forall (fun f => f <> 0) fs ->
  Permutation (map (phases fs) (seq 0 (N.to_nat (prodN fs))))
              (box (map N.to_nat fs)).
Proof.
  intros Hco Hpos. apply NoDup_Permutation_bis.
  - apply Finite.Injective_map_NoDup_in; [|apply seq_NoDup].
    intros x y Hx Hy E. apply in_seq in Hx, Hy.
    apply Nat2N.inj. apply (crt_injective fs Hco); [lia|lia|].
    unfold phases in E. clear -E.
    induction fs as [|f r IH]; [reflexivity|].
    cbn [map] in *. injection E as Ef Er. f_equal; [lia|now apply IH].
  - now rewrite length_box, to_nat_prodN, length_map, length_seq.
  - intros x Hx. apply in_map_iff in Hx. destruct Hx as (k & <- & _).
    now apply phases_in_box.
Qed.

(** ** The running total as a product *)

Definition pad (fsz : N) : N := if fsz =? 0 then 1 else fsz.

(** The padded lengths known so far, 1 standing for a node still
    unknown. *)
Fixpoint pads {A : Type} (p : MixedProductor A) : list N :=
  match p with
  | ProdBase _ => []
  | ProdNode _ _ fsz r => pad fsz :: pads r
  end.

Fixpoint any_known {A : Type} (p : MixedProductor A) : bool :=
  match p with
  | ProdBase _ => false
  | ProdNode _ _ fsz r => negb (fsz =? 0) || any_known r
  end.

Lemma pad_nonzero (f : N) : pad f <> 0.
Proof. unfold pad. destruct (N.eqb_spec f 0); lia. Qed.

Lemma pads_nonzero {A : Type} (p : MixedProductor A) :
  Forall (fun f => f <> 0) (pads p).
Proof. induction p; cbn; constructor; [apply pad_nonzero|assumption]. Qed.

Lemma pads_unknown {A : Type} (p : MixedProductor A) :
  any_known p = false -> Forall (fun f => f = 1) (pads p).
Proof.
  induction p as [T|c sz fsz r IH]; cbn; intros H; constructor.
  - apply orb_false_iff in H. destruct H as [H _].
    apply negb_false_iff in H. unfold pad. now rewrite H.
  - apply IH. apply orb_false_iff in H. tauto.
Qed.

Lemma prodN_ones (l : list N) : Forall (fun f => f = 1) l -> prodN l = 1.
Proof.
  induction 1 as [|f r -> _ IH]; [reflexivity|].
  cbn [prodN fold_right]. fold (prodN r). now rewrite IH.
Qed.

Lemma coprime_member (f g : N) (l : list N) :
  In g l -> N.gcd f (prodN l) = 1 -> N.gcd f g = 1.
Proof.
  induction l as [|x r IH]; intros Hin Hco; [destruct Hin|].
  cbn [prodN fold_right] in Hco. fold (prodN r) in Hco.
  destruct Hin as [->|Hin].
  - now apply Ngcd_factor in Hco.
  - apply IH; [assumption|]. rewrite N.mul_comm in Hco.
    now apply Ngcd_factor in Hco.
Qed.

(** A step only adds knowledge: the product of the padded lengths does
    not decrease. *)
Lemma discover_pads_le {A : Type} (t : N) (p : MixedProductor A) :
  forall T, t <> 0 ->
    prodN (pads p) <= prodN (pads (fst (discover t T p))).
Proof.
  induction p as [T0|c sz fsz r IH]; intros T Ht; [cbn; lia|].
  cbn [discover]. unfold node_discover.
  destruct ((fsz =? 0) && (N.of_nat (length c) =? t)) eqn:Edue.
  - apply andb_true_iff in Edue. destruct Edue as [Ef _].
    destruct (negb (T =? 0)) eqn:ET.
    + specialize (IH (if wrap (coprime_search t T * T) =? 0 then T
                      else wrap (coprime_search t T * T)) Ht).
      destruct (discover t _ r) as [r' Tf]. cbn [fst pads prodN fold_right] in *.
      fold (prodN (pads r)) (prodN (pads r')) in *.
      unfold pad at 1. rewrite Ef.
      pose proof (pad_nonzero (coprime_search t T)). nia.
    + specialize (IH (if t =? 0 then T else t) Ht).
      destruct (discover t _ r) as [r' Tf]. cbn [fst pads prodN fold_right] in *.
      fold (prodN (pads r)) (prodN (pads r')) in *.
      unfold pad at 1. rewrite Ef.
      pose proof (pad_nonzero t). nia.
  - specialize (IH (if 0 =? 0 then T else 0) Ht).
    destruct (discover t _ r) as [r' Tf]. cbn [fst pads prodN fold_right] in *.
    fold (prodN (pads r)) (prodN (pads r')) in *. nia.
Qed.

Lemma node_discover_good (t s sz fsz T X : N) (ax anyr : bool)
      (rest : list N) :
  t <> 0 -> s < modulus ->
  T = (if ax || (negb (fsz =? 0) || anyr)
       then X * (pad fsz * prodN rest) else 0) ->
  X <> 0 -> (ax = false -> X = 1) ->
  (anyr = false -> Forall (fun g => g = 1) rest) ->
  Forall (fun g => g <> 0) rest ->
  N.gcd (pad fsz) X = 1 ->
  Forall (fun g => N.gcd (pad fsz) g = 1) rest ->
  forall sz' fsz' v,
    node_discover t s sz fsz T = (sz', fsz', v) ->
    X * (pad fsz' * prodN rest) < modulus ->
    (if v =? 0 then T else v)
    = (if (ax || negb (fsz' =? 0)) || anyr
       then (X * pad fsz') * prodN rest else 0) /\
    N.gcd (pad fsz') X = 1 /\
    Forall (fun g => N.gcd g (pad fsz') = 1) rest /\
    (ax || negb (fsz' =? 0) = false -> X * pad fsz' = 1).
Proof.
  intros Ht Hs HT HX Hax Hany Hnz HcoX Hco sz' fsz' v Hnode Hfit.
  pose proof (prodN_nonzero rest Hnz) as Hprod.
  unfold node_discover in Hnode.
  destruct ((fsz =? 0) && (s =? t)) eqn:Edue.
  - apply andb_true_iff in Edue. destruct Edue as [Ef Es].
    apply N.eqb_eq in Ef, Es. subst fsz s. cbn [N.eqb negb orb] in HT.
    change (pad 0) with 1 in *. rewrite N.mul_1_l in HT.
    destruct (N.eqb_spec T 0) as [ET|ET]; cbn [negb] in Hnode;
      injection Hnode as <- <- <-.
    + assert (Hnone : ax || anyr = false).
      { destruct (ax || anyr); [|reflexivity]. subst T. lia. }
      apply orb_false_iff in Hnone. destruct Hnone as [-> ->].
      rewrite (Hax eq_refl) in *. rewrite (prodN_ones rest (Hany eq_refl)) in *.
      apply N.eqb_neq in Ht as Ht'. rewrite Ht'. cbn [negb orb].
      assert (Ep : pad t = t) by (unfold pad; now rewrite Ht').
      rewrite Ep. repeat split; try lia.
      * apply Ngcd_1_r.
      * specialize (Hany eq_refl). clear -Hany.
        induction Hany as [|g r -> _ IH]; constructor; [apply Ngcd_1_l|exact IH].
    + assert (Hsome : ax || anyr = true).
      { destruct (ax || anyr); [reflexivity|]. now subst T. }
      rewrite Hsome in HT.
      pose proof (coprime_search_nonzero t T ET Ht Hs) as Hf0.
      pose proof (coprime_search_coprime t T ET Hs) as Hfco.
      rewrite gcd_spec in Hfco.
      set (f := coprime_search t T) in *.
      assert (Ep : pad f = f)
        by (unfold pad; apply N.eqb_neq in Hf0; now rewrite Hf0).
      rewrite Ep in *.
      assert (Hfit' : f * T < modulus) by (subst T; nia).
      rewrite wrap_small by assumption.
      destruct (N.eqb_spec (f * T) 0) as [E0|_]; [nia|].
      apply N.eqb_neq in Hf0 as Hf0'. rewrite Hf0'. cbn [negb].
      rewrite orb_true_r. cbn [orb].
      repeat split.
      * subst T. lia.
      * subst T. now apply Ngcd_factor in Hfco.
      * subst T. rewrite N.mul_comm in Hfco. apply Ngcd_factor in Hfco.
        apply Forall_forall. intros g Hg. rewrite N.gcd_comm.
        now apply (coprime_member f g rest).
      * discriminate.
  - injection Hnode as <- <- <-. cbn [N.eqb].
    rewrite orb_assoc in HT. rewrite <- N.mul_assoc.
    repeat split; try assumption.
    + apply Forall_forall. intros g Hg. rewrite N.gcd_comm.
      revert g Hg. now apply Forall_forall.
    + intros Hnone. apply orb_false_iff in Hnone. destruct Hnone as [-> Hf].
      apply negb_false_iff in Hf. unfold pad. rewrite Hf, (Hax eq_refl).
      reflexivity.
Qed.

Lemma any_known_ones {A : Type} (p : MixedProductor A) :
  any_known p = false -> Forall (fun g => g = 1) (pads p).
Proof. apply pads_unknown. Qed.

(** Along one step, and as long as the product of the padded lengths
    stays below [2^64], the running total is that product and the padded
    lengths stay pairwise coprime.  [X] is the product of the padded
    lengths of the nodes already passed, [ax] tells whether one of them is
    known. *)
Lemma discover_good {A : Type} (t : N) (r : MixedProductor A) :
  t <> 0 ->
  forall T X (ax : bool),
    smax r < modulus ->
    T = (if ax || any_known r then X * prodN (pads r) else 0) ->
    X <> 0 -> (ax = false -> X = 1) ->
    Forall (fun g => N.gcd g X = 1) (pads r) ->
    pairwise_coprime (pads r) ->
    X * prodN (pads (fst (discover t T r))) < modulus ->
    snd (discover t T r)
    = (if ax || any_known (fst (discover t T r))
       then X * prodN (pads (fst (discover t T r))) else 0) /\
    Forall (fun g => N.gcd g X = 1) (pads (fst (discover t T r))) /\
    pairwise_coprime (pads (fst (discover t T r))).
Proof.
  intros Ht. induction r as [T0|c sz fsz r IH];
    intros T X ax Hmax HT HX Hax HcoX Hpw Hfit.
  - cbn in *. repeat split; auto.
  - cbn [smax pads any_known pairwise_coprime prodN fold_right] in *.
    fold (prodN (pads r)) in *.
    apply Forall_cons_iff in HcoX. destruct HcoX as [Hg0 HrestX].
    destruct Hpw as [Hhead Hpw].
    cbn [discover] in *.
    destruct (node_discover t (N.of_nat (length c)) sz fsz T)
      as [[sz' fsz'] v] eqn:Enode.
    set (T1 := if v =? 0 then T else v) in *.
    pose proof (discover_pads_le t r T1 Ht) as Hle.
    destruct (discover t T1 r) as [r' Tf] eqn:Erec.
    cbn [fst snd pads any_known prodN fold_right pairwise_coprime] in *.
    fold (prodN (pads r')) in *.
    destruct (node_discover_good t (N.of_nat (length c)) sz fsz T X ax
                (any_known r) (pads r) Ht ltac:(lia) HT HX Hax
                (any_known_ones r) (pads_nonzero r) Hg0 Hhead
                sz' fsz' v Enode)
      as (HT1 & HcoX' & Hco' & Hax').
    { eapply N.le_lt_trans; [|exact Hfit].
      apply N.mul_le_mono_l, N.mul_le_mono_l, Hle. }
    fold T1 in HT1.
    destruct (IH T1 (X * pad fsz') (ax || negb (fsz' =? 0))) as (HTf & HX' & Hpw').
    + lia.
    + exact HT1.
    + pose proof (pad_nonzero fsz'). lia.
    + exact Hax'.
    + apply Forall_forall. intros g Hg. apply Ngcd_mul.
      * revert g Hg. now apply Forall_forall.
      * revert g Hg. now apply Forall_forall.
    + exact Hpw.
    + rewrite Erec. cbn [fst]. lia.
    + rewrite Erec in *. cbn [fst snd] in *.
      split; [|split; [|split]].
      * rewrite HTf, orb_assoc, N.mul_assoc. reflexivity.
      * constructor; [exact HcoX'|].
        apply Forall_forall. intros g Hg.
        apply (Ngcd_factor g X (pad fsz')).
        revert g Hg. now apply Forall_forall.
      * apply Forall_forall. intros g Hg. rewrite N.gcd_comm.
        apply (Ngcd_factor g (pad fsz') X). rewrite N.mul_comm.
        revert g Hg. now apply Forall_forall.
      * exact Hpw'.
Qed.

(** The running total is the product of the padded lengths known so far,
    and these are pairwise coprime. *)
Definition Good {A : Type} (p : MixedProductor A) : Prop :=
  read_total p = (if any_known p then prodN (pads p) else 0) /\
  pairwise_coprime (pads p).

Lemma At_smax {A : Type} (n : N) (it : Iterator) :
  forall p : MixedProductor A, At n p it -> smax p < modulus.
Proof.
  induction it as [g|i b e rit IH cnt]; intros [T|c sz fsz r] H;
    try (cbn in H; contradiction); cbn in *; [reflexivity|].
  destruct H as (_ & _ & Hs & _ & Hrest). specialize (IH r Hrest). lia.
Qed.

Lemma good_step {A : Type} (t : N) (p p' : MixedProductor A) :
  t <> 0 -> smax p < modulus -> Good p ->
  discover t (read_total p) p = (p', read_total p') ->
  prodN (pads p') < modulus ->
  Good p'.
Proof.
  intros Ht Hmax [HT Hpw] Hd Hfit.
  destruct (discover_good t p Ht (read_total p) 1 false Hmax) as (E & _ & Hpw').
  - cbn [orb]. now rewrite N.mul_1_l.
  - discriminate.
  - reflexivity.
  - apply Forall_forall. intros g _. apply Ngcd_1_r.
  - exact Hpw.
  - rewrite Hd. cbn [fst]. lia.
  - rewrite Hd in *. cbn [fst snd orb] in *. split; [|exact Hpw'].
    rewrite E. now rewrite N.mul_1_l.
Qed.

Lemma good_begin {A : Type} (cs : list (list A)) : Good (mixed_product cs).
Proof.
  unfold Good. induction cs as [|c cs [IHt IHp]]; [cbn; auto|].
  cbn [mixed_product pads any_known pairwise_coprime].
  rewrite read_total_node. cbn [N.eqb negb orb]. split; [|split].
  - rewrite IHt. destruct (any_known (mixed_product cs)); [|reflexivity].
    cbn [prodN fold_right]. fold (prodN (pads (mixed_product cs))).
    change (pad 0) with 1. lia.
  - apply Forall_forall. intros g _. apply Ngcd_1_l.
  - exact IHp.
Qed.

Lemma run_step {A : Type} (k : nat) (p : MixedProductor A) it (n : N) :
  At n p it ->
  let pk := fst (run k p it) in
  let pk' := fst (run (S k) p it) in
  discover (n + N.of_nat k + 1) (read_total pk) pk = (pk', read_total pk').
Proof.
  intros H. cbv zeta. replace (S k) with (k + 1)%nat by lia.
  rewrite run_add. pose proof (run_at k p it n H) as Hk.
  destruct (run k p it) as [pk itk]. cbn [fst snd] in *.
  destruct (do_increment_at itk pk _ Hk) as (p' & it' & fl & E & D & _).
  cbn [run]. rewrite E. exact D.
Qed.

Lemma good_run {A : Type} (cs : list (list A)) (k : nat) :
  walkable cs ->
  let p := mixed_product cs in
  prodN (pads (fst (run k p (begin p)))) < modulus ->
  Good (fst (run k p (begin p))).
Proof.
  intros Hw p. pose proof (At_begin cs Hw) as H0. fold p in H0.
  induction k as [|k IH]; intros Hfit; [apply good_begin|].
  pose proof (run_step k p (begin p) 0 H0) as Hd. cbv zeta in Hd.
  pose proof (run_at k p (begin p) 0 H0) as Hk.
  pose proof (discover_pads_le (0 + N.of_nat k + 1) (fst (run k p (begin p)))
                (read_total (fst (run k p (begin p)))) ltac:(lia)) as Hle.
  rewrite Hd in Hle. cbn [fst] in Hle.
  apply (good_step (0 + N.of_nat k + 1) (fst (run k p (begin p)))).
  - lia.
  - apply (At_smax _ _ _ Hk).
  - apply IH. lia.
  - exact Hd.
  - exact Hfit.
Qed.

(** ** Cursors in closed form *)

(** [q] knows everything [p] knows: same containers, and every length
    known in [p] is recorded in [q] with the same padding. *)
Fixpoint Grows {A : Type} (p q : MixedProductor A) : Prop :=
  match p, q with
  | ProdBase _, ProdBase _ => True
  | ProdNode c sz fsz r, ProdNode c' sz' fsz' r' =>
      c = c' /\ (fsz = 0 \/ (sz = sz' /\ fsz = fsz')) /\ Grows r r'
  | _, _ => False
  end.

(** Every length is known and no padded length is below the length. *)
Fixpoint Fits {A : Type} (p : MixedProductor A) : Prop :=
  match p with
  | ProdBase _ => True
  | ProdNode c _ fsz r => fsz <> 0 /\ N.of_nat (length c) <= fsz /\ Fits r
  end.

Lemma Grows_refl {A : Type} (p : MixedProductor A) : Grows p p.
Proof. induction p; cbn; auto. Qed.

Lemma Grows_trans {A : Type} (p : MixedProductor A) :
  forall q r, Grows p q -> Grows q r -> Grows p r.
Proof.
  induction p as [T|c sz fsz p IH]; intros [T1|c1 sz1 f1 q] [T2|c2 sz2 f2 r];
    cbn; try tauto.
  intros (-> & H1 & Hq) (-> & H2 & Hr). split; [reflexivity|]. split.
  - destruct H1 as [->|[-> ->]]; [now left|exact H2].
  - now apply (IH q r).
Qed.

Lemma discover_grows {A : Type} (t : N) (p : MixedProductor A) :
  forall T, Grows p (fst (discover t T p)).
Proof.
  induction p as [T0|c sz fsz r IH]; intros T; [exact I|].
  cbn [discover]. unfold node_discover.
  destruct ((fsz =? 0) && (N.of_nat (length c) =? t)) eqn:Edue.
  - apply andb_true_iff in Edue. destruct Edue as [Ef _]. apply N.eqb_eq in Ef.
    destruct (negb (T =? 0));
      match goal with
      | |- context [discover t ?T' r] =>
          specialize (IH T'); destruct (discover t T' r)
      end; cbn in *; auto.
  - specialize (IH (if 0 =? 0 then T else 0)).
    destruct (discover t _ r). cbn in *. auto.
Qed.

Lemma run_grows {A : Type} (k : nat) :
  forall (p : MixedProductor A) it n,
    At n p it -> Grows p (fst (run k p it)).
Proof.
  induction k as [|k IH]; intros p it n H; [apply Grows_refl|].
  cbn [run]. destruct (do_increment_at it p n H) as (p' & it' & fl & E & D & H' & _).
  rewrite E. apply Grows_trans with p'; [|now apply (IH p' it' (n + 1))].
  pose proof (discover_grows (n + 1) p (read_total p)) as Hg.
  now rewrite D in Hg.
Qed.

(** The tuple [x] lies inside the lengths [ls]. *)
Fixpoint inside (ls x : list nat) : bool :=
  match ls, x with
  | [], [] => true
  | n :: r, i :: y => (i <? n)%nat && inside r y
  | _, _ => false
  end.

Lemma inside_spec (ls : list nat) :
  forall x, inside ls x = true <-> Forall2 lt x ls.
Proof.
  induction ls as [|n r IH]; intros [|i y]; cbn; split; intros H;
    try discriminate; try constructor; try solve [inversion H].
  - apply andb_true_iff in H. destruct H as [H _]. now apply Nat.ltb_lt.
  - apply IH. apply andb_true_iff in H. tauto.
  - inversion H; subst. apply andb_true_iff. split; [now apply Nat.ltb_lt|].
    now apply IH.
Qed.

Lemma cursors_closed {A : Type} (k : nat) (it : Iterator) :
  forall p q : MixedProductor A,
    At (N.of_nat k) p it -> Grows p q -> Fits q ->
    at_end it = negb (inside (map (@length A) (containers q)) (phases (pads q) k)) /\
    (at_end it = false -> cursors it = phases (pads q) k).
Proof.
  induction it as [g|i b e rit IH cnt];
    intros [T|c sz fsz r] [T'|c' sz' fsz' r'] H Hg Hf;
    try (cbn in H; contradiction); try (cbn in Hg; contradiction).
  - cbn. auto.
  - cbn [At Grows Fits] in *.
    destruct H as (-> & -> & Hs & Hnode & Hrest).
    destruct Hg as (<- & Hsame & Hg). destruct Hf as (Hf0 & Hle & Hf).
    destruct (IH r r' Hrest Hg Hf) as [IHend IHcur].
    cbn [containers map pads phases at_end cursors inside].
    fold (phases (pads r') k).
    assert (Ep : pad fsz' = fsz')
      by (unfold pad; apply N.eqb_neq in Hf0; now rewrite Hf0).
    rewrite Ep, IHend, negb_andb.
    assert (Hhead : Nat.eqb i (length c)
                    = negb (N.to_nat (N.of_nat k mod fsz') <? length c)%nat /\
                    (Nat.eqb i (length c) = false ->
                     i = N.to_nat (N.of_nat k mod fsz'))).
    { destruct Hnode as [(_ & _ & Hlt & _ & ->)|(Hfz & _ & _ & Hge & -> & ->)].
      - rewrite N.mod_small by lia. rewrite !Nat2N.id.
        destruct (Nat.eqb_spec k (length c)), (Nat.ltb_spec k (length c));
          cbn; split; try reflexivity; try lia.
      - destruct Hsame as [->|[_ ->]]; [contradiction|].
        rewrite N.max_r by lia.
        destruct (Nat.eqb_spec (N.to_nat (N.min (N.of_nat k mod fsz')
                                                (N.of_nat (length c))))
                               (length c)),
          (Nat.ltb_spec (N.to_nat (N.of_nat k mod fsz')) (length c));
          cbn; split; try reflexivity; try lia. }
    destruct Hhead as [Hh1 Hh2]. rewrite Hh1. split; [reflexivity|].
    intros Hfree. apply orb_false_iff in Hfree. destruct Hfree as [Hfree1 Hfree2].
    rewrite <- Hh1 in Hfree1. rewrite (Hh2 Hfree1).
    rewrite <- IHend in Hfree2. now rewrite (IHcur Hfree2).
Qed.

(** Restricted to the clocks whose phases all fall inside the true
    lengths, one full cycle visits every index tuple exactly once. *)
Lemma inside_phases_permutation (fs : list N) (ls : list nat) :
  pairwise_coprime fs -> Forall (fun f => f <> 0) fs ->
  Forall2 (fun l f => N.of_nat l <= f) ls fs ->
  Permutation
    (map (phases fs)
         (filter (fun k => inside ls (phases fs k))
                 (seq 0 (N.to_nat (prodN fs)))))
    (box ls).
Proof.
  intros Hco Hpos Hle.
  pose proof (phases_permutation fs Hco Hpos) as Hperm.
  rewrite <- filter_map_swap.
  apply NoDup_Permutation.
  - apply NoDup_filter.
    apply (Permutation_NoDup (Permutation_sym Hperm)), NoDup_box.
  - apply NoDup_box.
  - intros x. rewrite filter_In, inside_spec, in_box. split; [tauto|].
    intros Hx. split; [|exact Hx].
    apply (Permutation_in x (Permutation_sym Hperm)), in_box.
    clear -Hx Hle. revert fs Hle.
    induction Hx as [|i l x ls Hil _ IH]; intros fs Hle;
      inversion Hle; subst; cbn [map]; constructor; [lia|now apply IH].
Qed.

Lemma fits_lengths {A : Type} (q : MixedProductor A) :
  Fits q ->
  Forall2 (fun l f => N.of_nat l <= f) (map (@length A) (containers q)) (pads q).
Proof.
  induction q as [T|c sz fsz r IH]; cbn; [constructor|].
  intros (Hf & Hle & Hr). constructor; [|now apply IH].
  unfold pad. apply N.eqb_neq in Hf. now rewrite Hf.
Qed.

Lemma fits_known {A : Type} (q : MixedProductor A) : Fits q -> Known q.
Proof. induction q; cbn; tauto. Qed.

Lemma fits_smax {A : Type} (q : MixedProductor A) :
  Fits q -> smax q <= prodN (pads q) /\ 1 <= prodN (pads q).
Proof.
  induction q as [T|c sz fsz r IH]; cbn [Fits smax pads prodN fold_right].
  - cbn. lia.
  - intros (Hf & Hle & Hr). destruct (IH Hr) as [H1 H2].
    fold (prodN (pads r)).
    assert (Ep : pad fsz = fsz)
      by (unfold pad; apply N.eqb_neq in Hf; now rewrite Hf).
    rewrite Ep. nia.
Qed.

Lemma known_any {A : Type} (q : MixedProductor A) :
  Known q -> containers q <> [] -> any_known q = true.
Proof.
  destruct q as [T|c sz fsz r]; cbn; [congruence|].
  intros [Hf _] _. apply N.eqb_neq in Hf. now rewrite Hf.
Qed.

Lemma undiscovered_before_smax {A : Type} (n : N) (it : Iterator) :
  forall p : MixedProductor A,
    At n p it -> n < smax p -> all_sizes_discovered p it = false.
Proof.
  induction it as [g|i b e rit IH cnt]; intros [T|c sz fsz r] H Hn;
    try (cbn in H; contradiction); [cbn in Hn; lia|].
  cbn in *. destruct H as (_ & _ & _ & Hnode & Hrest).
  destruct (N.ltb_spec n (N.of_nat (length c))) as [Hlt|Hge].
  - destruct Hnode as [(-> & _)|(_ & _ & _ & Hle & _)]; [reflexivity|lia].
  - rewrite (IH r Hrest) by lia. apply andb_false_r.
Qed.

Lemma containers_mixed_product {A : Type} (cs : list (list A)) :
  containers (mixed_product cs) = cs.
Proof. induction cs; cbn; congruence. Qed.

(** ** A whole traversal *)

(** The elements found at the positions [idx], one per container. *)
Fixpoint pick {A : Type} (cs : list (list A)) (idx : list nat)
  : option (list A) :=
  match cs, idx with
  | c :: r, i :: y =>
      match nth_error c i, pick r y with
      | Some x, Some t => Some (x :: t)
      | _, _ => None
      end
  | _, _ => Some []
  end.

Lemma deref_cursors {A : Type} (p : MixedProductor A) :
  forall it, deref p it = pick (containers p) (cursors it).
Proof.
  induction p as [T|c sz fsz r IH]; intros [g|i b e rit cnt]; try reflexivity.
  cbn. now rewrite IH.
Qed.

Lemma at_end_begin {A : Type} (cs : list (list A)) :
  walkable cs -> at_end (begin (mixed_product cs)) = false.
Proof.
  induction 1 as [|c l Hc _ IH]; [reflexivity|].
  cbn [mixed_product begin at_end]. rewrite IH.
  destruct c; [cbn in Hc; lia|reflexivity].
Qed.

Section Traversal.

Variable A : Type.
Variable cs : list (list A).
Hypothesis cs_nonempty : cs <> [].
Hypothesis cs_walkable : walkable cs.

Let p := mixed_product cs.
Let K := N.to_nat (smax p).
Let q := fst (run K p (begin p)).

Hypothesis q_fits : Fits q.
Hypothesis q_small : prodN (pads q) < modulus.

Let P := N.to_nat (prodN (pads q)).

Lemma traversal_at (k : nat) :
  At (N.of_nat k) (fst (run k p (begin p))) (snd (run k p (begin p))).
Proof.
  pose proof (run_at k p (begin p) 0 (At_begin cs cs_walkable)) as H.
  now rewrite N.add_0_l in H.
Qed.

Lemma traversal_containers (k : nat) :
  containers (fst (run k p (begin p))) = cs.
Proof.
  rewrite (run_containers k p (begin p) 0 (At_begin cs cs_walkable)).
  apply containers_mixed_product.
Qed.

Lemma traversal_settled (j : nat) : fst (run (K + j) p (begin p)) = q.
Proof.
  rewrite run_add. fold q.
  apply (run_known j q _ (N.of_nat K) (traversal_at K)), fits_known, q_fits.
Qed.

Lemma traversal_grows (k : nat) : Grows (fst (run k p (begin p))) q.
Proof.
  destruct (Nat.le_gt_cases k K) as [Hle|Hgt].
  - unfold q. replace K with (k + (K - k))%nat by lia. rewrite run_add.
    apply (run_grows _ _ _ (N.of_nat k)), traversal_at.
  - replace k with (K + (k - K))%nat by lia. rewrite traversal_settled.
    apply Grows_refl.
Qed.

Lemma traversal_total : read_total q = prodN (pads q).
Proof.
  destruct (good_run cs K cs_walkable q_small) as [HT _]. fold p q in HT.
  rewrite HT, known_any; [reflexivity|apply fits_known, q_fits|].
  unfold q. now rewrite traversal_containers.
Qed.

Lemma traversal_bounds : (K <= P)%nat /\ (1 <= P)%nat.
Proof.
  destruct (fits_smax q q_fits) as [H1 H2].
  rewrite (smax_containers q p) in H1
    by (unfold q, p; now rewrite traversal_containers, containers_mixed_product).
  unfold K, P. lia.
Qed.

Lemma traversal_not_finished (k : nat) :
  (k < P)%nat ->
  finished (fst (run k p (begin p))) (snd (run k p (begin p))) = false.
Proof.
  intros Hk. pose proof (traversal_at k) as Hat. unfold finished.
  destruct (Nat.le_gt_cases K k) as [Hge|Hlt].
  - rewrite (At_global_counter _ _ _ Hat).
    assert (E : fst (run k p (begin p)) = q)
      by (replace k with (K + (k - K))%nat by lia; apply traversal_settled).
    rewrite E, traversal_total, wrap_small by (unfold P in *; lia).
    destruct (N.eqb_spec (N.of_nat k) (prodN (pads q))) as [E'|_];
      [unfold P in *; lia|apply andb_false_r].
  - rewrite (undiscovered_before_smax _ _ _ Hat); [reflexivity|].
    rewrite (smax_containers _ p)
      by (unfold p; now rewrite traversal_containers, containers_mixed_product).
    unfold K in *. lia.
Qed.

Lemma traversal_finished :
  finished (fst (run P p (begin p))) (snd (run P p (begin p))) = true.
Proof.
  pose proof (traversal_at P) as Hat. destruct traversal_bounds as [HK _].
  assert (E : fst (run P p (begin p)) = q)
    by (replace P with (K + (P - K))%nat by lia; apply traversal_settled).
  unfold finished. rewrite (At_global_counter _ _ _ Hat).
  rewrite (proj2 (all_sizes_discovered_known _ _ _ Hat)).
  - rewrite E, traversal_total. unfold P.
    rewrite N2Nat.id, wrap_small by exact q_small.
    now rewrite N.eqb_refl.
  - rewrite E. apply fits_known, q_fits.
Qed.

Lemma traversal_closed (k : nat) :
  at_end (snd (run k p (begin p)))
  = negb (inside (map (@length A) cs) (phases (pads q) k)) /\
  (at_end (snd (run k p (begin p))) = false ->
   cursors (snd (run k p (begin p))) = phases (pads q) k).
Proof.
  pose proof (cursors_closed k _ _ q (traversal_at k) (traversal_grows k) q_fits)
    as H.
  replace (containers q) with cs in H; [exact H|].
  unfold q. now rewrite traversal_containers.
Qed.

Lemma traversal_result :
  traverse (S P) p (begin p) = Some (visited p (begin p) P, q) /\
  map cursors (visited p (begin p) P)
  = map (phases (pads q))
        (filter (fun k => inside (map (@length A) cs) (phases (pads q) k))
                (seq 0 P)).
Proof.
  destruct traversal_bounds as [HK HP]. split.
  - assert (E : fst (run P p (begin p)) = q)
      by (replace P with (K + (P - K))%nat by lia; apply traversal_settled).
    assert (EP : S (P - 1) = P) by lia.
    pose proof (traverse_run (P - 1) p (begin p) 0 (At_begin cs cs_walkable))
      as Ht.
    rewrite EP in Ht. rewrite Ht.
    + now rewrite E.
    + unfold p. destruct cs; [contradiction|reflexivity].
    + apply at_end_begin, cs_walkable.
    + intros k Hk. apply traversal_not_finished. lia.
    + apply traversal_finished.
  - unfold visited. rewrite map_map.
    rewrite (filter_ext _ (fun k => inside (map (@length A) cs) (phases (pads q) k))).
    + apply map_ext_in. intros k Hk. apply filter_In in Hk.
      destruct Hk as [_ Hk]. destruct (traversal_closed k) as [H1 H2].
      apply H2. rewrite H1, Hk. reflexivity.
    + intros k. destruct (traversal_closed k) as [H1 _].
      rewrite H1. apply negb_involutive.
Qed.

Lemma traversal_count :
  traverse_count (S P) p (begin p) = Some (visited p (begin p) P, q, P).
Proof.
  destruct traversal_bounds as [HK HP].
  assert (E : fst (run P p (begin p)) = q)
    by (replace P with (K + (P - K))%nat by lia; apply traversal_settled).
  assert (EP : S (P - 1) = P) by lia.
  pose proof (traverse_count_run (P - 1) p (begin p) 0 (At_begin cs cs_walkable))
    as Ht.
  rewrite EP in Ht. rewrite Ht.
  - now rewrite E.
  - unfold p. destruct cs; [contradiction|reflexivity].
  - apply at_end_begin, cs_walkable.
  - intros k Hk. apply traversal_not_finished. lia.
  - apply traversal_finished.
Qed.

End Traversal.

(** The generator once every length has been discovered: after as many
    raw steps as the longest container has elements. *)
Definition settled {A : Type} (cs : list (list A)) : MixedProductor A :=
  fst (run (N.to_nat (smax (mixed_product cs))) (mixed_product cs)
           (begin (mixed_product cs))).

(** No known padded length is below its true length. *)
Fixpoint Padded {A : Type} (p : MixedProductor A) : Prop :=
  match p with
  | ProdBase _ => True
  | ProdNode c _ fsz r => (fsz = 0 \/ N.of_nat (length c) <= fsz) /\ Padded r
  end.

(** No [size_t] computation of the discoveries wrapped: no padded length
    fell below its true length, and the product of the padded lengths is
    below [2^64]. *)
Definition no_wrap {A : Type} (q : MixedProductor A) : Prop :=
  Padded q /\ prodN (pads q) < modulus.

Lemma known_padded_fits {A : Type} (q : MixedProductor A) :
  Known q -> Padded q -> Fits q.
Proof.
  induction q as [T|c sz fsz r IH]; cbn; [tauto|].
  intros [Hf Hk] [[H0|Hle] Hp]; [contradiction|]. auto.
Qed.

Lemma settled_known {A : Type} (cs : list (list A)) :
  walkable cs -> Known (settled cs).
Proof.
  intros Hw. unfold settled.
  pose proof (run_at (N.to_nat (smax (mixed_product cs))) _ _ 0 (At_begin cs Hw))
    as Hat.
  apply (At_known _ _ _ Hat).
  rewrite (smax_containers _ (mixed_product cs))
    by apply (run_containers _ _ _ 0 (At_begin cs Hw)).
  lia.
Qed.

(** C1, as the code has it. For [N >= 1] non-empty containers whose
    discoveries do not wrap in [size_t], a traversal from [begin()] to
    [end()] emits as many tuples as the product of the true lengths; the
    positions of the emitted tuples are, up to order, all the choices of
    one position per container, each exactly once; and no emitted
    combination has a raw cursor on its [end] (a padding phase). *)
Theorem traversal_emits_product {A : Type} (cs : list (list A)) :
  cs <> [] -> walkable cs -> no_wrap (settled cs) ->
  let p := mixed_product cs in
  exists fuel l q,
    traverse fuel p (begin p) = Some (l, q) /\
    length l = fold_right Nat.mul 1%nat (map (@length A) cs) /\
    Permutation (map cursors l) (box (map (@length A) cs)) /\
    Permutation (map (deref p) l) (map (pick cs) (box (map (@length A) cs))) /\
    Forall (fun it => at_end it = false) l.
Proof.
  intros Hne Hw [Hpad Hsmall] p.
  pose proof (known_padded_fits _ (settled_known cs Hw) Hpad) as Hfits.
  unfold settled in *. fold p in Hfits, Hsmall.
  destruct (traversal_result A cs Hne Hw Hfits Hsmall) as [Hrun Hcur].
  fold p in Hrun, Hcur.
  set (q := fst (run (N.to_nat (smax p)) p (begin p))) in *.
  set (P := N.to_nat (prodN (pads q))) in *.
  assert (Hcont : containers q = cs).
  { unfold q.
    rewrite (run_containers _ p (begin p) 0 (At_begin cs Hw)).
    apply containers_mixed_product. }
  assert (Hperm : Permutation (map cursors (visited p (begin p) P))
                              (box (map (@length A) cs))).
  { rewrite Hcur. destruct (good_run cs _ Hw Hsmall) as [_ Hpw].
    apply inside_phases_permutation.
    - exact Hpw.
    - apply pads_nonzero.
    - rewrite <- Hcont. now apply fits_lengths. }
  exists (S P), (visited p (begin p) P), q.
  split; [exact Hrun|]. split; [|split; [exact Hperm|split]].
  - rewrite <- (length_map cursors), (Permutation_length Hperm).
    apply length_box.
  - rewrite (map_ext _ (fun it => pick cs (cursors it))).
    + rewrite <- map_map. now apply Permutation_map.
    + intros it. rewrite deref_cursors. unfold p.
      now rewrite containers_mixed_product.
  - apply Forall_forall. intros it Hit. unfold visited in Hit.
    apply in_map_iff in Hit. destruct Hit as (k & <- & Hk).
    apply filter_In in Hk. now apply negb_true_iff.
Qed.

Lemma traversal_emits_product_witness :
  exists fuel l q,
    traverse fuel (mixed_product [[0; 1]; [0; 1; 2; 3]]%nat)
             (begin (mixed_product [[0; 1]; [0; 1; 2; 3]]%nat)) = Some (l, q) /\
    length l = 8%nat /\
    Permutation (map cursors l) (box [2; 4]%nat).
Proof.
  assert (Hne : [[0; 1]; [0; 1; 2; 3]]%nat <> []) by discriminate.
  assert (Hw : walkable [[0; 1]; [0; 1; 2; 3]]%nat)
    by (repeat constructor).
  assert (Hnw : no_wrap (settled [[0; 1]; [0; 1; 2; 3]]%nat))
    by (vm_compute; repeat split; solve [discriminate | right; discriminate]).
  destruct (traversal_emits_product [[0; 1]; [0; 1; 2; 3]]%nat Hne Hw Hnw)
    as (fuel & l & q & Hrun & Hlen & Hperm & _).
  exists fuel, l, q. repeat split; assumption.
Defined.

(** ** Steps without discovery *)

(** No node is due at step [t]. *)
Fixpoint Idle {A : Type} (t : N) (p : MixedProductor A) : Prop :=
  match p with
  | ProdBase _ => True
  | ProdNode c _ fsz r => (fsz <> 0 \/ N.of_nat (length c) <> t) /\ Idle t r
  end.

Lemma discover_idle {A : Type} (t : N) (p : MixedProductor A) :
  Idle t p -> discover t (read_total p) p = (p, read_total p).
Proof.
  induction p as [T|c sz fsz r IH]; intros H; [reflexivity|].
  destruct H as [Hnode Hr]. rewrite read_total_node. cbn [discover].
  unfold node_discover.
  replace ((fsz =? 0) && (N.of_nat (length c) =? t)) with false.
  - cbn [N.eqb]. now rewrite (IH Hr).
  - symmetry. apply andb_false_iff.
    destruct Hnode as [H|H]; [left|right]; now apply N.eqb_neq.
Qed.

Lemma idle_begin {A : Type} (t : N) (cs : list (list A)) :
  Forall (fun c => N.of_nat (length c) <> t) cs -> Idle t (mixed_product cs).
Proof. induction 1; cbn; auto. Qed.

Lemma run_idle {A : Type} (cs : list (list A)) (k : nat) :
  walkable cs -> Forall (fun c => (k < length c)%nat) cs ->
  fst (run k (mixed_product cs) (begin (mixed_product cs))) = mixed_product cs.
Proof.
  intros Hw. induction k as [|k IH]; intros Hk; [reflexivity|].
  pose proof (run_step k _ _ 0 (At_begin cs Hw)) as Hd. cbv zeta in Hd.
  rewrite IH in Hd.
  - rewrite discover_idle in Hd; [now injection Hd|].
    apply idle_begin. revert Hk. apply Forall_impl. intros c Hc. lia.
  - revert Hk. apply Forall_impl. intros c Hc. lia.
Qed.

(** ** Two containers of [2^32] elements *)

Section Diagonal.

Variable A : Type.
Variables c1 c2 : list A.

Let n : N := 4294967296.

Hypothesis c1_length : N.of_nat (length c1) = n.
Hypothesis c2_length : N.of_nat (length c2) = n.

Lemma diagonal_discover :
  discover n 0 (mixed_product [c1; c2])
  = (ProdNode c1 n n (ProdNode c2 n (n + 1) (ProdBase n)), n).
Proof.
  assert (Hs : coprime_search n n = n + 1).
  { apply coprime_search_least.
    - discriminate.
    - unfold n. lia.
    - reflexivity.
    - rewrite gcd_spec. reflexivity.
    - intros q' Hq'. assert (E : q' = n) by (unfold n in *; lia). subst q'.
      rewrite gcd_spec. discriminate. }
  cbn [mixed_product discover]. rewrite c1_length, c2_length.
  unfold node_discover. rewrite N.eqb_refl. cbn [N.eqb andb negb].
  change (n =? 0) with false. cbn [negb]. rewrite N.eqb_refl.
  change (n =? 0) with false. cbn [negb andb]. rewrite Hs.
  reflexivity.
Qed.

Let p0 : MixedProductor A := mixed_product [c1; c2].
Let m : nat := length c1.

Lemma diagonal_walkable : walkable [c1; c2].
Proof.
  repeat constructor; rewrite ?c1_length, ?c2_length; reflexivity.
Qed.

Lemma diagonal_lengths : length c2 = m /\ N.of_nat m = n /\ (0 < m)%nat.
Proof. unfold m. unfold n in *. lia. Qed.

Lemma diagonal_before (k : nat) :
  (k < m)%nat -> fst (run k p0 (begin p0)) = p0.
Proof.
  intros Hk. apply run_idle; [apply diagonal_walkable|].
  destruct diagonal_lengths as (E & _). repeat constructor; fold m; lia.
Qed.

Lemma diagonal_settled :
  fst (run m p0 (begin p0))
  = ProdNode c1 n n (ProdNode c2 n (n + 1) (ProdBase n)).
Proof.
  destruct diagonal_lengths as (_ & Em & Hm).
  pose proof (run_step (m - 1) p0 (begin p0) 0 (At_begin _ diagonal_walkable))
    as Hd.
  cbv zeta in Hd. rewrite diagonal_before in Hd by lia.
  replace (S (m - 1)) with m in Hd by lia.
  replace (0 + N.of_nat (m - 1) + 1) with n in Hd by lia.
  change (read_total p0) with 0 in Hd. unfold p0 in Hd at 1.
  rewrite diagonal_discover in Hd. now injection Hd.
Qed.

Lemma diagonal_cursors (k : nat) :
  (k < m)%nat ->
  cursors (snd (run k p0 (begin p0))) = [k; k] /\
  at_end (snd (run k p0 (begin p0))) = false.
Proof.
  intros Hk. destruct diagonal_lengths as (E2 & _).
  pose proof (run_at k p0 (begin p0) 0 (At_begin _ diagonal_walkable)) as Hat.
  rewrite (diagonal_before k Hk), N.add_0_l in Hat.
  destruct (snd (run k p0 (begin p0))) as [g|i b e [g'|i' b' e' rit cnt'] cnt];
    cbn [At p0 mixed_product] in Hat; try tauto.
  destruct Hat as (_ & -> & _ & Hn1 & _ & -> & _ & Hn2 & Hrest).
  destruct rit; cbn in Hrest; [|tauto].
  destruct Hn1 as [(_ & _ & _ & _ & ->)|(Hf & _)]; [|congruence].
  destruct Hn2 as [(_ & _ & _ & _ & ->)|(Hf & _)]; [|congruence].
  cbn [cursors at_end]. rewrite !Nat2N.id. split; [reflexivity|].
  fold m. rewrite E2.
  destruct (Nat.eqb_spec k m); [lia|reflexivity].
Qed.

Lemma diagonal_traverse :
  traverse (S m) p0 (begin p0)
  = Some (visited p0 (begin p0) m, fst (run m p0 (begin p0))) /\
  map cursors (visited p0 (begin p0) m) = map (fun k => [k; k]) (seq 0 m).
Proof.
  destruct diagonal_lengths as (_ & Em & Hm). split.
  - pose proof (traverse_run (m - 1) p0 (begin p0) 0
                  (At_begin _ diagonal_walkable)) as Ht.
    replace (S (m - 1)) with m in Ht by lia. apply Ht.
    + reflexivity.
    + apply at_end_begin, diagonal_walkable.
    + intros k Hk. unfold finished.
      pose proof (run_at k p0 (begin p0) 0 (At_begin _ diagonal_walkable)) as Hat.
      rewrite (undiscovered_before_smax _ _ _ Hat); [reflexivity|].
      rewrite diagonal_before by lia. unfold p0. cbn [mixed_product smax].
      rewrite c1_length, c2_length. lia.
    + pose proof (run_at m p0 (begin p0) 0 (At_begin _ diagonal_walkable)) as Hat.
      unfold finished. rewrite (At_global_counter _ _ _ Hat).
      rewrite (proj2 (all_sizes_discovered_known _ _ _ Hat)).
      * rewrite diagonal_settled, N.add_0_l, Em. reflexivity.
      * rewrite diagonal_settled. cbn. repeat split; discriminate.
  - unfold visited. rewrite map_map, map_filter_all.
    + apply map_ext_in. intros k Hk. apply in_seq in Hk.
      now apply diagonal_cursors.
    + intros k Hk. apply in_seq in Hk.
      destruct (diagonal_cursors k ltac:(lia)) as [_ ->]. reflexivity.
Qed.

End Diagonal.

(** A container of [2^32] elements. *)
Definition four_giga : list unit := repeat tt (N.to_nat 4294967296).

Lemma four_giga_length : N.of_nat (length four_giga) = 4294967296.
Proof. unfold four_giga. now rewrite repeat_length, N2Nat.id. Qed.

Lemma traverse_deterministic {A : Type} (p : MixedProductor A) it
      (fuel fuel' : nat) r r' :
  traverse fuel p it = Some r -> traverse fuel' p it = Some r' -> r = r'.
Proof.
  intros H H'.
  pose proof (traverse_fuel_mono _ _ _ _ (Nat.max fuel fuel') H
                (Nat.le_max_l _ _)) as E.
  pose proof (traverse_fuel_mono _ _ _ _ (Nat.max fuel fuel') H'
                (Nat.le_max_r _ _)) as E'.
  congruence.
Qed.

(** C1, as the specification states it, fails when the running total
    leaves [size_t].  Over two containers of [2^32] elements the padded
    lengths are [2^32] and [2^32 + 1] and their product is stored as
    [2^32]; the test of [operator++] then succeeds at raw step [2^32], and
    the traversal emits the [2^32] combinations [(k, k)] only, whatever
    the fuel: not [2^64] tuples, and never the combination [(0, 1)]. *)
Lemma traversal_diagonal_only :
  exists l q,
    traverse (S (length four_giga)) (mixed_product [four_giga; four_giga])
             (begin (mixed_product [four_giga; four_giga])) = Some (l, q) /\
    (forall fuel l' q',
        traverse fuel (mixed_product [four_giga; four_giga])
                 (begin (mixed_product [four_giga; four_giga])) = Some (l', q') ->
        l' = l) /\
    map cursors l = map (fun k => [k; k]) (seq 0 (length four_giga)) /\
    length l = length four_giga /\
    length l <> (length four_giga * length four_giga)%nat /\
    ~ In [0; 1]%nat (map cursors l).
Proof.
  destruct (diagonal_traverse unit four_giga four_giga
              four_giga_length four_giga_length) as [Hrun Hcur].
  pose proof four_giga_length as Hlen.
  eexists. eexists. split; [exact Hrun|]. split; [|split; [exact Hcur|split; [|split]]].
  - intros fuel l' q' H'.
    pose proof (traverse_deterministic _ _ _ _ _ _ Hrun H') as E. congruence.
  - rewrite <- (length_map cursors), Hcur, length_map, length_seq. reflexivity.
  - rewrite <- (length_map cursors), Hcur, length_map, length_seq.
    revert Hlen. generalize (length four_giga). intros m Hm. nia.
  - rewrite Hcur. intros Hin.
    destruct (proj1 (in_map_iff _ _ _) Hin) as (k & E & _).
    clear -E. injection E as E1 E2. subst k. discriminate.
Qed.

(** C3, as the specification states it, fails at the same place: after
    [2^32] raw steps over these two containers both lengths are known,
    with padded lengths [2^32] and [2^32 + 1], and the running total is
    [2^32]: the second discovery did not multiply it by [2^32 + 1]. *)
Lemma running_total_not_product :
  let q := fst (run (length four_giga) (mixed_product [four_giga; four_giga])
                    (begin (mixed_product [four_giga; four_giga]))) in
  q = ProdNode four_giga 4294967296 4294967296
        (ProdNode four_giga 4294967296 4294967297 (ProdBase 4294967296)) /\
  Known q /\
  read_total q = 4294967296 /\
  read_total q <> 4294967296 * 4294967297.
Proof.
  cbv zeta.
  rewrite (diagonal_settled unit four_giga four_giga
             four_giga_length four_giga_length).
  split; [reflexivity|]. split; [cbn; repeat split; discriminate|].
  split; [reflexivity|]. discriminate.
Qed.

(** * Further properties of the code *)

(** ** [total_fakesize] *)

(** The [size_] and [fakesize_] of the nodes, outer to inner. *)
Fixpoint fields {A : Type} (p : MixedProductor A) : list (N * N) :=
  match p with
  | ProdBase _ => []
  | ProdNode _ sz fsz r => (sz, fsz) :: fields r
  end.

Lemma total_fakesize_spec {A : Type} (v : N) (p : MixedProductor A) :
  snd (total_fakesize v p) = (if v =? 0 then read_total p else v) /\
  containers (fst (total_fakesize v p)) = containers p /\
  fields (fst (total_fakesize v p)) = fields p.
Proof.
  induction p as [t|c sz fsz r (IH1 & IH2 & IH3)].
  - cbn. destruct (v =? 0); repeat split; reflexivity.
  - rewrite read_total_node. cbn [total_fakesize].
    destruct (total_fakesize v r) as [r' w]. cbn in *.
    now rewrite IH1, IH2, IH3.
Qed.

(** X1. A call [total_fakesize(v)] on any node of the chain reaches the
    base: with [v <> 0] it stores [v] and answers [v]; with [v = 0] (the
    default argument) it answers the stored value and stores nothing.  In
    both cases a following [total_fakesize()] answers the same value, and
    no container, [size_] or [fakesize_] is touched. *)
Theorem total_fakesize_store_then_read {A : Type} (v : N) (p : MixedProductor A) :
  snd (total_fakesize v p) = (if v =? 0 then read_total p else v) /\
  snd (total_fakesize 0 (fst (total_fakesize v p))) = snd (total_fakesize v p) /\
  fst (total_fakesize 0 p) = p /\
  containers (fst (total_fakesize v p)) = containers p /\
  fields (fst (total_fakesize v p)) = fields p.
Proof.
  destruct (total_fakesize_spec v p) as (H1 & H2 & H3).
  split; [exact H1|]. split; [|split; [|split; assumption]].
  - rewrite H1. exact (read_write_total v p).
  - exact (write_total_zero p).
Qed.

(** ** [gcd] *)

(** X2. [gcd] computes the greatest common divisor: its result divides
    both arguments, and every common divisor of the arguments divides
    it. *)
Theorem gcd_greatest_common_divisor (a b : N) :
  (gcd a b | a) /\ (gcd a b | b) /\
  forall d, (d | a) -> (d | b) -> (d | gcd a b).
Proof.
  rewrite gcd_spec. split; [apply N.gcd_divide_l|].
  split; [apply N.gcd_divide_r|]. intros d. apply N.gcd_greatest.
Qed.

(** ** [set_size], whatever the size of the product *)

(** X3. [set_size(0)] changes nothing.  For an observed length [n > 0],
    also when the search or the product wraps in [size_t]: [size_] becomes
    [n]; [fakesize_] becomes a nonzero value, coprime with the running
    total found when this was not 0; the running total left behind is not
    0; the containers are untouched. *)
Theorem set_size_always {A : Type} (c : list A) (s0 f0 : N)
        (r : MixedProductor A) (n : N) :
  0 < n < modulus ->
  read_total r < modulus ->
  let p' := set_size n (ProdNode c s0 f0 r) in
  set_size 0 (ProdNode c s0 f0 r) = ProdNode c s0 f0 r /\
  owner_size p' = n /\
  0 < owner_fakesize p' < modulus /\
  (read_total r <> 0 -> gcd (owner_fakesize p') (read_total r) = 1) /\
  (read_total r = 0 -> owner_fakesize p' = n) /\
  0 < read_total p' < modulus /\
  containers p' = c :: containers r.
Proof.
  intros Hn HT p'. split; [reflexivity|]. subst p'. unfold set_size.
  destruct (N.eqb_spec n 0) as [E|_]; [lia|].
  destruct (N.eqb_spec (read_total r) 0) as [ET|ET]; cbn [negb].
  - cbn [owner_size owner_fakesize containers].
    rewrite read_total_node, read_write_total.
    destruct (total_fakesize_spec n r) as (_ & Hc & _). unfold write_total.
    rewrite Hc. destruct (N.eqb_spec n 0); [lia|].
    repeat split; try lia; congruence.
  - pose proof (coprime_search_nonzero n _ ET ltac:(lia) ltac:(lia)) as Hf0.
    pose proof (coprime_search_lt n _ ET ltac:(lia)) as Hfm.
    pose proof (coprime_search_coprime n _ ET ltac:(lia)) as Hco.
    set (f := coprime_search n (read_total r)) in *.
    cbn [owner_size owner_fakesize containers].
    rewrite read_total_node, read_write_total.
    destruct (total_fakesize_spec (wrap (f * read_total r)) r) as (_ & Hc & _).
    unfold write_total. rewrite Hc.
    pose proof (wrap_lt (f * read_total r)) as Hw.
    destruct (N.eqb_spec (wrap (f * read_total r)) 0);
      repeat split; try lia; congruence.
Qed.

Lemma set_size_always_witness :
  0 < 4 < modulus /\ read_total (@ProdBase nat 2) < modulus /\
  owner_size (set_size 4 (ProdNode [0; 1; 2; 3]%nat 0 0 (ProdBase 2))) = 4.
Proof.
  assert (Hn : 0 < 4 < modulus) by (split; reflexivity).
  assert (HT : read_total (@ProdBase nat 2) < modulus) by reflexivity.
  split; [exact Hn|]. split; [exact HT|].
  destruct (set_size_always [0; 1; 2; 3]%nat 0 0 (ProdBase 2) 4 Hn HT)
    as (_ & H & _).
  exact H.
Defined.

(** ** [operator==] as a relation *)

Lemma iter_neq_sym (x y : Iterator) :
  length (cursors x) = length (cursors y) -> iter_neq x y = iter_neq y x.
Proof.
  intros Hlen. apply eq_true_iff_eq.
  rewrite (iter_neq_spec x y Hlen), (iter_neq_spec y x (eq_sym Hlen)).
  assert (Hnil : cursors x <> [] <-> cursors y <> [])
    by (destruct (cursors x), (cursors y); try discriminate; split; congruence).
  assert (Hall : forall l l' : list nat,
             Forall2 (fun i j => i <> j) l l' -> Forall2 (fun i j => i <> j) l' l)
    by (induction 1; constructor; auto).
  split; intros [H1 H2]; split; try (now apply Hnil); now apply Hall.
Qed.

(** X4. [operator==] holds between a cursor and itself and, for two
    cursors of one generator, does not depend on the side each is written
    on; but it is not transitive: it is not an equivalence on cursors. *)
Theorem iter_eq_reflexive_symmetric_not_transitive :
  (forall x, iter_eq x x = true) /\
  (forall x y, length (cursors x) = length (cursors y) ->
               iter_eq x y = iter_eq y x) /\
  ~ (forall x y z,
        length (cursors x) = length (cursors y) ->
        length (cursors y) = length (cursors z) ->
        iter_eq x y = true -> iter_eq y z = true -> iter_eq x z = true).
Proof.
  split; [|split].
  - intros [g|i b e rit cnt]; unfold iter_eq; cbn; [reflexivity|].
    now rewrite Nat.eqb_refl.
  - intros x y Hlen. unfold iter_eq. now rewrite (iter_neq_sym x y Hlen).
  - intros Htrans.
    specialize (Htrans (IterNode 0 0 6 (IterNode 1 0 3 (IterBase 0) 0) 0)
                       (IterNode 0 0 6 (IterNode 2 0 3 (IterBase 0) 0) 0)
                       (IterNode 5 0 6 (IterNode 2 0 3 (IterBase 0) 0) 0)
                       eq_refl eq_refl eq_refl eq_refl).
    discriminate.
Qed.

(** ** What a raw step leaves alone *)

(** The cached [begin] and [end] of the nodes, outer to inner. *)
Fixpoint bounds (it : Iterator) : list (nat * nat) :=
  match it with
  | IterBase _ => []
  | IterNode _ b e rit _ => (b, e) :: bounds rit
  end.

Lemma set_size_containers {A : Type} (n : N) (p : MixedProductor A) :
  containers (set_size n p) = containers p.
Proof.
  destruct p as [T|c sz fsz r]; [reflexivity|]. unfold set_size.
  destruct (n =? 0); [reflexivity|].
  destruct (negb (read_total r =? 0)); cbn [containers]; f_equal;
    apply total_fakesize_spec.
Qed.

Lemma do_increment_leaves {A : Type} (it : Iterator) :
  forall p : MixedProductor A,
    containers (fst (fst (do_increment p it))) = containers p /\
    bounds (snd (fst (do_increment p it))) = bounds it.
Proof.
  induction it as [g|i b e rit IH cnt]; intros p; [now split|].
  cbn [do_increment].
  assert (Hrest : forall q : MixedProductor A,
             containers q = containers p ->
             containers (with_rest q (fst (fst (do_increment (owner_rest q) rit))))
             = containers p).
  { intros q Hq. destruct (IH (owner_rest q)) as [Hc _].
    destruct q as [T|c sz fsz r]; cbn in *; [assumption|].
    now rewrite Hc. }
  assert (Hset : containers (set_size (wrap (cnt + 1)) p) = containers p)
    by apply set_size_containers.
  repeat match goal with
         | |- context [if ?b then _ else _] => destruct b
         end;
    match goal with
    | |- context [do_increment (owner_rest ?q) rit] =>
        specialize (Hrest q); destruct (IH (owner_rest q)) as [_ Hb];
        destruct (do_increment (owner_rest q) rit) as [[r2 rit2] fl]
    end; cbn [fst snd bounds] in *; split; try (now rewrite Hb);
    apply Hrest; assumption || reflexivity.
Qed.

(** X5. Whatever the generator and the cursor, a call of [do_increment]
    changes no container and no cached [begin] or [end] of any node. *)
Theorem do_increment_keeps_containers_and_bounds {A : Type}
        (p : MixedProductor A) (it : Iterator) :
  containers (fst (fst (do_increment p it))) = containers p /\
  bounds (snd (fst (do_increment p it))) = bounds it.
Proof. exact (do_increment_leaves it p). Qed.

(** ** Raw steps from [begin()] *)

(** Some node answers [true] to [is_fake()]. *)
Fixpoint any_fake {A : Type} (p : MixedProductor A) (it : Iterator) : bool :=
  match p, it with
  | ProdNode _ sz fsz r, IterNode _ _ _ rit cnt =>
      is_fake sz fsz cnt || any_fake r rit
  | _, _ => false
  end.

Lemma at_end_any_fake {A : Type} (n : N) (it : Iterator) :
  forall p : MixedProductor A, At n p it -> at_end it = any_fake p it.
Proof.
  induction it as [g|i b e rit IH cnt]; intros [T|c sz fsz r] H;
    try (cbn in H; contradiction); [reflexivity|].
  cbn [At] in H. destruct H as (_ & -> & Hs & Hnode & Hrest).
  cbn [at_end any_fake]. rewrite (IH r Hrest). f_equal.
  destruct Hnode as [(-> & -> & Hlt & -> & ->)|(Hf & Hfm & -> & Hge & -> & ->)].
  - rewrite (proj2 (is_fake_false_iff 0 0 n)) by now left.
    apply Nat.eqb_neq. lia.
  - pose proof (N.mod_lt n (N.max (N.of_nat (length c)) fsz) ltac:(lia)) as Hlt.
    set (cnt := n mod N.max (N.of_nat (length c)) fsz) in *.
    destruct (is_fake (N.of_nat (length c)) fsz cnt) eqn:Ef;
      [apply is_fake_true_iff in Ef; apply Nat.eqb_eq
      |apply is_fake_false_iff in Ef; apply Nat.eqb_neq]; lia.
Qed.

Lemma run_from_begin_at {A : Type} (cs : list (list A)) (k : nat) :
  walkable cs ->
  At (N.of_nat k)
     (fst (run k (mixed_product cs) (begin (mixed_product cs))))
     (snd (run k (mixed_product cs) (begin (mixed_product cs)))).
Proof.
  intros Hw. pose proof (run_at k _ _ 0 (At_begin cs Hw)) as H.
  now rewrite N.add_0_l in H.
Qed.

(** X6. The comment on [do_increment], "returns true if there is any
    iterator in fake state", holds along a traversal: after any number of
    raw steps from [begin()] over non-empty containers, the flag returned
    by the next [do_increment] is [true] exactly when, in the state it
    leaves, some node answers [true] to [is_fake()]; and this is exactly
    when some raw cursor is left on its [end]. *)
Theorem do_increment_flag_is_any_fake {A : Type} (cs : list (list A)) (k : nat) :
  walkable cs ->
  let p := fst (run k (mixed_product cs) (begin (mixed_product cs))) in
  let it := snd (run k (mixed_product cs) (begin (mixed_product cs))) in
  let p' := fst (fst (do_increment p it)) in
  let it' := snd (fst (do_increment p it)) in
  snd (do_increment p it) = any_fake p' it' /\
  snd (do_increment p it) = at_end it'.
Proof.
  intros Hw p it p' it'. subst p' it'.
  destruct (do_increment_at it p _ (run_from_begin_at cs k Hw))
    as (p' & it' & fl & E & _ & H' & Hfl).
  rewrite E. cbn [fst snd]. split; [|exact Hfl].
  rewrite Hfl. exact (at_end_any_fake _ it' p' H').
Qed.

Lemma do_increment_flag_is_any_fake_witness :
  walkable [[0; 1]; [0; 1; 2; 3]]%nat /\
  snd (do_increment
         (fst (run 3 (mixed_product [[0; 1]; [0; 1; 2; 3]]%nat)
                   (begin (mixed_product [[0; 1]; [0; 1; 2; 3]]%nat))))
         (snd (run 3 (mixed_product [[0; 1]; [0; 1; 2; 3]]%nat)
                   (begin (mixed_product [[0; 1]; [0; 1; 2; 3]]%nat)))))
  = true.
Proof.
  assert (Hw : walkable [[0; 1]; [0; 1; 2; 3]]%nat) by (repeat constructor).
  split; [exact Hw|].
  destruct (do_increment_flag_is_any_fake [[0; 1]; [0; 1; 2; 3]]%nat 3 Hw)
    as [H _].
  rewrite H. reflexivity.
Defined.

(** X7. The state after [k] raw steps from [begin()] over non-empty
    containers, in closed form ([At], [node_at]): a node whose container
    has [s] elements is unknown, with counter and raw cursor equal to [k],
    as long as [k < s]; from [k = s] on it has [size_ = s], a nonzero
    [fakesize_], its counter is [k mod max(s, fakesize_)] and its raw
    cursor is at position [min(counter, s)]; the cached [begin] and [end]
    are those of the container, the terminal counter is [k mod 2^64] and
    the running total is below [2^64]. *)
Theorem state_after_raw_steps {A : Type} (cs : list (list A)) (k : nat) :
  walkable cs ->
  At (N.of_nat k)
     (fst (run k (mixed_product cs) (begin (mixed_product cs))))
     (snd (run k (mixed_product cs) (begin (mixed_product cs)))).
Proof. exact (run_from_begin_at cs k). Qed.

Lemma state_after_raw_steps_witness :
  walkable [[0; 1]; [0; 1; 2; 3]]%nat /\
  At 5 (fst (run 5 (mixed_product [[0; 1]; [0; 1; 2; 3]]%nat)
                 (begin (mixed_product [[0; 1]; [0; 1; 2; 3]]%nat))))
       (snd (run 5 (mixed_product [[0; 1]; [0; 1; 2; 3]]%nat)
                 (begin (mixed_product [[0; 1]; [0; 1; 2; 3]]%nat)))).
Proof.
  assert (Hw : walkable [[0; 1]; [0; 1; 2; 3]]%nat) by (repeat constructor).
  split; [exact Hw|].
  exact (state_after_raw_steps [[0; 1]; [0; 1; 2; 3]]%nat 5 Hw).
Defined.

(** X8. What a node has discovered stays: between the states after [k]
    and after [k + j] raw steps from [begin()], the containers are the
    same and every node whose [fakesize_] was not 0 has kept its [size_]
    and its [fakesize_] ([Grows]). *)
Theorem discovered_lengths_are_kept {A : Type} (cs : list (list A)) (k j : nat) :
  walkable cs ->
  Grows (fst (run k (mixed_product cs) (begin (mixed_product cs))))
        (fst (run (k + j) (mixed_product cs) (begin (mixed_product cs)))).
Proof.
  intros Hw. rewrite run_add.
  exact (run_grows j _ _ _ (run_from_begin_at cs k Hw)).
Qed.

Lemma discovered_lengths_are_kept_witness :
  walkable [[0; 1]; [0; 1; 2; 3]]%nat /\
  Grows (fst (run 2 (mixed_product [[0; 1]; [0; 1; 2; 3]]%nat)
                  (begin (mixed_product [[0; 1]; [0; 1; 2; 3]]%nat))))
        (fst (run (2 + 5) (mixed_product [[0; 1]; [0; 1; 2; 3]]%nat)
                  (begin (mixed_product [[0; 1]; [0; 1; 2; 3]]%nat)))).
Proof.
  assert (Hw : walkable [[0; 1]; [0; 1; 2; 3]]%nat) by (repeat constructor).
  split; [exact Hw|].
  exact (discovered_lengths_are_kept [[0; 1]; [0; 1; 2; 3]]%nat 2 5 Hw).
Defined.

(** X9. As long as the product of the padded lengths known after [k] raw
    steps is below [2^64], the running total is exactly that product (and
    0 while no length is known), and the known padded lengths are pairwise
    coprime. *)
Theorem running_total_is_coprime_product {A : Type} (cs : list (list A))
        (k : nat) :
  walkable cs ->
  let p := fst (run k (mixed_product cs) (begin (mixed_product cs))) in
  prodN (pads p) < modulus ->
  read_total p = (if any_known p then prodN (pads p) else 0) /\
  pairwise_coprime (pads p).
Proof. intros Hw p Hsmall. exact (good_run cs k Hw Hsmall). Qed.

Lemma running_total_is_coprime_product_witness :
  walkable [[0; 1]; [0; 1; 2; 3]]%nat /\
  read_total (fst (run 4 (mixed_product [[0; 1]; [0; 1; 2; 3]]%nat)
                       (begin (mixed_product [[0; 1]; [0; 1; 2; 3]]%nat))))
  = 10.
Proof.
  assert (Hw : walkable [[0; 1]; [0; 1; 2; 3]]%nat) by (repeat constructor).
  split; [exact Hw|].
  destruct (running_total_is_coprime_product [[0; 1]; [0; 1; 2; 3]]%nat 4 Hw)
    as [H _]; [reflexivity|].
  rewrite H. reflexivity.
Defined.

(** ** The order of emission *)

Lemma traversal_emission {A : Type} (cs : list (list A)) :
  cs <> [] -> walkable cs -> no_wrap (settled cs) ->
  let p := mixed_product cs in
  let q := settled cs in
  let P := N.to_nat (prodN (pads q)) in
  let emitted_steps :=
    filter (fun k => inside (map (@length A) cs) (phases (pads q) k)) (seq 0 P) in
  exists l,
    traverse_count (S P) p (begin p) = Some (l, q, P) /\
    traverse (S P) p (begin p) = Some (l, q) /\
    Known q /\
    map cursors l = map (phases (pads q)) emitted_steps /\
    map global_counter l = map N.of_nat emitted_steps.
Proof.
  intros Hne Hw [Hpad Hsmall] p q P steps.
  pose proof (known_padded_fits _ (settled_known cs Hw) Hpad) as Hfits.
  destruct (traversal_result A cs Hne Hw Hfits Hsmall) as [Hrun Hcur].
  exists (visited p (begin p) P).
  split; [exact (traversal_count A cs Hne Hw Hfits Hsmall)|].
  split; [exact Hrun|]. split; [exact (settled_known cs Hw)|].
  split; [exact Hcur|].
  unfold visited. rewrite map_map.
  rewrite (filter_ext _ (fun k => inside (map (@length A) cs) (phases (pads q) k))).
  - apply map_ext_in. intros k Hk. apply filter_In in Hk. destruct Hk as [Hk _].
    apply in_seq in Hk.
    pose proof (At_global_counter _ _ _ (run_from_begin_at cs k Hw)) as Hg.
    fold p in Hg. rewrite Hg.
    apply wrap_small. unfold P, q in Hk. unfold settled in *. lia.
  - intros k. destruct (traversal_closed A cs Hw Hfits Hsmall k) as [H1 _].
    fold p in H1. rewrite H1. apply negb_involutive.
Qed.

(** X10. When the discoveries do not wrap, a traversal makes as many
    calls of [do_increment] as the product [P] of the padded lengths
    ([traverse_count], which is [traverse] with that count) and ends with
    every length known.  It emits, in increasing order of the raw step
    [k], the steps [k < P] whose phases [k mod padded_j] all lie below the
    true lengths, and the tuple emitted for [k] stands on the positions
    [k mod padded_j]. *)
Theorem emission_order {A : Type} (cs : list (list A)) :
  cs <> [] -> walkable cs -> no_wrap (settled cs) ->
  let p := mixed_product cs in
  let q := settled cs in
  let P := N.to_nat (prodN (pads q)) in
  let emitted_steps :=
    filter (fun k => inside (map (@length A) cs) (phases (pads q) k)) (seq 0 P) in
  exists l,
    traverse_count (S P) p (begin p) = Some (l, q, P) /\
    traverse (S P) p (begin p) = Some (l, q) /\
    Known q /\
    map cursors l = map (phases (pads q)) emitted_steps /\
    map global_counter l = map N.of_nat emitted_steps.
Proof. exact (traversal_emission cs). Qed.

Lemma emission_order_witness :
  exists l,
    traverse_count 11 (mixed_product [[0; 1]; [0; 1; 2; 3]]%nat)
                   (begin (mixed_product [[0; 1]; [0; 1; 2; 3]]%nat))
    = Some (l, settled [[0; 1]; [0; 1; 2; 3]]%nat, 10%nat) /\
    map global_counter l = [0; 1; 2; 3; 5; 6; 7; 8].
Proof.
  assert (Hne : [[0; 1]; [0; 1; 2; 3]]%nat <> []) by discriminate.
  assert (Hw : walkable [[0; 1]; [0; 1; 2; 3]]%nat) by (repeat constructor).
  assert (Hnw : no_wrap (settled [[0; 1]; [0; 1; 2; 3]]%nat))
    by (vm_compute; repeat split; solve [discriminate | right; discriminate]).
  destruct (emission_order [[0; 1]; [0; 1; 2; 3]]%nat Hne Hw Hnw)
    as (l & Hcount & _ & _ & _ & Hsteps).
  exists l. split; [exact Hcount|exact Hsteps].
Defined.

(** ** A traversal always ends, and reads elements only *)

Lemma pick_defined {A : Type} (n : N) (it : Iterator) :
  forall p : MixedProductor A,
    At n p it -> at_end it = false ->
    exists t, pick (containers p) (cursors it) = Some t /\
              length t = length (containers p).
Proof.
  induction it as [g|i b e rit IH cnt]; intros [T|c sz fsz r] H Hfree;
    try (cbn in H; contradiction).
  - exists []. now split.
  - cbn [At] in H. destruct H as (_ & -> & Hs & Hnode & Hrest).
    cbn [at_end] in Hfree. apply orb_false_iff in Hfree.
    destruct Hfree as [Hi Hfree]. apply Nat.eqb_neq in Hi.
    destruct (IH r Hrest Hfree) as (t & Ht & Hlen).
    assert (Hlt : (i < length c)%nat).
    { destruct Hnode as [(_ & _ & ? & _ & ->)|(_ & _ & _ & _ & _ & ->)]; lia. }
    destruct (nth_error c i) as [x|] eqn:Ex;
      [|apply nth_error_None in Ex; lia].
    exists (x :: t). cbn [containers cursors pick length].
    rewrite Ex, Ht, Hlen. now split.
Qed.

Lemma traverse_walkable {A : Type} (cs : list (list A)) :
  cs <> [] -> walkable cs ->
  exists d,
    traverse (S (S d)) (mixed_product cs) (begin (mixed_product cs))
    = Some (visited (mixed_product cs) (begin (mixed_product cs)) (S d),
            fst (run (S d) (mixed_product cs) (begin (mixed_product cs)))).
Proof.
  intros Hne Hw. set (p := mixed_product cs).
  destruct (finished_eventually p (begin p) 0 (At_begin cs Hw)) as [d0 Hd0].
  destruct (least_below
              (fun d => finished (fst (run (S d) p (begin p)))
                                 (snd (run (S d) p (begin p))) = true)
              (fun d => bool_dec _ _) d0 Hd0) as (d & _ & Hd & Hleast).
  exists d. apply (traverse_run d p (begin p) 0 (At_begin cs Hw)).
  - unfold p. destruct cs; [contradiction|reflexivity].
  - apply at_end_begin, Hw.
  - intros k Hk. destruct k as [|k]; [lia|].
    apply not_true_is_false, Hleast. lia.
  - exact Hd.
Qed.

(** X11. Over one or more containers whose lengths are values of
    [size_t] (empty ones included), a range-for over the generator always
    reaches [end()], also when the running total wraps; and every cursor
    it hands to [operator*] stands on an element of each container: the
    tuple is defined and has one component per container. *)
Theorem traversal_ends_and_reads_elements {A : Type} (cs : list (list A)) :
  cs <> [] ->
  Forall (fun c => N.of_nat (length c) < modulus) cs ->
  exists fuel l q,
    traverse fuel (mixed_product cs) (begin (mixed_product cs)) = Some (l, q) /\
    Forall (fun it => exists t, deref (mixed_product cs) it = Some t /\
                                length t = length cs) l.
Proof.
  intros Hne Hlen.
  destruct (Exists_dec (fun c : list A => length c = 0%nat) cs
              (fun c => Nat.eq_dec _ _)) as [Hempty|Hfull].
  - exists 1%nat, [], (mixed_product cs). split; [|constructor].
    apply Exists_exists in Hempty. destruct Hempty as (c & Hc & E).
    destruct c; [|discriminate].
    rewrite traverse_succ. now rewrite (begin_neq_end_of_empty cs Hc).
  - assert (Hw : walkable cs).
    { apply Forall_forall. intros c Hc. split.
      - destruct (Nat.eq_dec (length c) 0) as [E|E]; [|lia].
        exfalso. apply Hfull, Exists_exists. now exists c.
      - revert c Hc. now apply Forall_forall. }
    destruct (traverse_walkable cs Hne Hw) as [d Hrun].
    exists (S (S d)). eexists. eexists. split; [exact Hrun|].
    apply Forall_forall. intros it Hit. unfold visited in Hit.
    apply in_map_iff in Hit. destruct Hit as (k & <- & Hk).
    apply filter_In in Hk. destruct Hk as [_ Hk]. apply negb_true_iff in Hk.
    pose proof (run_from_begin_at cs k Hw) as Hat.
    destruct (pick_defined _ _ _ Hat Hk) as (t & Ht & Hlt).
    rewrite (run_containers k _ _ 0 (At_begin cs Hw)) in Ht, Hlt.
    rewrite containers_mixed_product in Hlt.
    exists t. rewrite deref_cursors. now split.
Qed.

Lemma traversal_ends_and_reads_elements_witness :
  [[0; 1]; [0; 1; 2]]%nat <> [] /\
  Forall (fun c => N.of_nat (length c) < modulus) [[0; 1]; [0; 1; 2]]%nat /\
  exists fuel l q,
    traverse fuel (mixed_product [[0; 1]; [0; 1; 2]]%nat)
             (begin (mixed_product [[0; 1]; [0; 1; 2]]%nat)) = Some (l, q).
Proof.
  assert (Hne : [[0; 1]; [0; 1; 2]]%nat <> []) by discriminate.
  assert (H : Forall (fun c => N.of_nat (length c) < modulus)
                     [[0; 1]; [0; 1; 2]]%nat) by (repeat constructor).
  split; [exact Hne|]. split; [exact H|].
  destruct (traversal_ends_and_reads_elements [[0; 1]; [0; 1; 2]]%nat Hne H)
    as (fuel & l & q & Hrun & _).
  exists fuel, l, q. exact Hrun.
Defined.

(** ** Pairwise coprime lengths: no padding *)

(** The container lengths, outer to inner. *)
Fixpoint lens {A : Type} (p : MixedProductor A) : list N :=
  match p with
  | ProdBase _ => []
  | ProdNode c _ _ r => N.of_nat (length c) :: lens r
  end.

(** Every known padded length is the true length. *)
Fixpoint Exact {A : Type} (p : MixedProductor A) : Prop :=
  match p with
  | ProdBase _ => True
  | ProdNode c _ fsz r =>
      (fsz = 0 \/ fsz = N.of_nat (length c)) /\ Exact r
  end.

Lemma exact_pads {A : Type} (p : MixedProductor A) :
  Exact p -> Forall (fun l => l <> 0) (lens p) ->
  Forall2 (fun g l => g = 1 \/ g = l) (pads p) (lens p) /\
  prodN (pads p) <= prodN (lens p).
Proof.
  induction p as [T|c sz fsz r IH]; cbn [Exact lens pads prodN fold_right].
  - intros _ _. split; [constructor|cbn; lia].
  - intros [Hf Hr] Hnz. apply Forall_cons_iff in Hnz. destruct Hnz as [Hc Hnz].
    destruct (IH Hr Hnz) as [IH1 IH2].
    fold (prodN (pads r)) (prodN (lens r)).
    assert (Hp : pad fsz = 1 \/ pad fsz = N.of_nat (length c)).
    { destruct Hf as [-> | ->]; [now left|right].
      unfold pad. apply N.eqb_neq in Hc. now rewrite Hc. }
    split; [now constructor|].
    destruct Hp as [-> | ->]; nia.
Qed.

Lemma exact_pads_coprime {A : Type} (x : N) (p : MixedProductor A) :
  Exact p -> Forall (fun l => l <> 0) (lens p) ->
  Forall (fun l => N.gcd x l = 1) (lens p) ->
  Forall (fun g => N.gcd x g = 1) (pads p).
Proof.
  intros He Hnz Hco. destruct (exact_pads p He Hnz) as [H2 _].
  clear He Hnz. revert Hco. induction H2 as [|g l gs ls Hg _ IH]; intros Hco; constructor.
  - apply Forall_cons_iff in Hco. destruct Hco as [Hl _].
    destruct Hg as [-> | ->]; [apply Ngcd_1_r|exact Hl].
  - apply IH. now apply Forall_cons_iff in Hco.
Qed.

(** With pairwise coprime lengths whose product is below [2^64], a step
    keeps every padded length equal to the true length and the running
    total equal to the product of the known lengths. *)
Lemma discover_exact {A : Type} (t : N) (r : MixedProductor A) :
  t <> 0 ->
  forall T X (ax : bool),
    T = (if ax || any_known r then X * prodN (pads r) else 0) ->
    X <> 0 -> (ax = false -> X = 1) ->
    Exact r ->
    Forall (fun l => l <> 0) (lens r) ->
    Forall (fun l => N.gcd l X = 1) (lens r) ->
    pairwise_coprime (lens r) ->
    X * prodN (lens r) < modulus ->
    Exact (fst (discover t T r)) /\
    snd (discover t T r)
    = (if ax || any_known (fst (discover t T r))
       then X * prodN (pads (fst (discover t T r))) else 0).
Proof.
  intros Ht. induction r as [T0|c sz fsz r IH];
    intros T X ax HT HX Hax He Hnz HcoX Hpw Hfit.
  - cbn in *. split; [exact I|exact HT].
  - cbn [Exact lens pads any_known pairwise_coprime prodN fold_right] in *.
    fold (prodN (pads r)) (prodN (lens r)) in *.
    destruct He as [Hf He]. destruct Hpw as [Hhead Hpw].
    apply Forall_cons_iff in Hnz. destruct Hnz as [Hc Hnz].
    apply Forall_cons_iff in HcoX. destruct HcoX as [HcX HcoX].
    set (s := N.of_nat (length c)) in *.
    destruct (exact_pads r He Hnz) as [_ Hle].
    pose proof (exact_pads_coprime s r He Hnz Hhead) as Hspads.
    pose proof (prodN_nonzero _ (pads_nonzero r)) as Hpnz.
    pose proof (prodN_nonzero _ Hnz) as Hlnz.
    assert (Hs : s < modulus).
    { eapply N.le_lt_trans; [|exact Hfit].
      replace s with (1 * (s * 1)) at 1 by lia.
      apply N.mul_le_mono; [lia|apply N.mul_le_mono_l; lia]. }
    (* the node: new fakesize_, new total, in the shape the rest needs *)
    assert (Hnode : exists sz' fsz' v,
               node_discover t s sz fsz T = (sz', fsz', v) /\
               (fsz' = 0 \/ fsz' = s) /\
               (if v =? 0 then T else v)
               = (if (ax || negb (fsz' =? 0)) || any_known r
                  then (X * pad fsz') * prodN (pads r) else 0) /\
               (ax || negb (fsz' =? 0) = false -> X * pad fsz' = 1) /\
               (pad fsz' = 1 \/ pad fsz' = s)).
    { unfold node_discover.
      destruct ((fsz =? 0) && (s =? t)) eqn:Edue.
      - apply andb_true_iff in Edue. destruct Edue as [Ef Es].
        apply N.eqb_eq in Ef, Es. subst fsz. rewrite <- Es in *.
        cbn [N.eqb negb orb] in HT. change (pad 0) with 1 in HT.
        rewrite N.mul_1_l in HT.
        assert (Ep : pad s = s)
          by (unfold pad; apply N.eqb_neq in Hc; now rewrite Hc).
        apply N.eqb_neq in Hc as Hc'.
        destruct (N.eqb_spec T 0) as [ET|ET]; cbn [negb].
        + assert (Hnone : ax || any_known r = false).
          { destruct (ax || any_known r); [|reflexivity]. subst T. lia. }
          apply orb_false_iff in Hnone. destruct Hnone as [Eax Eany].
          exists s, s, s. rewrite Hc', Ep, Eax, Eany. cbn [negb orb].
          rewrite (Hax Eax), (prodN_ones _ (pads_unknown r Eany)).
          repeat split; auto; try lia; try discriminate.
        + assert (Hsome : ax || any_known r = true).
          { destruct (ax || any_known r); [reflexivity|]. now subst T. }
          rewrite Hsome in HT.
          assert (Hco : gcd s T = 1).
          { rewrite gcd_spec. subst T. apply Ngcd_mul; [exact HcX|].
            now apply coprime_prodN. }
          rewrite (coprime_search_hit s T ET Hs Hco).
          assert (HsT : s * T < modulus) by (subst T; nia).
          rewrite wrap_small by exact HsT.
          exists s, s, (s * T). rewrite Hc', Ep. cbn [negb].
          rewrite orb_true_r. cbn [orb].
          destruct (N.eqb_spec (s * T) 0) as [E0|_]; [nia|].
          repeat split; auto; try (subst T; lia); try discriminate.
      - exists sz, fsz, 0. cbn [N.eqb]. rewrite orb_assoc in HT.
        rewrite <- N.mul_assoc.
        assert (Hp : pad fsz = 1 \/ pad fsz = s).
        { destruct Hf as [-> | ->]; [now left|right].
          unfold pad. apply N.eqb_neq in Hc. now rewrite Hc. }
        repeat split; auto.
        intros Hnone. apply orb_false_iff in Hnone. destruct Hnone as [Eax Ekn].
        apply negb_false_iff in Ekn. unfold pad. rewrite Ekn, (Hax Eax).
        reflexivity. }
    destruct Hnode as (sz' & fsz' & v & Enode & Hf' & HT1 & Hax' & Hp').
    cbn [discover]. fold s. rewrite Enode.
    assert (Hpad_le : pad fsz' <= s) by (destruct Hp' as [-> | ->]; lia).
    pose proof (pad_nonzero fsz') as Hpad_nz.
    destruct (IH (if v =? 0 then T else v) (X * pad fsz')
                 (ax || negb (fsz' =? 0))) as [He' HT'].
    + exact HT1.
    + lia.
    + exact Hax'.
    + exact He.
    + exact Hnz.
    + apply Forall_forall. intros l Hl. apply Ngcd_mul.
      * revert l Hl. now apply Forall_forall.
      * destruct Hp' as [-> | ->]; [apply Ngcd_1_r|].
        rewrite N.gcd_comm. revert l Hl. now apply Forall_forall.
    + exact Hpw.
    + eapply N.le_lt_trans; [|exact Hfit].
      rewrite <- N.mul_assoc. apply N.mul_le_mono_l, N.mul_le_mono_r, Hpad_le.
    + destruct (discover t (if v =? 0 then T else v) r) as [r' Tf].
      cbn [fst snd Exact any_known pads prodN fold_right] in *.
      fold (prodN (pads r')). fold s. split; [now split|].
      rewrite HT', orb_assoc, N.mul_assoc. reflexivity.
Qed.

Lemma lens_containers {A : Type} (p : MixedProductor A) :
  lens p = map (fun c => N.of_nat (length c)) (containers p).
Proof. induction p; cbn; congruence. Qed.

Lemma exact_known_pads {A : Type} (p : MixedProductor A) :
  Exact p -> Known p -> pads p = lens p /\ Padded p.
Proof.
  induction p as [T|c sz fsz r IH]; cbn; [auto|].
  intros [Hf He] [Hk Hr]. destruct (IH He Hr) as [E Hp].
  destruct Hf as [-> | ->]; [contradiction|].
  unfold pad. apply N.eqb_neq in Hk. rewrite Hk, E. split; [reflexivity|].
  split; [right; lia|exact Hp].
Qed.

Section CoprimeLengths.

Variable A : Type.
Variable cs : list (list A).
Hypothesis cs_nonempty : cs <> [].
Hypothesis cs_walkable : walkable cs.
Hypothesis cs_coprime :
  pairwise_coprime (map (fun c => N.of_nat (length c)) cs).
Hypothesis cs_small :
  prodN (map (fun c => N.of_nat (length c)) cs) < modulus.

Let p := mixed_product cs.

Lemma coprime_lens (k : nat) :
  lens (fst (run k p (begin p))) = map (fun c => N.of_nat (length c)) cs.
Proof.
  rewrite lens_containers.
  rewrite (run_containers k p (begin p) 0 (At_begin cs cs_walkable)).
  unfold p. now rewrite containers_mixed_product.
Qed.

Lemma coprime_lens_nonzero :
  Forall (fun l => l <> 0) (map (fun c => N.of_nat (length c)) cs).
Proof.
  apply Forall_map. revert cs_walkable. apply Forall_impl. intros c Hc. lia.
Qed.

Lemma coprime_exact (k : nat) :
  Exact (fst (run k p (begin p))) /\
  read_total (fst (run k p (begin p)))
  = (if any_known (fst (run k p (begin p)))
     then prodN (pads (fst (run k p (begin p)))) else 0).
Proof.
  induction k as [|k [IHe IHt]].
  - cbn [run fst]. split.
    + unfold p. clear. induction cs; cbn; auto.
    + apply good_begin.
  - pose proof (run_step k p (begin p) 0 (At_begin cs cs_walkable)) as Hd.
    cbv zeta in Hd.
    destruct (discover_exact (0 + N.of_nat k + 1) (fst (run k p (begin p)))
                ltac:(lia) (read_total (fst (run k p (begin p)))) 1 false)
      as [He Ht].
    + cbn [orb]. now rewrite N.mul_1_l.
    + discriminate.
    + reflexivity.
    + exact IHe.
    + rewrite coprime_lens. apply coprime_lens_nonzero.
    + apply Forall_forall. intros l _. apply Ngcd_1_r.
    + rewrite coprime_lens. exact cs_coprime.
    + rewrite coprime_lens, N.mul_1_l. exact cs_small.
    + rewrite Hd in He, Ht. cbn [fst snd orb] in He, Ht.
      split; [exact He|]. rewrite Ht. now rewrite N.mul_1_l.
Qed.

Lemma coprime_settled :
  pads (settled cs) = map (fun c => N.of_nat (length c)) cs /\
  no_wrap (settled cs).
Proof.
  assert (Es : settled cs = fst (run (N.to_nat (smax p)) p (begin p)))
    by reflexivity.
  destruct (coprime_exact (N.to_nat (smax p))) as [He _].
  pose proof (settled_known cs cs_walkable) as Hk. rewrite Es in *.
  destruct (exact_known_pads _ He Hk) as [E Hp].
  rewrite coprime_lens in E. split; [exact E|].
  split; [exact Hp|]. rewrite E. exact cs_small.
Qed.

End CoprimeLengths.

Lemma filter_all {X : Type} (f : X -> bool) (l : list X) :
  (forall x, f x = true) -> filter f l = l.
Proof.
  intros H. induction l as [|x l IH]; [reflexivity|].
  cbn. now rewrite H, IH.
Qed.

Lemma phases_of_lengths {A : Type} (cs : list (list A)) (k : nat) :
  phases (map (fun c => N.of_nat (length c)) cs) k
  = map (fun c => (k mod length c)%nat) cs.
Proof.
  unfold phases. rewrite map_map. apply map_ext. intros c.
  now rewrite N2Nat.inj_mod, !Nat2N.id.
Qed.

Lemma phases_inside_lengths {A : Type} (cs : list (list A)) (k : nat) :
  walkable cs ->
  inside (map (@length A) cs)
         (phases (map (fun c => N.of_nat (length c)) cs) k) = true.
Proof.
  intros Hw. rewrite phases_of_lengths. apply inside_spec.
  induction Hw as [|c l Hc _ IH]; cbn [map]; constructor; [|exact IH].
  apply Nat.mod_upper_bound. lia.
Qed.

(** X12. When the lengths of the containers are pairwise coprime and
    their product [P] is below [2^64], no padding is added and no raw step
    is passed over: a traversal emits [P] tuples, the tuple of rank [k]
    after exactly [k] raw steps, standing in each container on position
    [k mod length]. *)
Theorem coprime_lengths_emit_every_step {A : Type} (cs : list (list A)) :
  cs <> [] -> walkable cs ->
  pairwise_coprime (map (fun c => N.of_nat (length c)) cs) ->
  prodN (map (fun c => N.of_nat (length c)) cs) < modulus ->
  let p := mixed_product cs in
  let P := fold_right Nat.mul 1%nat (map (@length A) cs) in
  exists l,
    traverse (S P) p (begin p) = Some (l, settled cs) /\
    pads (settled cs) = map (fun c => N.of_nat (length c)) cs /\
    map cursors l
    = map (fun k => map (fun c => (k mod length c)%nat) cs) (seq 0 P) /\
    map global_counter l = map N.of_nat (seq 0 P).
Proof.
  intros Hne Hw Hco Hsmall p P.
  destruct (coprime_settled A cs Hw Hco Hsmall) as [E Hnw].
  destruct (traversal_emission cs Hne Hw Hnw)
    as (l & _ & Hrun & _ & Hcur & Hsteps).
  cbv zeta in Hrun, Hcur, Hsteps. rewrite E in Hrun, Hcur, Hsteps.
  assert (EP : N.to_nat (prodN (map (fun c => N.of_nat (length c)) cs)) = P).
  { rewrite <- to_nat_prodN, map_map. unfold P. f_equal.
    apply map_ext. intros c. apply Nat2N.id. }
  rewrite EP in Hrun, Hcur, Hsteps.
  rewrite filter_all in Hcur, Hsteps
    by (intros k; now apply phases_inside_lengths).
  exists l. split; [exact Hrun|]. split; [exact E|]. split; [|exact Hsteps].
  rewrite Hcur. apply map_ext. intros k. apply phases_of_lengths.
Qed.

Lemma coprime_lengths_emit_every_step_witness :
  exists l,
    traverse 7 (mixed_product [[0; 1]; [10; 11; 12]]%nat)
             (begin (mixed_product [[0; 1]; [10; 11; 12]]%nat))
    = Some (l, settled [[0; 1]; [10; 11; 12]]%nat) /\
    map cursors l
    = [[0; 0]; [1; 1]; [0; 2]; [1; 0]; [0; 1]; [1; 2]]%nat.
Proof.
  assert (Hne : [[0; 1]; [10; 11; 12]]%nat <> []) by discriminate.
  assert (Hw : walkable [[0; 1]; [10; 11; 12]]%nat) by (repeat constructor).
  assert (Hco : pairwise_coprime
                  (map (fun c => N.of_nat (length c)) [[0; 1]; [10; 11; 12]]%nat))
    by (cbn; repeat constructor).
  assert (Hs : prodN (map (fun c => N.of_nat (length c))
                          [[0; 1]; [10; 11; 12]]%nat) < modulus)
    by reflexivity.
  destruct (coprime_lengths_emit_every_step [[0; 1]; [10; 11; 12]]%nat
              Hne Hw Hco Hs) as (l & Hrun & _ & Hcur & _).
  exists l. split; [exact Hrun|exact Hcur].
Defined.

(** ** When lengths get known *)

Lemma discover_by_set_size {A : Type} (t : N) (c : list A) (sz fsz : N)
      (r : MixedProductor A) :
  t <> 0 ->
  fst (discover t (read_total r) (ProdNode c sz fsz r))
  = if (fsz =? 0) && (N.of_nat (length c) =? t)
    then
      let p1 := set_size t (ProdNode c sz fsz r) in
      with_rest p1 (fst (discover t (read_total p1) (owner_rest p1)))
    else ProdNode c sz fsz (fst (discover t (read_total r) r)).
Proof.
  intros Ht. apply N.eqb_neq in Ht as Ht'.
  cbn [discover]. unfold node_discover, set_size. rewrite Ht'.
  destruct ((fsz =? 0) && (N.of_nat (length c) =? t)).
  - destruct (negb (read_total r =? 0)); cbv zeta;
      cbn [owner_rest with_rest]; rewrite read_total_node, read_write_total,
        discover_write_total;
      match goal with
      | |- context [discover t ?T' r] => destruct (discover t T' r)
      end; reflexivity.
  - cbn [N.eqb]. destruct (discover t (read_total r) r). reflexivity.
Qed.

(** X13. The generator side of a raw step does not depend on the
    cursors: at raw step [k + 1] from [begin()] over non-empty containers,
    [set_size(k + 1)] runs on exactly the nodes whose container has
    [k + 1] elements and whose length is still unknown, outer nodes first,
    and nothing else of the generator changes ([discover], which is
    [set_size] on those nodes and the identity on the others). *)
Theorem raw_step_discovers_by_length {A : Type} (cs : list (list A)) (k : nat) :
  walkable cs ->
  let p := fst (run k (mixed_product cs) (begin (mixed_product cs))) in
  let p' := fst (run (S k) (mixed_product cs) (begin (mixed_product cs))) in
  discover (N.of_nat k + 1) (read_total p) p = (p', read_total p') /\
  (forall t (c : list A) sz fsz r,
      t <> 0 ->
      fst (discover t (read_total r) (ProdNode c sz fsz r))
      = if (fsz =? 0) && (N.of_nat (length c) =? t)
        then
          let p1 := set_size t (ProdNode c sz fsz r) in
          with_rest p1 (fst (discover t (read_total p1) (owner_rest p1)))
        else ProdNode c sz fsz (fst (discover t (read_total r) r))) /\
  (forall t T, discover t T (@ProdBase A T) = (ProdBase T, T)).
Proof.
  intros Hw p p'. split; [|split].
  - pose proof (run_step k _ _ 0 (At_begin cs Hw)) as Hd. cbv zeta in Hd.
    now rewrite N.add_0_l in Hd.
  - intros t c sz fsz r Ht. now apply discover_by_set_size.
  - reflexivity.
Qed.

Lemma raw_step_discovers_by_length_witness :
  walkable [[0; 1]; [0; 1; 2; 3]]%nat /\
  fst (discover 4 2
         (fst (run 3 (mixed_product [[0; 1]; [0; 1; 2; 3]]%nat)
                   (begin (mixed_product [[0; 1]; [0; 1; 2; 3]]%nat)))))
  = fst (run 4 (mixed_product [[0; 1]; [0; 1; 2; 3]]%nat)
             (begin (mixed_product [[0; 1]; [0; 1; 2; 3]]%nat))).
Proof.
  assert (Hw : walkable [[0; 1]; [0; 1; 2; 3]]%nat) by (repeat constructor).
  split; [exact Hw|].
  destruct (raw_step_discovers_by_length [[0; 1]; [0; 1; 2; 3]]%nat 3 Hw)
    as (H & _).
  exact (f_equal fst H).
Defined.

(** X14. Along the raw steps from [begin()] over non-empty containers,
    [all_sizes_discovered()] answers [true] exactly from the raw step
    equal to the longest length on. *)
Theorem all_sizes_discovered_from_longest {A : Type} (cs : list (list A))
        (k : nat) :
  walkable cs ->
  all_sizes_discovered
    (fst (run k (mixed_product cs) (begin (mixed_product cs))))
    (snd (run k (mixed_product cs) (begin (mixed_product cs)))) = true
  <-> smax (mixed_product cs) <= N.of_nat k.
Proof.
  intros Hw. pose proof (run_from_begin_at cs k Hw) as Hat.
  assert (Hmax : smax (fst (run k (mixed_product cs) (begin (mixed_product cs))))
                 = smax (mixed_product cs))
    by (apply smax_containers, (run_containers k _ _ 0 (At_begin cs Hw))).
  split.
  - intros Hall. destruct (N.le_gt_cases (smax (mixed_product cs)) (N.of_nat k))
      as [Hle|Hgt]; [exact Hle|].
    rewrite (undiscovered_before_smax _ _ _ Hat) in Hall by lia. discriminate.
  - intros Hle. apply (all_sizes_discovered_known _ _ _ Hat).
    apply (At_known _ _ _ Hat). lia.
Qed.

Lemma all_sizes_discovered_from_longest_witness :
  walkable [[0; 1]; [0; 1; 2; 3]]%nat /\
  all_sizes_discovered
    (fst (run 4 (mixed_product [[0; 1]; [0; 1; 2; 3]]%nat)
              (begin (mixed_product [[0; 1]; [0; 1; 2; 3]]%nat))))
    (snd (run 4 (mixed_product [[0; 1]; [0; 1; 2; 3]]%nat)
              (begin (mixed_product [[0; 1]; [0; 1; 2; 3]]%nat)))) = true.
Proof.
  assert (Hw : walkable [[0; 1]; [0; 1; 2; 3]]%nat) by (repeat constructor).
  split; [exact Hw|].
  apply (all_sizes_discovered_from_longest [[0; 1]; [0; 1; 2; 3]]%nat 4 Hw).
  discriminate.
Defined.

(** ** [begin()] against [end()] *)

Lemma begin_neq_end_iff {A : Type} (cs : list (list A)) :
  iter_neq (begin (mixed_product cs)) (end_ (mixed_product cs)) = true <->
  cs <> [] /\ ~ In [] cs.
Proof.
  split.
  - intros Hneq. split.
    + intros ->. discriminate.
    + intros Hin. rewrite (begin_neq_end_of_empty cs Hin) in Hneq. discriminate.
  - intros [Hne Hfull]. induction cs as [|c rest IH]; [contradiction|].
    cbn [mixed_product begin end_ iter_neq].
    apply andb_true_iff. split.
    + destruct c; [exfalso; apply Hfull; now left|reflexivity].
    + destruct rest as [|c' rest']; [reflexivity|].
      apply orb_true_iff. right. apply IH; [discriminate|].
      intros Hin. apply Hfull. now right.
Qed.

(** X15. For one or more containers, [begin() != end()] holds exactly
    when none of the containers is empty. *)
Theorem begin_differs_from_end_iff_all_nonempty {A : Type} (cs : list (list A)) :
  cs <> [] ->
  iter_neq (begin (mixed_product cs)) (end_ (mixed_product cs)) = true <->
  ~ In [] cs.
Proof. intros Hne. rewrite begin_neq_end_iff. tauto. Qed.

Lemma begin_differs_from_end_iff_all_nonempty_witness :
  [[0; 1]; [10; 11; 12]]%nat <> [] /\
  iter_neq (begin (mixed_product [[0; 1]; [10; 11; 12]]%nat))
           (end_ (mixed_product [[0; 1]; [10; 11; 12]]%nat)) = true.
Proof.
  assert (Hne : [[0; 1]; [10; 11; 12]]%nat <> []) by discriminate.
  split; [exact Hne|].
  apply (begin_differs_from_end_iff_all_nonempty [[0; 1]; [10; 11; 12]]%nat Hne).
  intros [H|[H|[]]]; discriminate.
Defined.

(** ** [operator++(int)] *)

(** [auto ret = *this; ++*this; return ret;]: the generator and the cursor
    after the advance, and the returned copy. *)
Definition operator_post_incr {A : Type} (fuel : nat) (p : MixedProductor A)
           (it : Iterator)
  : option (MixedProductor A * Iterator * Iterator) :=
  let ret := it in
  match operator_incr fuel p it with
  | Some (p', it') => Some (p', it', ret)
  | None => None
  end.

Lemma end_containers {A : Type} (p q : MixedProductor A) :
  containers p = containers q -> end_ p = end_ q.
Proof.
  revert q. induction p as [T|c sz fsz r IH]; intros [T'|c' sz' fsz' r'] E;
    try discriminate; [reflexivity|].
  cbn in *. injection E as -> E. now rewrite (IH r' E).
Qed.

Lemma operator_incr_containers {A : Type} (fuel : nat) :
  forall (p : MixedProductor A) it p' it',
    operator_incr fuel p it = Some (p', it') -> containers p' = containers p.
Proof.
  induction fuel as [|fuel IH]; intros p it p' it' Hrun; [discriminate|].
  cbn [operator_incr] in Hrun.
  destruct (do_increment_leaves it p) as [Hc _].
  destruct (do_increment p it) as [[p1 it1] fl]. cbn [fst] in Hc.
  destruct (all_sizes_discovered p1 it1 && (global_counter it1 =? read_total p1)).
  - injection Hrun as <- _. exact Hc.
  - destruct fl.
    + rewrite (IH _ _ _ _ Hrun). exact Hc.
    + injection Hrun as <- _. exact Hc.
Qed.

Lemma reachable_containers {A : Type} (cs : list (list A)) p it :
  Reachable cs p it -> containers p = cs.
Proof.
  induction 1 as [|p it fuel p' it' _ IH _ Hrun].
  - apply containers_mixed_product.
  - now rewrite (operator_incr_containers fuel p it p' it' Hrun).
Qed.

(** X16. On every cursor a range-for can hold and that differs from
    [end()], [it++] returns (with enough fuel for its [operator++]).  The
    cursor it answers is the one held before the advance: it read a tuple
    with one component per container before the advance, and it still
    reads the same tuple in the generator the advance leaves, lengths
    discovered on the way included; [end()] is the same cursor before and
    after. *)
Theorem post_increment_returns_old_cursor {A : Type} (cs : list (list A))
        (p : MixedProductor A) (it : Iterator) :
  Forall (fun c => N.of_nat (length c) < modulus) cs ->
  Reachable cs p it -> iter_neq it (end_ p) = true ->
  exists fuel p' it' t,
    operator_post_incr fuel p it = Some (p', it', it) /\
    deref p it = Some t /\ length t = length cs /\
    deref p' it = Some t /\
    end_ p' = end_ p.
Proof.
  intros Hlen Hreach Hneq.
  destruct (reachable_at cs p it Hlen Hreach Hneq) as [n H].
  destruct (finished_eventually p it n H) as [d Hd].
  destruct (operator_incr_terminates d p it n H Hd) as [[p' it'] Hrun].
  pose proof (operator_incr_containers _ p it p' it' Hrun) as Hc.
  assert (Hfree : at_end it = false).
  { rewrite (iter_neq_end_at n it p H) in Hneq.
    apply andb_true_iff in Hneq. destruct Hneq as [_ Hneq].
    now apply negb_true_iff in Hneq. }
  destruct (pick_defined n it p H Hfree) as (t & Ht & Hlt).
  rewrite (reachable_containers cs p it Hreach) in Hlt.
  exists (S d), p', it', t. split; [|split; [|split; [|split]]].
  - unfold operator_post_incr. now rewrite Hrun.
  - now rewrite deref_cursors.
  - exact Hlt.
  - now rewrite deref_cursors, Hc.
  - now apply end_containers.
Qed.

Lemma post_increment_returns_old_cursor_witness :
  exists fuel p' it',
    operator_post_incr fuel (mixed_product [[0; 1]; [10; 11; 12]]%nat)
                       (begin (mixed_product [[0; 1]; [10; 11; 12]]%nat))
    = Some (p', it', begin (mixed_product [[0; 1]; [10; 11; 12]]%nat)) /\
    deref p' (begin (mixed_product [[0; 1]; [10; 11; 12]]%nat))
    = Some [0; 10]%nat.
Proof.
  assert (Hlen : Forall (fun c => N.of_nat (length c) < modulus)
                        [[0; 1]; [10; 11; 12]]%nat) by (repeat constructor).
  assert (Hneq : iter_neq (begin (mixed_product [[0; 1]; [10; 11; 12]]%nat))
                          (end_ (mixed_product [[0; 1]; [10; 11; 12]]%nat))
                 = true) by reflexivity.
  destruct (post_increment_returns_old_cursor
              [[0; 1]; [10; 11; 12]]%nat _ _ Hlen (reach_begin _) Hneq)
    as (fuel & p' & it' & t & Hrun & Ht & _ & Ht' & _).
  exists fuel, p', it'. split; [exact Hrun|].
  rewrite Ht', <- Ht. reflexivity.
Defined.

(** * The invariant of the padded lengths *)

(** What the nodes know after [k] raw steps: nothing while [k] is below
    the length of their container, the length and a nonzero padded length
    from then on. *)
Fixpoint Discovered {A : Type} (k : N) (p : MixedProductor A) : Prop :=
  match p with
  | ProdBase _ => True
  | ProdNode c sz fsz r =>
      (if k <? N.of_nat (length c) then sz = 0 /\ fsz = 0
       else sz = N.of_nat (length c) /\ fsz <> 0) /\
      Discovered k r
  end.

(** A known padded length is at least the length, or it is 1: the coprime
    search went past [2^64 - 1]. *)
Fixpoint Padded_or_one {A : Type} (p : MixedProductor A) : Prop :=
  match p with
  | ProdBase _ => True
  | ProdNode c _ fsz r =>
      (fsz = 0 \/ N.of_nat (length c) <= fsz \/ fsz = 1) /\ Padded_or_one r
  end.

Lemma At_discovered {A : Type} (n : N) (it : Iterator) :
  forall p : MixedProductor A, At n p it -> Discovered n p.
Proof.
  induction it as [g|i b e rit IH cnt]; intros [T|c sz fsz r] H;
    try (cbn in H; contradiction); [exact I|].
  cbn [At] in H. destruct H as (_ & _ & _ & Hnode & Hrest).
  cbn [Discovered]. split; [|now apply IH].
  destruct (N.ltb_spec n (N.of_nat (length c)));
    destruct Hnode as [(? & ? & ? & _)|(? & _ & ? & ? & _)]; try lia; auto.
Qed.

Lemma discover_padded_or_one {A : Type} (t : N) (p : MixedProductor A) :
  t <> 0 -> smax p < modulus ->
  forall T, Padded_or_one p -> Padded_or_one (fst (discover t T p)).
Proof.
  intros Ht. induction p as [T0|c sz fsz r IH]; intros Hmax T H; [exact I|].
  cbn [smax] in Hmax. destruct H as [Hnode Hr].
  assert (Hrmax : smax r < modulus) by lia.
  cbn [discover]. unfold node_discover.
  destruct ((fsz =? 0) && (N.of_nat (length c) =? t)) eqn:Edue.
  - apply andb_true_iff in Edue. destruct Edue as [_ Es]. apply N.eqb_eq in Es.
    destruct (N.eqb_spec T 0) as [ET|ET]; cbn [negb];
      match goal with
      | |- context [discover t ?T' r] =>
          specialize (IH Hrmax T' Hr); destruct (discover t T' r)
      end; cbn [fst Padded_or_one] in *; (split; [|exact IH]).
    + right. left. lia.
    + destruct (coprime_search_ge_or_one t T ET ltac:(lia)) as [Hge|H1].
      * right. left. lia.
      * right. right. exact H1.
  - specialize (IH Hrmax (if 0 =? 0 then T else 0) Hr).
    destruct (discover t _ r). cbn [fst Padded_or_one] in *. auto.
Qed.

Lemma padded_or_one_begin {A : Type} (cs : list (list A)) :
  Padded_or_one (mixed_product cs).
Proof. induction cs; cbn; auto. Qed.

Lemma run_padded_or_one {A : Type} (cs : list (list A)) (k : nat) :
  walkable cs ->
  Padded_or_one (fst (run k (mixed_product cs) (begin (mixed_product cs)))).
Proof.
  intros Hw. induction k as [|k IH]; [apply padded_or_one_begin|].
  pose proof (run_step k _ _ 0 (At_begin cs Hw)) as Hd. cbv zeta in Hd.
  pose proof (run_at k _ _ 0 (At_begin cs Hw)) as Hk.
  pose proof (discover_padded_or_one (0 + N.of_nat k + 1) _ ltac:(lia)
                (At_smax _ _ _ Hk)
                (read_total (fst (run k (mixed_product cs)
                                      (begin (mixed_product cs))))) IH) as H.
  now rewrite Hd in H.
Qed.

Lemma idle_containers {A : Type} (t : N) (p : MixedProductor A) :
  Forall (fun c => N.of_nat (length c) <> t) (containers p) -> Idle t p.
Proof.
  induction p as [T|c sz fsz r IH]; cbn; [tauto|].
  intros H. apply Forall_cons_iff in H. destruct H as [Hc Hr]. auto.
Qed.

Lemma run_idle_step {A : Type} (cs : list (list A)) (k : nat) :
  walkable cs -> Forall (fun c => length c <> S k) cs ->
  fst (run (S k) (mixed_product cs) (begin (mixed_product cs)))
  = fst (run k (mixed_product cs) (begin (mixed_product cs))).
Proof.
  intros Hw Hno.
  pose proof (run_step k _ _ 0 (At_begin cs Hw)) as Hd. cbv zeta in Hd.
  rewrite discover_idle in Hd; [now injection Hd|].
  apply idle_containers.
  rewrite (run_containers k _ _ 0 (At_begin cs Hw)), containers_mixed_product.
  revert Hno. apply Forall_impl. intros c Hc. lia.
Qed.

Lemma set_size_coprime {A : Type} (c : list A) (sz fsz : N)
      (r : MixedProductor A) (n : N) :
  0 < n < modulus ->
  let p1 := set_size n (ProdNode c sz fsz r) in
  (read_total r <> 0 -> gcd (owner_fakesize p1) (read_total r) = 1) /\
  (read_total r = 0 -> owner_fakesize p1 = n).
Proof.
  intros Hn. cbv zeta. unfold set_size.
  destruct (N.eqb_spec n 0) as [E|_]; [lia|].
  destruct (N.eqb_spec (read_total r) 0) as [ET|ET]; cbn [negb owner_fakesize].
  - split; [contradiction|reflexivity].
  - split; [|contradiction]. intros _.
    apply coprime_search_coprime; [assumption|lia].
Qed.

(** C3, as the code has it.  After [k] raw steps of a traversal over
    [N >= 1] non-empty containers, for every node: [size_] and the padded
    length are 0 while [k] is below the length of the container, and from
    [k] equal to that length on [size_] is the length and the padded
    length is not 0 ([Discovered]); a known padded length is at least the
    length, or it is 1 when the coprime search went past [2^64 - 1]
    ([Padded_or_one]); what a node knows never changes ([Grows]); the
    generator, running total included, changes at raw step [k + 1] only
    when some container has [k + 1] elements, and then by [set_size(k + 1)]
    on the still unknown nodes of that length, outer first ([discover]),
    each call leaving a padded length coprime with the running total it
    found, and equal to the length when that total was 0; and as long as
    the product of the padded lengths known so far is below [2^64], the
    running total is exactly that product (0 while nothing is known) and
    these padded lengths are pairwise coprime. *)
Theorem padding_invariant_along_traversal {A : Type} (cs : list (list A))
        (k : nat) :
  cs <> [] -> walkable cs ->
  let p0 := mixed_product cs in
  let p := fst (run k p0 (begin p0)) in
  let p' := fst (run (S k) p0 (begin p0)) in
  Discovered (N.of_nat k) p /\
  Padded_or_one p /\
  (forall j, Grows p (fst (run (k + j) p0 (begin p0)))) /\
  (Forall (fun c => length c <> S k) cs -> p' = p) /\
  (discover (N.of_nat k + 1) (read_total p) p = (p', read_total p') /\
   (forall t (c : list A) sz fsz r,
       t <> 0 ->
       fst (discover t (read_total r) (ProdNode c sz fsz r))
       = if (fsz =? 0) && (N.of_nat (length c) =? t)
         then
           let p1 := set_size t (ProdNode c sz fsz r) in
           with_rest p1 (fst (discover t (read_total p1) (owner_rest p1)))
         else ProdNode c sz fsz (fst (discover t (read_total r) r))) /\
   (forall t T, discover t T (@ProdBase A T) = (ProdBase T, T)) /\
   (forall n (c : list A) sz fsz r,
       0 < n < modulus ->
       let p1 := set_size n (ProdNode c sz fsz r) in
       (read_total r <> 0 -> gcd (owner_fakesize p1) (read_total r) = 1) /\
       (read_total r = 0 -> owner_fakesize p1 = n))) /\
  (prodN (pads p) < modulus ->
   read_total p = (if any_known p then prodN (pads p) else 0) /\
   pairwise_coprime (pads p)).
Proof.
  intros _ Hw p0 p p'.
  split; [exact (At_discovered _ _ _ (run_from_begin_at cs k Hw))|].
  split; [exact (run_padded_or_one cs k Hw)|].
  split; [|split; [|split]].
  - intros j. unfold p. rewrite run_add.
    exact (run_grows j _ _ _ (run_from_begin_at cs k Hw)).
  - intros Hno. exact (run_idle_step cs k Hw Hno).
  - split; [|split; [|split]].
    + pose proof (run_step k _ _ 0 (At_begin cs Hw)) as Hd. cbv zeta in Hd.
      now rewrite N.add_0_l in Hd.
    + intros t c sz fsz r Ht. now apply discover_by_set_size.
    + reflexivity.
    + intros n c sz fsz r Hn. now apply set_size_coprime.
  - intros Hsmall. exact (good_run cs k Hw Hsmall).
Qed.

Lemma padding_invariant_along_traversal_witness :
  [[0; 1]; [0; 1; 2; 3]]%nat <> [] /\
  walkable [[0; 1]; [0; 1; 2; 3]]%nat /\
  fst (run 4 (mixed_product [[0; 1]; [0; 1; 2; 3]]%nat)
           (begin (mixed_product [[0; 1]; [0; 1; 2; 3]]%nat)))
  = ProdNode [0; 1]%nat 2 2 (ProdNode [0; 1; 2; 3]%nat 4 5 (ProdBase 10)) /\
  read_total (fst (run 4 (mixed_product [[0; 1]; [0; 1; 2; 3]]%nat)
                       (begin (mixed_product [[0; 1]; [0; 1; 2; 3]]%nat))))
  = 2 * 5.
Proof.
  assert (Hne : [[0; 1]; [0; 1; 2; 3]]%nat <> []) by discriminate.
  assert (Hw : walkable [[0; 1]; [0; 1; 2; 3]]%nat) by (repeat constructor).
  split; [exact Hne|]. split; [exact Hw|]. split; [reflexivity|].
  destruct (padding_invariant_along_traversal [[0; 1]; [0; 1; 2; 3]]%nat 4 Hne Hw)
    as (_ & _ & _ & _ & _ & Hprod).
  destruct Hprod as [H _]; [reflexivity|].
  rewrite H. reflexivity.
Defined.

(** The coprime search of [set_size] can wrap: on the observed length
    [2^64 - 1], a multiple of 3, with the running total 3, the increment
    passes 0 and the padded length is 1, below the length. *)
Lemma set_size_search_wraps :
  let p' := set_size 18446744073709551615 (ProdNode (@nil nat) 0 0 (ProdBase 3)) in
  owner_size p' = 18446744073709551615 /\
  owner_fakesize p' = 1 /\
  read_total p' = 3.
Proof. vm_compute. repeat split. Qed.
